(** * req-log-mid: request logging middleware, its sinks and its store queries

    A shallow embedding of the Go sources (logger.go, config.go, middleware.go,
    file_logger.go, db_logger.go, the admin handlers that call them and the
    text helpers of the configuration repository), with the properties the
    natural-language specification states about them and further properties
    the sources show.

    Conventions.
    - Go's [int] and [int64] are [Z]; [time.Duration] is [Z] nanoseconds;
      [float64] is Rocq's primitive binary64 [float].
    - A Go pointer [*LogEntry] is [ptr] = [option loc] ([None] is nil); the
      objects live in a [Heap], so that two holders of one pointer, or of one
      map, see each other's updates.
    - An [interface{}] value is modelled by the JSON value it encodes to
      ([json]); Go's [int] and [float64] stay apart as [JInt] and [JFloat].
      Values with no JSON encoding (channels, functions, NaN) are outside the
      model.
    - Goroutines are explicit: the drain task of a sink is a small-step
      machine ([drain_pc], [drainStep]); the goroutine the middleware starts
      for an asynchronous dispatch is a pending task of the [World]. *)

From Stdlib Require Import ZArith List String Ascii Bool Lia Sorting.Sorted.
From Stdlib Require Import Floats.PrimFloat Numbers.Cyclic.Int63.Uint63.
From stdpp Require Import base option list gmap strings.

Set Warnings "-register-all".

Local Open Scope string_scope.
Local Open Scope list_scope.
Local Open Scope Z_scope.

(** Go's [int] arithmetic wraps around at 64 bits. *)
Definition int64 (z : Z) : Z := (z + 2 ^ 63) mod 2 ^ 64 - 2 ^ 63.

(** ** JSON values and Go's [interface{}] *)

Inductive json : Type :=
| JNull
| JBool (b : bool)
| JInt (n : Z)
| JFloat (f : float)
| JStr (s : string)
| JArr (xs : list json)
| JObj (fields : list (string * json)).

(** [encoding/json] writes the keys of a Go map in byte order. *)
Fixpoint insertKey (kv : string * json) (l : list (string * json)) : list (string * json) :=
  match l with
  | [] => [kv]
  | kv' :: l' => if String.leb (fst kv) (fst kv') then kv :: l else kv' :: insertKey kv l'
  end.

Definition sortKeys (l : list (string * json)) : list (string * json) :=
  foldr insertKey [] l.

(** [encoding/json] refuses a float that is NaN or infinite, wherever in the
    value it stands. *)
Fixpoint encodable (j : json) : bool :=
  match j with
  | JFloat f => PrimFloat.is_finite f
  | JArr xs => forallb encodable xs
  | JObj fs => forallb (fun kv => encodable (snd kv)) fs
  | _ => true
  end.

(** [json.Marshal(m)] for a map that is not nil; [None] is its error. *)
Definition marshalMap (m : gmap string json) : option json :=
  let j := JObj (sortKeys (map_to_list m)) in
  if encodable j then Some j else None.

(** ** logger.go: LogEntry *)

Definition loc := nat.
Definition ptr := option loc.

Record LogEntry : Type := mkLogEntry {
  Method : string;
  Path : string;
  ClientIP : string;
  UserAgent : string;
  StatusCode : Z;
  Duration : float;
  Timestamp : string;
  CustomFields : option loc   (* a Go map is a reference; None is the nil map *)
}.

Record Heap : Type := mkHeap {
  entries : gmap loc LogEntry;          (* the LogEntry objects *)
  cmaps : gmap loc (gmap string json)   (* the map[string]interface{} objects *)
}.

Definition zeroEntry : LogEntry :=
  mkLogEntry "" "" "" "" 0 0%float "" None.

Definition deref (h : Heap) (l : loc) : LogEntry :=
  default zeroEntry (entries h !! l).

Definition mapOf (h : Heap) (m : option loc) : gmap string json :=
  match m with
  | Some l => default ∅ (cmaps h !! l)
  | None => ∅
  end.

(** [float64(d)] for an int64 [d]. *)
Definition float64_of_int64 (d : Z) : float :=
  if d <? 0 then
    if d =? - 2 ^ 63 then PrimFloat.opp 9223372036854775808%float
    else PrimFloat.opp (PrimFloat.of_uint63 (Uint63.of_Z (- d)))
  else PrimFloat.of_uint63 (Uint63.of_Z d).

Definition Millisecond : Z := 1000000.

(** NewLogEntry: the value of the object it allocates. *)
Definition NewLogEntry (method path clientIP userAgent : string) (statusCode : Z)
    (duration : Z) (timestamp : string) : LogEntry :=
  {| Method := method;
     Path := path;
     ClientIP := clientIP;
     UserAgent := userAgent;
     StatusCode := statusCode;
     Duration := PrimFloat.div (float64_of_int64 duration) (float64_of_int64 Millisecond);
     Timestamp := timestamp;
     CustomFields := None |}.

(** The struct tags of LogEntry, in declaration order. [omitempty] on a map
    drops the member when the map is nil or has no key. *)
Definition customFieldsMember (h : Heap) (e : LogEntry) : option (list (string * json)) :=
  let m := mapOf h (CustomFields e) in
  match CustomFields e with
  | None => Some []
  | Some _ =>
      if decide (size m = 0%nat) then Some []
      else (fun j => [("custom_fields", j)]) <$> marshalMap m
  end.

(** LogEntry.MarshalJSON: the embedded [*Alias] promotes the fields of
    LogEntry, so the wrapper encodes as the struct itself. [None] is the
    error of json.Marshal. *)
Definition MarshalJSON (h : Heap) (e : LogEntry) : option json :=
  if PrimFloat.is_finite (Duration e) then
    (fun custom =>
       JObj ([ ("method", JStr (Method e));
               ("path", JStr (Path e));
               ("client_ip", JStr (ClientIP e));
               ("user_agent", JStr (UserAgent e));
               ("status_code", JInt (StatusCode e));
               ("duration_ms", JFloat (Duration e));
               ("timestamp", JStr (Timestamp e)) ]
             ++ custom)) <$> customFieldsMember h e
  else None.

(** [json.Marshal(entry)] for [entry : *LogEntry]: a nil pointer encodes as
    null without calling MarshalJSON. *)
Definition marshalEntry (h : Heap) (p : ptr) : option json :=
  match p with
  | None => Some JNull
  | Some l => MarshalJSON h (deref h l)
  end.

(** [json.Marshal(m)] for a map: nil encodes as null. *)
Definition marshalFields (h : Heap) (m : option loc) : option json :=
  match m with
  | None => Some JNull
  | Some _ => marshalMap (mapOf h m)
  end.

Definition member (k : string) (j : json) : option json :=
  match j with
  | JObj fs => snd <$> List.find (fun kv => String.eqb (fst kv) k) fs
  | _ => None
  end.

Definition keysOf (j : json) : list string :=
  match j with
  | JObj fs => map fst fs
  | _ => []
  end.

(** ** config.go *)

Definition DefaultTimeFormat : string := "2006-01-02T15:04:05.000Z07:00".

Module Config.

Record Config : Type := mkConfig {
  Enabled : bool;
  SkipPaths : list string;
  CustomFields : option loc;   (* the template map, by reference *)
  TimeFormat : string;
  Async : bool;
  BufferSize : Z
}.

Definition setTimeFormat (v : string) (c : Config) : Config :=
  mkConfig (Enabled c) (SkipPaths c) (CustomFields c) v (Async c) (BufferSize c).

Definition setBufferSize (v : Z) (c : Config) : Config :=
  mkConfig (Enabled c) (SkipPaths c) (CustomFields c) (TimeFormat c) (Async c) v.

End Config.

Abbreviation Config := Config.Config.

Definition DefaultConfig : Config :=
  {| Config.Enabled := true;
     Config.SkipPaths := ["/health"; "/metrics";
                          "/.well-known/appspecific/com.chrome.devtools.json"];
     Config.CustomFields := None;
     Config.TimeFormat := DefaultTimeFormat;
     Config.Async := true;
     Config.BufferSize := 1000 |}.

(** ** Outcomes of a call

    A Go call returns, panics, or (for the calls that wait on a goroutine)
    does not come back within the steps it is given. [error] is Go's error
    value: [None] is nil. *)

Definition error := option string.

Inductive run (A : Type) : Type :=
| Ret (a : A)
| Panics
| OutOfFuel.
Arguments Ret {A} a.
Arguments Panics {A}.
Arguments OutOfFuel {A}.

Definition returned {A} (r : run A) : option A :=
  match r with Ret a => Some a | _ => None end.

(** ** file_logger.go and db_logger.go: the sink both loggers are

    FileLogger and DBLogger are the same struct and the same methods around
    two different destinations: [writeEntry] appends a line to a file,
    [insertEntry] inserts a row. [Destination] is what differs; [Sink] is
    what they share. *)

(** A Go channel of [*LogEntry]: the buffered entries, oldest first, the
    capacity given to [make], and whether [close] was called on it. *)
Record Chan : Type := mkChan {
  buffer : list ptr;
  capacity : nat;
  chClosed : bool
}.

(** Where the drain goroutine of [startAsyncWriter] stands. *)
Inductive drain_pc : Type :=
| NotStarted                 (* no goroutine: the logger was built with async = false *)
| AtSelect                   (* at the top of the loop, about to run the select *)
| Parked                     (* waiting in the select on the empty, open channel *)
| Holding (e : ptr)          (* received e with ok = true, about to persist it *)
| Flushing                   (* inside flushBuffer, about to run its select *)
| FlushHolding (e : ptr)     (* inside flushBuffer, received e, about to persist it *)
| Exited                     (* returned; wg.Done() has run *)
| Crashed.                   (* panicked *)

Class Destination (D : Type) : Type := {
  (* writeEntry / insertEntry *)
  persist : Heap -> ptr -> D -> option (D * error);    (* None: it panics *)
  (* what Close does with the handle once the drain task is joined *)
  release : D -> D * error;
  (* the words the drain task prints before a failure *)
  drainDiag : string
}.

Record Sink (D : Type) : Type := mkSink {
  dest : D;
  bufferCh : option Chan;      (* None is the nil channel *)
  closed : bool;
  drain : drain_pc;
  stderr : list string         (* the lines the logger printed to os.Stderr *)
}.
Arguments mkSink {D}.
Arguments dest {D}.
Arguments bufferCh {D}.
Arguments closed {D}.
Arguments drain {D}.
Arguments stderr {D}.

Module Sink.
Section Generic.
Context {D : Type} `{Destination D}.

Definition setDest (d : D) (s : Sink D) : Sink D :=
  mkSink d (bufferCh s) (closed s) (drain s) (stderr s).
Definition setChan (c : Chan) (s : Sink D) : Sink D :=
  mkSink (dest s) (Some c) (closed s) (drain s) (stderr s).
Definition setClosed (b : bool) (s : Sink D) : Sink D :=
  mkSink (dest s) (bufferCh s) b (drain s) (stderr s).
Definition setDrain (pc : drain_pc) (s : Sink D) : Sink D :=
  mkSink (dest s) (bufferCh s) (closed s) pc (stderr s).
Definition printErr (line : string) (s : Sink D) : Sink D :=
  mkSink (dest s) (bufferCh s) (closed s) (drain s) (stderr s ++ [line]).

(** The WaitGroup counter is zero when no drain goroutine is alive. *)
Definition wgZero (pc : drain_pc) : bool :=
  match pc with NotStarted | Exited => true | _ => false end.

(** NewFileLogger / NewDBLogger, after the destination was opened: the
    channel is made whatever [async] says, and [async] only decides whether
    the drain goroutine is started. [make] panics on a negative size. *)
Definition New (opened : D) (async : bool) (bufferSize : Z) : run (Sink D) :=
  if bufferSize <? 0 then Panics
  else
    let logger := mkSink opened (Some (mkChan [] (Z.to_nat bufferSize) false)) false NotStarted [] in
    Ret (if async then setDrain AtSelect logger else logger).

(** One persist by whoever drains, with the diagnostic on failure. *)
Definition persistLogged (diag : string) (h : Heap) (e : ptr) (s : Sink D) : option (Sink D) :=
  match persist h e (dest s) with
  | Some (d, None) => Some (setDest d s)
  | Some (d, Some err) => Some (printErr (diag +:+ err) (setDest d s))
  | None => None
  end.

(** Write. The mutex makes the body atomic.  The select with a default is a
    non-blocking send: it goes through when the receiver is parked on the
    channel (the entry is handed to it) or a buffer slot is free. The quit
    channel is made and never closed or sent on, so it plays no part. *)
Definition Write (h : Heap) (s : Sink D) (entry : ptr) : run (Sink D * error) :=
  if closed s then Ret (s, Some "logger is closed")
  else
    match bufferCh s with
    | Some ch =>
        if chClosed ch then Panics                       (* send on a closed channel *)
        else
          match drain s with
          | Parked => Ret (setDrain (Holding entry) s, None)
          | _ =>
              if (length (buffer ch) <? capacity ch)%nat
              then Ret (setChan (mkChan (buffer ch ++ [entry]) (capacity ch) false) s, None)
              else
                match entry with
                | None => Panics                           (* entry.Method on nil *)
                | Some l =>
                    let e := deref h l in
                    Ret (printErr ("log buffer full, dropping entry: " +:+ Method e +:+ " " +:+ Path e) s,
                         None)
                end
          end
    | None =>
        (* synchronous mode *)
        match persist h entry (dest s) with
        | Some (d, err) => Ret (setDest d s, err)
        | None => Panics
        end
    end.

(** One step of the drain goroutine; [None] when it cannot move (it is
    parked, gone, or was never started). *)
Definition drainStep (h : Heap) (s : Sink D) : option (Sink D) :=
  match drain s, bufferCh s with
  | AtSelect, Some ch =>
      match buffer ch with
      | e :: rest => Some (setDrain (Holding e) (setChan (mkChan rest (capacity ch) (chClosed ch)) s))
      | [] => Some (setDrain (if chClosed ch then Flushing else Parked) s)
      end
  | Parked, Some ch => if chClosed ch then Some (setDrain Flushing s) else None
  | Holding e, _ =>
      match persistLogged ("failed to " +:+ drainDiag +:+ " log: ") h e s with
      | Some s' => Some (setDrain AtSelect s')
      | None => Some (setDrain Crashed s)
      end
  | Flushing, Some ch =>
      match buffer ch with
      | e :: rest => Some (setDrain (FlushHolding e) (setChan (mkChan rest (capacity ch) (chClosed ch)) s))
      | [] => Some (setDrain (if chClosed ch then FlushHolding None else Exited) s)
      end
  | FlushHolding e, _ =>
      match persistLogged "failed to flush log: " h e s with
      | Some s' => Some (setDrain Flushing s')
      | None => Some (setDrain Crashed s)
      end
  | _, _ => None
  end.

(** wg.Wait(): the caller stands still while the drain goroutine runs. *)
Fixpoint wgWait (fuel : nat) (h : Heap) (s : Sink D) : run (Sink D) :=
  if wgZero (drain s) then Ret s
  else
    match fuel with
    | O => OutOfFuel
    | S fuel' =>
        match drainStep h s with
        | Some s' => match drain s' with Crashed => Panics | _ => wgWait fuel' h s' end
        | None => OutOfFuel        (* nobody can move: Wait never comes back *)
        end
    end.

(** Close. It holds the mutex from its first line to its return, so no
    Write runs while it waits. *)
Definition Close (fuel : nat) (h : Heap) (s : Sink D) : run (Sink D * error) :=
  if closed s then Ret (s, None)
  else
    let s1 := setClosed true s in
    let joined :=
      match bufferCh s1 with
      | Some ch =>
          if chClosed ch then Panics                     (* close of a closed channel *)
          else wgWait fuel h (setChan (mkChan (buffer ch) (capacity ch) true) s1)
      | None => Ret s1
      end in
    match joined with
    | Ret s2 => let '(d, err) := release (dest s2) in Ret (setDest d s2, err)
    | Panics => Panics
    | OutOfFuel => OutOfFuel
    end.

(** The receive of flushBuffer's select: the entry taken and the logger
    without it, or [None] when the select takes its default. A closed channel
    is always ready to be received from and gives nil once it is empty; a nil
    channel is never ready. *)
Definition tryReceive (s : Sink D) : option (ptr * Sink D) :=
  match bufferCh s with
  | Some ch =>
      match buffer ch with
      | e :: rest => Some (e, setChan (mkChan rest (capacity ch) (chClosed ch)) s)
      | [] => if chClosed ch then Some (None, s) else None
      end
  | None => None
  end.

(** flushBuffer, run by the caller of Flush: receive and persist until the
    select takes its default. *)
Fixpoint flushBuffer (fuel : nat) (h : Heap) (s : Sink D) : run (Sink D) :=
  match tryReceive s with
  | None => Ret s
  | Some (e, s1) =>
      match fuel with
      | O => OutOfFuel
      | S fuel' =>
          match persistLogged "failed to flush log: " h e s1 with
          | Some s' => flushBuffer fuel' h s'
          | None => Panics
          end
      end
  end.

Definition Flush (fuel : nat) (h : Heap) (s : Sink D) : run (Sink D) :=
  match bufferCh s with
  | None => Ret s
  | Some _ => flushBuffer fuel h s
  end.

End Generic.
End Sink.

(** ** file_logger.go: the file behind a FileLogger

    The file is the lines written to it, kept as the JSON value each line
    encodes. The bufio.Writer has a one-byte buffer and every record is
    longer, so each Write goes straight to the file; what the writer keeps is
    its sticky error. [fault] is the environment: the error the operating
    system answers a write with, if any. *)
Record File : Type := mkFile {
  lines : list json;
  isOpen : bool;
  fault : option string;
  werr : option string
}.

Definition writeEntry (h : Heap) (entry : ptr) (f : File) : option (File * error) :=
  let failed (e : string) : error := Some ("failed to write log: " +:+ e) in
  match marshalEntry h entry with
  | None => Some (f, Some "failed to marshal log entry: json: unsupported value")
  | Some data =>
      match werr f with
      | Some e => Some (f, failed e)
      | None =>
          if negb (isOpen f) then
            Some (mkFile (lines f) (isOpen f) (fault f) (Some "file already closed"),
                  failed "file already closed")
          else
            match fault f with
            | Some e => Some (mkFile (lines f) (isOpen f) (fault f) (Some e), failed e)
            | None => Some (mkFile (lines f ++ [data]) (isOpen f) (fault f) None, None)
            end
      end
  end.

(** The tail of FileLogger.Close: writer.Flush() (nothing is buffered), then
    file.Close(). *)
Definition closeFile (f : File) : File * error :=
  if isOpen f then (mkFile (lines f) false (fault f) (werr f), None)
  else (f, Some "file already closed").

#[export] Instance fileDestination : Destination File :=
  {| persist := writeEntry; release := closeFile; drainDiag := "write" |}.

Definition FileLogger : Type := Sink File.

Definition NewFileLogger (file : File) (async : bool) (bufferSize : Z) : run FileLogger :=
  Sink.New file async bufferSize.

Definition emptyFile : File := mkFile [] true None None.

(** ** db_logger.go: the table behind a DBLogger *)

Module DB.

(** A row of request_logs. [CustomFields] is the JSONB column, kept as the
    JSON value it holds, [None] for NULL; [CreatedAt] is the TIMESTAMP column,
    in microseconds of the destination's wall clock. *)
Record DBLogEntry : Type := mkRow {
  ID : Z;
  Method : string;
  Path : string;
  ClientIP : string;
  UserAgent : string;
  StatusCode : Z;
  Duration : float;
  Timestamp : string;
  CustomFields : option json;
  CreatedAt : Z
}.

(** The connection and the table. [dbFault] is the environment: the error the
    store answers a statement with, if any. [clock] is what time.Now() reads
    when a row is inserted, [serverNow] what NOW() is to the store; both count
    microseconds of one wall clock. *)
Record Store : Type := mkStore {
  driver : string;
  rows : list DBLogEntry;       (* in insertion order *)
  nextID : Z;                   (* the BIGSERIAL sequence *)
  dbOpen : bool;
  dbFault : option string;
  clock : Z;                    (* time.Now() of the process *)
  serverNow : Z                 (* NOW() of the destination *)
}.

Definition setRows (rs : list DBLogEntry) (st : Store) : Store :=
  mkStore (driver st) rs (nextID st) (dbOpen st) (dbFault st) (clock st) (serverNow st).

(** What db.Exec and db.Query answer before looking at the statement. *)
Definition unavailable (st : Store) : error :=
  if negb (dbOpen st) then Some "sql: database is closed" else dbFault st.

End DB.

(** insertEntry: [entry.CustomFields] on a nil entry is a nil dereference.
    The error of json.Marshal is dropped and the nil bytes it leaves are sent
    as the parameter: lib/pq, the driver the repository loads, sends them as
    the empty string, which a JSONB column refuses. *)
Definition insertEntry (h : Heap) (entry : ptr) (st : DB.Store) : option (DB.Store * error) :=
  match entry with
  | None => None
  | Some l =>
      let e := deref h l in
      let customFields := marshalFields h (CustomFields e) in
      match DB.unavailable st with
      | Some err => Some (st, Some err)
      | None =>
          match customFields with
          | None => Some (st, Some "pq: invalid input syntax for type json")
          | Some data =>
              let row := DB.mkRow (DB.nextID st) (Method e) (Path e) (ClientIP e) (UserAgent e)
                           (StatusCode e) (Duration e) (Timestamp e) (Some data) (DB.clock st) in
              Some (DB.mkStore (DB.driver st) (DB.rows st ++ [row]) (DB.nextID st + 1)
                      (DB.dbOpen st) (DB.dbFault st) (DB.clock st) (DB.serverNow st), None)
          end
      end
  end.

(** The tail of DBLogger.Close: db.Close(), which is idempotent. *)
Definition closeDB (st : DB.Store) : DB.Store * error :=
  (DB.mkStore (DB.driver st) (DB.rows st) (DB.nextID st) false (DB.dbFault st)
     (DB.clock st) (DB.serverNow st), None).

#[export] Instance storeDestination : Destination DB.Store :=
  {| persist := insertEntry; release := closeDB; drainDiag := "insert" |}.

Definition DBLogger : Type := Sink DB.Store.

Definition NewDBLogger (db : DB.Store) (async : bool) (bufferSize : Z) : run DBLogger :=
  Sink.New db async bufferSize.

(** ** logger.go: the Logger interface *)

Class Logger (L : Type) : Type := {
  Write : Heap -> L -> ptr -> run (L * error);
  Close : nat -> Heap -> L -> run (L * error);
  Flush : nat -> Heap -> L -> run L
}.

#[export] Instance sinkLogger {D : Type} `{Destination D} : Logger (Sink D) :=
  {| Write := Sink.Write; Close := Sink.Close; Flush := Sink.Flush |}.

(** ** middleware.go *)

Definition logEntryKey : string := "req_log_entry".

(** What a gin.Context key holds: a [*LogEntry], or anything else. *)
Inductive ctxval : Type :=
| CEntry (p : ptr)
| COther (v : json).

Record Request : Type := mkRequest {
  reqMethod : string;
  reqPath : string;              (* c.Request.URL.Path *)
  reqClientIP : string;          (* what c.ClientIP() finds *)
  reqUserAgent : string;
  reqBody : option (list ascii)  (* c.Request.Body: what is left to read; None is nil *)
}.

Definition setBody (b : option (list ascii)) (r : Request) : Request :=
  mkRequest (reqMethod r) (reqPath r) (reqClientIP r) (reqUserAgent r) b.

(** Everything a request can see or change while it is served. *)
Record World (L : Type) : Type := mkWorld {
  heap : Heap;
  request : Request;             (* c.Request *)
  keys : gmap string ctxval;     (* c.Keys *)
  status : Z;                    (* c.Writer.Status() *)
  config : Config;               (* the object cfg points to, shared with the admin handlers *)
  now : Z;                       (* the clock, in nanoseconds *)
  logger : L;
  tasks : list loc               (* goroutines started for an async dispatch and not
                                    run yet, each holding its entry pointer *)
}.
Arguments mkWorld {L}.
Arguments heap {L}.
Arguments request {L}.
Arguments keys {L}.
Arguments status {L}.
Arguments config {L}.
Arguments now {L}.
Arguments logger {L}.
Arguments tasks {L}.

(** Which of its three ways the middleware took. *)
Inductive branch : Type :=
| DisabledSkip
| PathSkip
| Instrumented (entry : loc).

Definition isInstrumented (b : branch) : bool :=
  match b with Instrumented _ => true | _ => false end.

Section Middleware.
Context {L : Type} `{Logger L}.
(** [t.Format(layout)] of package time. *)
Variable formatTime : string -> Z -> string.

Definition setHeap (h : Heap) (w : World L) : World L :=
  mkWorld h (request w) (keys w) (status w) (config w) (now w) (logger w) (tasks w).
Definition setRequest (r : Request) (w : World L) : World L :=
  mkWorld (heap w) r (keys w) (status w) (config w) (now w) (logger w) (tasks w).
Definition setKeys (k : gmap string ctxval) (w : World L) : World L :=
  mkWorld (heap w) (request w) k (status w) (config w) (now w) (logger w) (tasks w).
Definition setConfig (c : Config) (w : World L) : World L :=
  mkWorld (heap w) (request w) (keys w) (status w) c (now w) (logger w) (tasks w).
Definition setLogger (l : L) (w : World L) : World L :=
  mkWorld (heap w) (request w) (keys w) (status w) (config w) (now w) l (tasks w).
Definition setTasks (t : list loc) (w : World L) : World L :=
  mkWorld (heap w) (request w) (keys w) (status w) (config w) (now w) (logger w) t.
Definition setStatus (c : Z) (w : World L) : World L :=
  mkWorld (heap w) (request w) (keys w) c (config w) (now w) (logger w) (tasks w).

(** Allocation of a LogEntry object and of a map object. *)
Definition allocEntry (e : LogEntry) (h : Heap) : loc * Heap :=
  let l := fresh (dom (entries h)) in
  (l, mkHeap (<[ l := e ]> (entries h)) (cmaps h)).

Definition allocMap (m : gmap string json) (h : Heap) : loc * Heap :=
  let l := fresh (dom (cmaps h)) in
  (l, mkHeap (entries h) (<[ l := m ]> (cmaps h))).

Definition setCustomFields (m : option loc) (e : LogEntry) : LogEntry :=
  mkLogEntry (Method e) (Path e) (ClientIP e) (UserAgent e) (StatusCode e)
    (Duration e) (Timestamp e) m.

(** GetLogEntry *)
Definition GetLogEntry (w : World L) : ptr :=
  match keys w !! logEntryKey with
  | Some (CEntry p) => p
  | _ => None
  end.

(** SetLogField *)
Definition SetLogField (key : string) (value : json) (w : World L) : World L :=
  match GetLogEntry w with
  | Some l =>
      let h := heap w in
      let e := deref h l in
      match CustomFields e with
      | None =>
          let '(m, h1) := allocMap (<[ key := value ]> ∅) h in
          setHeap (mkHeap (<[ l := setCustomFields (Some m) e ]> (entries h1)) (cmaps h1)) w
      | Some m =>
          setHeap (mkHeap (entries h) (<[ m := <[ key := value ]> (mapOf h (Some m)) ]> (cmaps h))) w
      end
  | None => w
  end.

(** RequestLoggerWithConfig, lines 26-36: the configuration the closure
    keeps, from the pointer it was given ([None] is nil). The two fields are
    set in the caller's object. *)
Definition normalize (cfg : option Config) : Config :=
  let cfg := match cfg with None => DefaultConfig | Some c => c end in
  let cfg := if String.eqb (Config.TimeFormat cfg) "" then Config.setTimeFormat DefaultTimeFormat cfg else cfg in
  if Config.BufferSize cfg <=? 0 then Config.setBufferSize 1000 cfg else cfg.

(** Lines 66-116: time the chain, build the entry, copy the template into
    it, and put it in the context. [next] is c.Next(). *)
Definition instrument (customFields : option loc) (timeFormat : string)
    (next : World L -> World L) (w : World L) : World L * loc :=
  let startTime := now w in
  let bodyBytes := default [] (reqBody (request w)) in
  let w := match reqBody (request w) with
           | Some _ => setRequest (setBody (Some bodyBytes) (request w)) w
           | None => w
           end in
  let w := next w in
  let duration := now w - startTime in
  let w := if (0 <? length bodyBytes)%nat
           then setRequest (setBody (Some bodyBytes) (request w)) w else w in
  let statusCode := status w in
  let clientIP := reqClientIP (request w) in
  let userAgent := reqUserAgent (request w) in
  let entry := NewLogEntry (reqMethod (request w)) (reqPath (request w)) clientIP userAgent
                 statusCode duration (formatTime timeFormat (now w)) in
  let '(entry, h) :=
    match customFields with
    | Some _ =>
        let '(m, h) := allocMap (mapOf (heap w) customFields) (heap w) in
        (setCustomFields (Some m) entry, h)
    | None => (entry, heap w)
    end in
  let '(l, h) := allocEntry entry h in
  (setKeys (<[ logEntryKey := CEntry (Some l) ]> (keys w)) (setHeap h w), l).

(** Lines 118-130. The error Write returns is dropped. *)
Definition dispatch (async : bool) (entry : loc) (w : World L) : run (World L) :=
  if async then Ret (setTasks (tasks w ++ [entry]) w)
  else
    match Write (heap w) (logger w) (Some entry) with
    | Ret (lg, _) => Ret (setLogger lg w)
    | Panics => Panics
    | OutOfFuel => OutOfFuel
    end.

(** The goroutine of an async dispatch, when the scheduler runs it: it
    copies the struct (the map inside stays shared) and writes the copy. *)
Definition runTask (i : nat) (w : World L) : run (World L) :=
  match tasks w !! i with
  | Some entry =>
      let '(logCopy, h) := allocEntry (deref (heap w) entry) (heap w) in
      let w := setTasks (delete i (tasks w)) (setHeap h w) in
      match Write (heap w) (logger w) (Some logCopy) with
      | Ret (lg, _) => Ret (setLogger lg w)
      | Panics => Panics
      | OutOfFuel => OutOfFuel
      end
  | None => Ret w
  end.

(** The closure RequestLoggerWithConfig returns, lines 39-131. The five
    reads under the read lock are one snapshot of [config w]. *)
Definition handle (next : World L -> World L) (w : World L) : branch * run (World L) :=
  let isEnabled := Config.Enabled (config w) in
  let skipPaths := Config.SkipPaths (config w) in
  let customFields := Config.CustomFields (config w) in
  let async := Config.Async (config w) in
  let timeFormat := Config.TimeFormat (config w) in
  if negb isEnabled then (DisabledSkip, Ret (next w))
  else if (0 <? length skipPaths)%nat && existsb (String.eqb (reqPath (request w))) skipPaths
  then (PathSkip, Ret (next w))
  else
    let '(w, entry) := instrument customFields timeFormat next w in
    (Instrumented entry, dispatch async entry w).

(** RequestLoggerWithConfig: the configuration object as it leaves the
    function, and the handler. *)
Definition RequestLoggerWithConfig (cfg : option Config)
    : Config * ((World L -> World L) -> World L -> branch * run (World L)) :=
  (normalize cfg, handle).

(** RequestLogger *)
Definition RequestLogger : Config * ((World L -> World L) -> World L -> branch * run (World L)) :=
  RequestLoggerWithConfig (Some DefaultConfig).

(** A run of requests, one after the other, each with its own chain. A new
    request starts on a reset context: no keys, status 200. *)
Fixpoint serve (reqs : list (Request * (World L -> World L))) (w : World L)
    : list branch * run (World L) :=
  match reqs with
  | [] => ([], Ret w)
  | (r, next) :: rest =>
      match handle next (setStatus 200 (setKeys ∅ (setRequest r w))) with
      | (b, Ret w') => let '(bs, out) := serve rest w' in (b :: bs, out)
      | (b, out) => ([b], out)
      end
  end.

End Middleware.

(** ** handler.go: what the admin handlers do to the shared configuration *)

(** UpdateConfig, lines 314-320, with the values it parsed from the saved
    row. TimeFormat is not among the fields it sets. *)
Definition applyUpdate (enabled : bool) (skipPaths : list string) (customFields : option loc)
    (async : bool) (bufferSize : Z) (c : Config) : Config :=
  Config.mkConfig enabled skipPaths customFields (Config.TimeFormat c) async bufferSize.

(** ResetConfig, lines 340-348. *)
Definition applyReset (c : Config) : Config :=
  Config.mkConfig (Config.Enabled DefaultConfig) (Config.SkipPaths DefaultConfig)
    (Config.CustomFields DefaultConfig) (Config.TimeFormat DefaultConfig)
    (Config.Async DefaultConfig) (Config.BufferSize DefaultConfig).

Inductive adminOp : Type :=
| Update (enabled : bool) (skipPaths : list string) (customFields : option loc)
         (async : bool) (bufferSize : Z)
| Reset.

Definition applyAdmin (op : adminOp) (c : Config) : Config :=
  match op with
  | Update e s f a b => applyUpdate e s f a b c
  | Reset => applyReset c
  end.

(** ** config_repo.go: the skip list as text *)

(** splitComma: the pieces of [s] between its commas. [piece] is s[start:i],
    the piece the loop is in. *)
Fixpoint splitCommaFrom (piece s : string) : list string :=
  match s with
  | EmptyString => [piece]
  | String c s' =>
      if Ascii.eqb c "," then piece :: splitCommaFrom "" s'
      else splitCommaFrom (piece +:+ String c "") s'
  end.

Definition splitComma (s : string) : list string := splitCommaFrom "" s.

(** The white space of unicode.IsSpace, by the bytes of its UTF-8 encoding:
    tab, line feed, vertical tab, form feed, carriage return and space;
    U+0085 and U+00A0; U+1680, U+2000 to U+200A, U+2028, U+2029, U+202F,
    U+205F and U+3000. *)
Definition isSpace1 (c : ascii) : bool :=
  let n := nat_of_ascii c in ((9 <=? n) && (n <=? 13) || (n =? 32))%nat.

Definition isSpace2 (c1 c2 : ascii) : bool :=
  let n1 := nat_of_ascii c1 in
  let n2 := nat_of_ascii c2 in
  ((n1 =? 194) && ((n2 =? 133) || (n2 =? 160)))%nat.

Definition isSpace3 (c1 c2 c3 : ascii) : bool :=
  let n1 := nat_of_ascii c1 in
  let n2 := nat_of_ascii c2 in
  let n3 := nat_of_ascii c3 in
  ((n1 =? 225) && (n2 =? 154) && (n3 =? 128)
   || (n1 =? 226) && (n2 =? 128)
      && ((128 <=? n3) && (n3 <=? 138) || (n3 =? 168) || (n3 =? 169) || (n3 =? 175))
   || (n1 =? 226) && (n2 =? 129) && (n3 =? 159)
   || (n1 =? 227) && (n2 =? 128) && (n3 =? 128))%nat.

(** One white-space character taken off the front of the bytes, if one
    stands there. With [backwards] the bytes are read last byte first, as
    they are when the end of a string is trimmed. *)
Definition stripSpace (backwards : bool) (l : list ascii) : option (list ascii) :=
  match l with
  | c1 :: l1 =>
      if isSpace1 c1 then Some l1
      else
        match l1 with
        | c2 :: l2 =>
            if (if backwards then isSpace2 c2 c1 else isSpace2 c1 c2) then Some l2
            else
              match l2 with
              | c3 :: l3 =>
                  if (if backwards then isSpace3 c3 c2 c1 else isSpace3 c1 c2 c3)
                  then Some l3 else None
              | [] => None
              end
        | [] => None
        end
  | [] => None
  end.

Fixpoint trimFront (backwards : bool) (l : list ascii) : list ascii :=
  match l with
  | c1 :: l1 =>
      if isSpace1 c1 then trimFront backwards l1
      else
        match l1 with
        | c2 :: l2 =>
            if (if backwards then isSpace2 c2 c1 else isSpace2 c1 c2)
            then trimFront backwards l2
            else
              match l2 with
              | c3 :: l3 =>
                  if (if backwards then isSpace3 c3 c2 c1 else isSpace3 c1 c2 c3)
                  then trimFront backwards l3 else l
              | [] => l
              end
        | [] => l
        end
  | [] => []
  end.

(** strings.TrimSpace *)
Definition TrimSpace (s : string) : string :=
  let front := trimFront false (list_ascii_of_string s) in
  string_of_list_ascii (rev (trimFront true (rev front))).

(** ParseSkipPaths *)
Definition ParseSkipPaths (paths : string) : list string :=
  if String.eqb paths "" then []
  else
    fold_left (fun result p =>
                 let p := TrimSpace p in
                 if negb (String.eqb p "") then result ++ [p] else result)
      (splitComma paths) [].

(** JoinSkipPaths: strings.Join(paths, ",") *)
Definition JoinSkipPaths (paths : list string) : string := String.concat "," paths.

(** ** db_logger.go: the read side and the clean-up *)

(** The LIKE of the store: [%] is any run of characters, [_] is any one
    character, a backslash makes the next character stand for itself. A
    pattern that ends in a lone backslash is refused by the store; QueryLogs
    never sends one, its patterns end in [%]. Characters are bytes here. *)
Fixpoint like (p s : list ascii) {struct p} : bool :=
  match p with
  | [] => match s with [] => true | _ => false end
  | c :: p' =>
      if Ascii.eqb c "%" then
        (fix anySuffix (s : list ascii) : bool :=
           like p' s || match s with [] => false | _ :: s' => anySuffix s' end) s
      else if Ascii.eqb c "_" then
        match s with _ :: s' => like p' s' | [] => false end
      else if Ascii.eqb c "\" then
        match p' with
        | c' :: p'' => match s with x :: s' => Ascii.eqb x c' && like p'' s' | [] => false end
        | [] => false
        end
      else
        match s with x :: s' => Ascii.eqb x c && like p' s' | [] => false end
  end.

Definition LIKE (pattern text : string) : bool :=
  like (list_ascii_of_string pattern) (list_ascii_of_string text).

(** EscapeLike *)
Fixpoint ReplaceAll1 (c : ascii) (by_ : string) (s : string) : string :=
  match s with
  | EmptyString => EmptyString
  | String x s' => if Ascii.eqb x c then by_ +:+ ReplaceAll1 c by_ s' else String x (ReplaceAll1 c by_ s')
  end.

Definition EscapeLike (s : string) : string :=
  let s := ReplaceAll1 "\" "\\" s in
  let s := ReplaceAll1 "%" "\%" s in
  ReplaceAll1 "_" "\_" s.

(** joinStrings *)
Definition joinStrings (strs : list string) (sep : string) : string :=
  match strs with
  | [] => ""
  | first :: rest => fold_left (fun result s => result +:+ (sep +:+ s)) rest first
  end.

(** One condition of a WHERE clause with the argument bound to it. *)
Inductive cond : Type :=
| MethodEq (arg : json)         (* method = $n *)
| PathLike (arg : string)       (* path LIKE $n *)
| StatusCodeEq (arg : json)     (* status_code = $n *)
| CreatedAtGe (arg : json)      (* created_at >= $n *)
| CreatedAtLe (arg : json).     (* created_at <= $n *)

(** [v != ""] and [v != 0] on an interface value: only a string that is
    empty, and only an int that is zero, compare equal. *)
Definition notEmptyString (v : json) : bool :=
  match v with JStr s => negb (String.eqb s "") | _ => true end.

Definition notZero (v : json) : bool :=
  match v with JInt n => negb (n =? 0) | _ => true end.

Definition whenSet (v : option json) (keep : json -> bool) (c : json -> cond) : list cond :=
  match v with
  | Some x => if keep x then [c x] else []
  | None => []
  end.

(** QueryLogs, lines 295-325: the conditions it builds. *)
Definition queryConds (conditions : gmap string json) : list cond :=
  whenSet (conditions !! "method") notEmptyString MethodEq
  ++ match conditions !! "path" with
     | Some (JStr pathStr) =>
         if negb (String.eqb pathStr "") then [PathLike ("%" +:+ pathStr +:+ "%")] else []
     | _ => []
     end
  ++ whenSet (conditions !! "status_code") notZero StatusCodeEq
  ++ whenSet (conditions !! "start_time") notEmptyString CreatedAtGe
  ++ whenSet (conditions !! "end_time") notEmptyString CreatedAtLe.

(** CountLogs, lines 365-383: the conditions it builds. *)
Definition countConds (conditions : gmap string json) : list cond :=
  whenSet (conditions !! "method") notEmptyString MethodEq
  ++ whenSet (conditions !! "start_time") notEmptyString CreatedAtGe
  ++ whenSet (conditions !! "end_time") notEmptyString CreatedAtLe.

(** convertToLocalTime relabels the zone of a time and keeps its wall-clock
    reading, which is what [CreatedAt] holds. *)
Definition convertToLocalTime (t : Z) : Z := t.

Definition microsPerDay : Z := 86400 * 1000000.

Definition isMySQL (st : DB.Store) : bool := String.eqb (DB.driver st) "mysql".

(** The two spellings of the cut-off in DeleteOldLogs. *)
Inductive cutoff : Type :=
| DateSubNow (days : Z)         (* DATE_SUB(NOW(), INTERVAL days DAY) *)
| NowMinusInterval (days : Z).  (* NOW() - INTERVAL 'days days' *)

Definition cutoffTime (st : DB.Store) (c : cutoff) : Z :=
  match c with
  | DateSubNow d | NowMinusInterval d => DB.serverNow st - d * microsPerDay
  end.

Section Queries.
(** How the store reads a timestamp written as text. *)
Variable parseTime : string -> option Z.

(** The store's reading of one condition: the test it makes on a row, or
    [None] when it refuses the argument. The store is modelled for arguments
    of the column's type: text for method and the two times, an int for the
    status code. *)
Definition compile (c : cond) : option (DB.DBLogEntry -> bool) :=
  match c with
  | MethodEq (JStr m) => Some (fun r => String.eqb (DB.Method r) m)
  | PathLike pat => Some (fun r => LIKE pat (DB.Path r))
  | StatusCodeEq (JInt n) => Some (fun r => DB.StatusCode r =? n)
  | CreatedAtGe (JStr t) => (fun t0 => fun r => t0 <=? DB.CreatedAt r) <$> parseTime t
  | CreatedAtLe (JStr t) => (fun t0 => fun r => DB.CreatedAt r <=? t0) <$> parseTime t
  | _ => None
  end.

(** The WHERE clause: the conditions joined by AND; no condition, no clause. *)
Fixpoint compileAll (cs : list cond) : option (DB.DBLogEntry -> bool) :=
  match cs with
  | [] => Some (fun _ => true)
  | c :: cs' =>
      match compile c, compileAll cs' with
      | Some p, Some q => Some (fun r => p r && q r)
      | _, _ => None
      end
  end.

(** ORDER BY created_at DESC. Rows of one creation time keep their order. *)
Fixpoint insertDesc (r : DB.DBLogEntry) (l : list DB.DBLogEntry) : list DB.DBLogEntry :=
  match l with
  | [] => [r]
  | r' :: l' => if DB.CreatedAt r' <? DB.CreatedAt r then r :: l else r' :: insertDesc r l'
  end.

Definition orderByCreatedDesc (l : list DB.DBLogEntry) : list DB.DBLogEntry :=
  foldr insertDesc [] l.

Definition setCreatedAt (t : Z) (r : DB.DBLogEntry) : DB.DBLogEntry :=
  DB.mkRow (DB.ID r) (DB.Method r) (DB.Path r) (DB.ClientIP r) (DB.UserAgent r)
    (DB.StatusCode r) (DB.Duration r) (DB.Timestamp r) (DB.CustomFields r) t.

(** rows.Scan reads custom_fields into a string, which a NULL does not fit. *)
Definition scans (r : DB.DBLogEntry) : bool :=
  match DB.CustomFields r with Some _ => true | None => false end.

(** QueryLogs *)
Definition QueryLogs (st : DB.Store) (offset limit : Z) (conditions : gmap string json)
    : list DB.DBLogEntry * error :=
  match DB.unavailable st with
  | Some err => ([], Some err)
  | None =>
      match compileAll (queryConds conditions) with
      | None => ([], Some "pq: invalid input for a parameter")
      | Some where_ =>
          if limit <? 0 then ([], Some "pq: LIMIT must not be negative")
          else if offset <? 0 then ([], Some "pq: OFFSET must not be negative")
          else
            let found := orderByCreatedDesc (filter (fun r => where_ r = true) (DB.rows st)) in
            let page := take (Z.to_nat limit) (drop (Z.to_nat offset) found) in
            if forallb scans page
            then (map (fun r => setCreatedAt (convertToLocalTime (DB.CreatedAt r)) r) page, None)
            else ([], Some "sql: Scan error on column custom_fields: converting NULL to string")
      end
  end.

(** CountLogs *)
Definition CountLogs (st : DB.Store) (conditions : gmap string json) : Z * error :=
  match DB.unavailable st with
  | Some err => (0, Some err)
  | None =>
      match compileAll (countConds conditions) with
      | None => (0, Some "pq: invalid input for a parameter")
      | Some where_ =>
          (Z.of_nat (length (filter (fun r => where_ r = true) (DB.rows st))), None)
      end
  end.

(** DeleteOldLogs *)
Definition DeleteOldLogs (st : DB.Store) (days : Z) : DB.Store * (Z * error) :=
  let query := if isMySQL st then DateSubNow days else NowMinusInterval days in
  match DB.unavailable st with
  | Some err => (st, (0, Some err))
  | None =>
      let kept := filter (fun r => (DB.CreatedAt r <? cutoffTime st query) = false) (DB.rows st) in
      (DB.setRows kept st, (Z.of_nat (length (DB.rows st)) - Z.of_nat (length kept), None))
  end.

(** handler.go, GetLogs: the conditions it hands to both calls, and the
    total and the page it answers with. [statusCode] is what strconv.Atoi made
    of the query parameter, if it could. [inr] is the 500 answer. *)
Definition getLogsConditions (method : string) (statusCode : option Z)
    (startTime endTime : string) : gmap string json :=
  let sc := default (-1) statusCode in
  let c : gmap string json := ∅ in
  let c := if negb (String.eqb method "") then <[ "method" := JStr method ]> c else c in
  let c := if 0 <? sc then <[ "status_code" := JInt sc ]> c else c in
  let c := if negb (String.eqb startTime "") then <[ "start_time" := JStr startTime ]> c else c in
  if negb (String.eqb endTime "") then <[ "end_time" := JStr endTime ]> c else c.

Definition GetLogs (st : DB.Store) (page pageSize : Z) (method path : string)
    (statusCode : option Z) (startTime endTime : string)
    : (Z * list DB.DBLogEntry) + string :=
  let page := if page <? 1 then 1 else page in
  let pageSize := if (pageSize <? 1) || (100 <? pageSize) then 20 else pageSize in
  let conditions := getLogsConditions method statusCode startTime endTime in
  match CountLogs st conditions with
  | (_, Some err) => inr ("查询总数失败: " +:+ err)
  | (total, None) =>
      let offset := int64 ((page - 1) * pageSize) in
      match QueryLogs st offset pageSize conditions with
      | (_, Some err) => inr ("查询日志失败: " +:+ err)
      | (logs, None) => inl (total, logs)
      end
  end.

End Queries.

(** GetLogByID: the row of that id; no such row is (nil, nil). *)
Definition GetLogByID (st : DB.Store) (id : Z) : option DB.DBLogEntry * error :=
  match DB.unavailable st with
  | Some err => (None, Some err)
  | None =>
      match List.find (fun r => DB.ID r =? id) (DB.rows st) with
      | None => (None, None)
      | Some r =>
          if scans r
          then (Some (setCreatedAt (convertToLocalTime (DB.CreatedAt r)) r), None)
          else (None, Some "sql: Scan error on column custom_fields: converting NULL to string")
      end
  end.

(** ** handler.go: the answers of the log handlers *)

(** What a handler answers: 200 with the data, or a status and a message. *)
Inductive reply (A : Type) : Type :=
| Success (data : A)
| Failure (code : Z) (message : string).
Arguments Success {A} data.
Arguments Failure {A} code message.

(** GetLogDetail. [id] is what strconv.ParseInt made of the path parameter,
    [None] when it failed. *)
Definition GetLogDetail (st : DB.Store) (id : option Z) : reply DB.DBLogEntry :=
  match id with
  | None => Failure 400 "无效的日志ID"
  | Some id =>
      match GetLogByID st id with
      | (_, Some err) => Failure 500 ("查询日志失败: " +:+ err)
      | (None, None) => Failure 404 "日志不存在"
      | (Some log, None) => Success log
      end
  end.

(** DeleteLogs. [days] is what strconv.Atoi made of the query parameter (of
    "7" when there is none), [None] when it failed. *)
Definition DeleteLogs (st : DB.Store) (days : option Z) : DB.Store * reply Z :=
  let days := match days with
              | Some d => if d <? 1 then 7 else d
              | None => 7
              end in
  match DeleteOldLogs st days with
  | (st', (_, Some err)) => (st', Failure 500 ("删除日志失败: " +:+ err))
  | (st', (count, None)) => (st', Success count)
  end.


(** ** config/config.go and admin/server.go: the logger of the admin server *)

Module Database.

Record DatabaseConfig : Type := mkDatabaseConfig {
  Driver : string;
  Host : string;
  Port : Z;
  Username : string;
  Password : string;
  Name : string;
  SSLMode : string;
  MaxOpenConns : Z;
  MaxIdleConns : Z
}.

End Database.

(** config.Load, lines 41-52: the defaults it fills in where the file left
    the zero value. [cfg] is what yaml.Unmarshal read. *)
Definition loadDefaults (cfg : Database.DatabaseConfig) : Database.DatabaseConfig :=
  Database.mkDatabaseConfig
    (if String.eqb (Database.Driver cfg) "" then "postgres" else Database.Driver cfg)
    (Database.Host cfg) (Database.Port cfg) (Database.Username cfg) (Database.Password cfg)
    (Database.Name cfg)
    (if String.eqb (Database.SSLMode cfg) "" then "disable" else Database.SSLMode cfg)
    (if Database.MaxOpenConns cfg =? 0 then 25 else Database.MaxOpenConns cfg)
    (if Database.MaxIdleConns cfg =? 0 then 5 else Database.MaxIdleConns cfg).

(** admin.NewLogger, lines 75-80 (and Start, lines 133-138), once
    config.Load has read [parsed] from the file and sql.Open and Ping have
    given the connection [opened]: the fourth argument of NewDBLogger, its
    bufferSize, is the MaxOpenConns of the file. *)
Definition NewLogger (parsed : Database.DatabaseConfig) (opened : DB.Store) : run DBLogger :=
  let dbConfig := loadDefaults parsed in
  NewDBLogger opened true (Database.MaxOpenConns dbConfig).

(** ** Words for the properties *)

(** A LogEntry as the data model has it: its duration is a finite number and
    so is every number among its custom values. *)
Definition encodableEntry (h : Heap) (e : LogEntry) : bool :=
  PrimFloat.is_finite (Duration e)
  && forallb (fun kv => encodable (snd kv)) (map_to_list (mapOf h (CustomFields e))).

(** The members every record has, in the order of the struct. *)
Definition baseKeys : list string :=
  ["method"; "path"; "client_ip"; "user_agent"; "status_code"; "duration_ms"; "timestamp"].

(** The line Write prints when it drops the entry at [l]. *)
Definition droppedLine (h : Heap) (l : loc) : string :=
  "log buffer full, dropping entry: " +:+ Method (deref h l) +:+ " " +:+ Path (deref h l).

(** The world the rest of the chain is run in by an instrumented request:
    the body was read and put back. *)
Definition chainInput {L : Type} (w : World L) : World L :=
  match reqBody (request w) with
  | Some b => mkWorld (heap w) (setBody (Some b) (request w)) (keys w) (status w) (config w)
                (now w) (logger w) (tasks w)
  | None => w
  end.

Section SinkWords.
Context {D : Type} `{Destination D}.

(** The entry the drain task has taken off the channel and not persisted yet. *)
Definition held (pc : drain_pc) : list ptr :=
  match pc with
  | Holding e | FlushHolding e => [e]
  | _ => []
  end.

Definition buffered (s : Sink D) : list ptr :=
  match bufferCh s with
  | Some ch => buffer ch
  | None => []
  end.

(** The entries the sink has accepted and not persisted yet, oldest first. *)
Definition staged (s : Sink D) : list ptr := held (drain s) ++ buffered s.

(** The non-blocking send of Write goes through: a slot of the buffer is
    free, or the drain task is parked on the channel and takes the entry at
    once. *)
Definition hasRoom (s : Sink D) : bool :=
  match bufferCh s with
  | Some ch =>
      match drain s with
      | Parked => true
      | _ => (length (buffer ch) <? capacity ch)%nat
      end
  | None => false
  end.

(** What holds of a logger from its constructor on: it has its channel, the
    channel is closed only by Close, and the drain task parks only on an
    empty channel. *)
Definition wf (s : Sink D) : Prop :=
  exists ch, bufferCh s = Some ch
    /\ (chClosed ch = true -> closed s = true)
    /\ (drain s = Parked -> buffer ch = [])
    /\ (length (buffer ch) <= capacity ch)%nat.

(** Write after Write, the errors dropped as the middleware drops them. *)
Fixpoint writeAll (h : Heap) (s : Sink D) (es : list ptr) : run (Sink D) :=
  match es with
  | [] => Ret s
  | e :: es' =>
      match Sink.Write h s e with
      | Ret (s', _) => writeAll h s' es'
      | Panics => Panics
      | OutOfFuel => OutOfFuel
      end
  end.

(** The drain goroutine is in its loop, not in flushBuffer and not gone. *)
Definition running (s : Sink D) : Prop :=
  match drain s with
  | AtSelect | Parked | Holding _ => True
  | _ => False
  end.

(** Close has closed the channel and waits for a drain goroutine that is
    still alive. *)
Definition joining (s : Sink D) : Prop :=
  exists ch, bufferCh s = Some ch /\ chClosed ch = true
    /\ Sink.wgZero (drain s) = false /\ drain s <> Crashed.

(** The logger as Close leaves it when it starts to wait for the drain
    goroutine: marked closed, its channel closed. *)
Definition closing (s : Sink D) : Sink D :=
  match bufferCh s with
  | Some ch => Sink.setChan (mkChan (buffer ch) (capacity ch) true) (Sink.setClosed true s)
  | None => Sink.setClosed true s
  end.

(** What happens to a logger between its construction and its Close: a
    request writes an entry, or the scheduler lets the drain task make a
    step. *)
Inductive event : Type :=
| WriteEv (e : ptr)
| DrainEv.

Fixpoint play (h : Heap) (evs : list event) (s : Sink D) : run (Sink D) :=
  match evs with
  | [] => Ret s
  | WriteEv e :: evs' =>
      match Sink.Write h s e with
      | Ret (s', _) => play h evs' s'
      | Panics => Panics
      | OutOfFuel => OutOfFuel
      end
  | DrainEv :: evs' =>
      match Sink.drainStep h s with
      | Some s' => match drain s' with Crashed => Panics | _ => play h evs' s' end
      | None => play h evs' s
      end
  end.

(** The drain task scheduled [n] times. *)
Fixpoint drainSteps (n : nat) (h : Heap) (s : Sink D) : Sink D :=
  match n with
  | O => s
  | S n' => match Sink.drainStep h s with Some s' => drainSteps n' h s' | None => s end
  end.

End SinkWords.

(** The entries a history hands to Write, in order. *)
Definition writes (evs : list event) : list ptr :=
  omap (fun ev => match ev with WriteEv e => Some e | DrainEv => None end) evs.

(** The channel of the logger is closed: Close has run. *)
Definition sealed {D : Type} (s : Sink D) : Prop :=
  exists ch, bufferCh s = Some ch /\ chClosed ch = true.

(** What a FileLogger has on file and what it still holds, in order: the
    lines of the file, then the lines of the entries it has staged. *)
Definition journal (h : Heap) (s : FileLogger) : list json :=
  lines (dest s) ++ omap (marshalEntry h) (staged s).

(** A comma occurs in [s]. *)
Definition hasComma (s : string) : bool :=
  existsb (Ascii.eqb ",") (list_ascii_of_string s).

(** A path the text form of the skip list can carry: not empty, no comma in
    it, no white space around it. *)
Definition cleanPath (p : string) : Prop :=
  p <> "" /\ hasComma p = false /\ TrimSpace p = p.

(** [a] was created no earlier than [b]. *)
Definition newerFirst (a b : DB.DBLogEntry) : Prop := DB.CreatedAt b <= DB.CreatedAt a.

(** The ids of the table are in order: no two rows share one, and the
    sequence is ahead of them all. *)
Definition idsInOrder (st : DB.Store) : Prop :=
  NoDup (map DB.ID (DB.rows st)) /\ Forall (fun r => DB.ID r < DB.nextID st) (DB.rows st).

(** A file that is open and takes every write. *)
Definition healthy (f : File) : Prop :=
  isOpen f = true /\ fault f = None /\ werr f = None.

(** The escape EscapeLike gives one character. *)
Definition escapeChar (c : ascii) : string :=
  if Ascii.eqb c "\" then "\\"
  else if Ascii.eqb c "%" then "\%"
  else if Ascii.eqb c "_" then "\_"
  else String c EmptyString.

(** ** Data for the worked examples *)

(** A stand-in for time.Time.Format in the examples: the layout itself. *)
Definition stamp (layout : string) (t : Z) : string := layout.

Definition getA : LogEntry := NewLogEntry "GET" "/a" "10.0.0.1" "curl" 200 1500000 "t1".
Definition postB : LogEntry := NewLogEntry "POST" "/b" "10.0.0.2" "curl" 404 2500000 "t2".

Definition recordA : json :=
  JObj [("method", JStr "GET"); ("path", JStr "/a"); ("client_ip", JStr "10.0.0.1");
        ("user_agent", JStr "curl"); ("status_code", JInt 200); ("duration_ms", JFloat 1.5%float);
        ("timestamp", JStr "t1")].

Definition recordB : json :=
  JObj [("method", JStr "POST"); ("path", JStr "/b"); ("client_ip", JStr "10.0.0.2");
        ("user_agent", JStr "curl"); ("status_code", JInt 404); ("duration_ms", JFloat 2.5%float);
        ("timestamp", JStr "t2")].

Definition twoEntries : Heap := mkHeap (<[ 1%nat := getA ]> (<[ 2%nat := postB ]> ∅)) ∅.

(** An entry with the custom field user_id, and the heap its map lives in. *)
Definition userEntry : LogEntry :=
  mkLogEntry "GET" "/hello" "10.0.0.1" "curl" 200 0%float "t1" (Some 1%nat).

Definition userHeap : Heap :=
  mkHeap {[ 1%nat := userEntry ]} {[ 1%nat := {[ "user_id" := JStr "12345" ]} ]}.

(** A file that refuses every write. *)
Definition fullDisk : File := mkFile [] true (Some "no space left on device") None.

(** An async FileLogger as its constructor leaves it, with room for two. *)
Definition asyncTwo : FileLogger :=
  mkSink emptyFile (Some (mkChan [] 2 false)) false AtSelect [].

(** The same with both slots taken. *)
Definition asyncTwoFull : FileLogger :=
  mkSink emptyFile (Some (mkChan [Some 1%nat; Some 2%nat] 2 false)) false AtSelect [].

(** A FileLogger built with async = false, both slots taken. *)
Definition syncTwoFull : FileLogger :=
  mkSink emptyFile (Some (mkChan [Some 1%nat; Some 2%nat] 2 false)) false NotStarted [].

(** A request for /hello, served with logging enabled, the skip list of the
    README, no template and synchronous dispatch, into an async FileLogger. *)
Definition helloRequest : Request := mkRequest "GET" "/hello" "10.0.0.1" "curl" None.

Definition helloConfig : Config :=
  Config.mkConfig true ["/health"] None DefaultTimeFormat false 1000.

Definition helloWorld : World FileLogger :=
  mkWorld (mkHeap ∅ ∅) helloRequest ∅ 200 helloConfig 0
    (mkSink emptyFile (Some (mkChan [] 8 false)) false AtSelect []) [].

(** The same with asynchronous dispatch. *)
Definition helloWorldAsync : World FileLogger :=
  mkWorld (mkHeap ∅ ∅) helloRequest ∅ 200
    (Config.mkConfig true ["/health"] None DefaultTimeFormat true 1000) 0
    (mkSink emptyFile (Some (mkChan [] 8 false)) false AtSelect []) [].

(** The handler of the example: it tags the entry of the request. *)
Definition tagUser : World FileLogger -> World FileLogger :=
  SetLogField "user_id" (JStr "12345").

Definition taggedRecord : json :=
  JObj [("method", JStr "GET"); ("path", JStr "/hello"); ("client_ip", JStr "10.0.0.1");
        ("user_agent", JStr "curl"); ("status_code", JInt 200); ("duration_ms", JFloat 0%float);
        ("timestamp", JStr DefaultTimeFormat);
        ("custom_fields", JObj [("user_id", JStr "12345")])].

Definition helloRecord : json :=
  JObj [("method", JStr "GET"); ("path", JStr "/hello"); ("client_ip", JStr "10.0.0.1");
        ("user_agent", JStr "curl"); ("status_code", JInt 200); ("duration_ms", JFloat 0%float);
        ("timestamp", JStr DefaultTimeFormat)].

(** A request whose entry is in the context: the entry of [userHeap]. *)
Definition attachedWorld : World FileLogger :=
  mkWorld userHeap helloRequest {[ logEntryKey := CEntry (Some 1%nat) ]} 200 helloConfig 0
    asyncTwo [].

(** A POST with the body "hi", served with a template of one custom field
    and synchronous dispatch into a FileLogger that was closed. *)
Definition templateWorld : World FileLogger :=
  mkWorld (mkHeap ∅ {[ 7%nat := {[ "service" := JStr "api" ]} ]})
    (mkRequest "POST" "/hello" "10.0.0.1" "curl" (Some ["h"; "i"]%char)) ∅ 200
    (Config.mkConfig true ["/health"] (Some 7%nat) DefaultTimeFormat false 1000) 0
    (mkSink emptyFile (Some (mkChan [] 8 true)) true NotStarted []) [].

(** A handler that reads the request body to its end. *)
Definition readBody (w : World FileLogger) : World FileLogger :=
  setRequest (setBody (Some []) (request w)) w.

(** Store data: a timestamp reader that knows no format, a clock reading,
    and rows by age. *)
Definition noTimes : string -> option Z := fun _ => None.

Definition noon : Z := 20000 * microsPerDay.

Definition rowAged (id : Z) (path : string) (statusCode : Z) (ageDays : Z) : DB.DBLogEntry :=
  DB.mkRow id "GET" path "10.0.0.1" "curl" statusCode 0%float "t" (Some JNull)
    (noon - ageDays * microsPerDay).

Definition storeOf (rs : list DB.DBLogEntry) : DB.Store :=
  DB.mkStore "postgres" rs 100 true None noon noon.

(** Rows aged 10, 8, 6 and 1 days. *)
Definition fourRows : DB.Store :=
  storeOf [rowAged 1 "/a" 200 10; rowAged 2 "/b" 200 8; rowAged 3 "/c" 200 6; rowAged 4 "/d" 200 1].

(** Two rows: one 200 on /ab, one 404 on /a_b. *)
Definition twoRows : DB.Store :=
  storeOf [rowAged 1 "/ab" 200 2; rowAged 2 "/a_b" 404 1].

(** [p] occurs in [s]. *)
Definition contains (p s : list ascii) : Prop := exists a b, s = a ++ p ++ b.

(** The character means nothing to LIKE. *)
Definition plain (c : ascii) : bool :=
  negb (Ascii.eqb c "%") && negb (Ascii.eqb c "_") && negb (Ascii.eqb c "\").

(** ** Proof steps that recur *)

(** Closes the side goals of the [wf] lemmas. *)
Ltac wf_finish :=
  simpl in *; repeat split; intros; simpl in *;
  repeat match goal with
         | Hp : drain ?s = Parked -> _, Hd : drain ?s = Parked |- _ => specialize (Hp Hd)
         | E : buffer ?c = _ |- context [buffer ?c] => rewrite E
         end;
  simpl; try done; try congruence; try lia; auto.

(** * Properties *)

(** ** The record encoding *)

Lemma size_zero_empty (m : gmap string json) : size m = 0%nat <-> m = ∅.
Proof. apply map_size_empty_iff. Qed.

Lemma forallb_insertKey (P : string * json -> bool) (kv : string * json)
    (l : list (string * json)) :
  forallb P (insertKey kv l) = P kv && forallb P l.
Proof.
  induction l as [|kv' l IH]; simpl; [reflexivity|].
  destruct (String.leb (fst kv) (fst kv')); simpl; [reflexivity|].
  rewrite IH. by destruct (P kv), (P kv').
Qed.

Lemma forallb_sortKeys (P : string * json -> bool) (l : list (string * json)) :
  forallb P (sortKeys l) = forallb P l.
Proof.
  induction l as [|kv l IH]; simpl; [reflexivity|].
  by rewrite forallb_insertKey, IH.
Qed.

Lemma marshalMap_spec (m : gmap string json) :
  marshalMap m =
    if forallb (fun kv => encodable (snd kv)) (map_to_list m)
    then Some (JObj (sortKeys (map_to_list m))) else None.
Proof.
  unfold marshalMap. cbn [encodable]. by rewrite forallb_sortKeys.
Qed.

Lemma customFieldsMember_spec (h : Heap) (e : LogEntry) :
  let m := mapOf h (CustomFields e) in
  customFieldsMember h e =
    if decide (m = ∅) then Some []
    else if forallb (fun kv => encodable (snd kv)) (map_to_list m)
         then Some [("custom_fields", JObj (sortKeys (map_to_list m)))]
         else None.
Proof.
  intros m. subst m. unfold customFieldsMember.
  destruct (CustomFields e) as [m|] eqn:E; simpl.
  - destruct (decide (size _ = 0%nat)) as [Hs|Hs];
      destruct (decide (_ = ∅)) as [He|He]; try reflexivity.
    + exfalso. apply He. by apply size_zero_empty.
    + exfalso. apply Hs. by apply size_zero_empty.
    + rewrite marshalMap_spec. by destruct (forallb _ _).
  - destruct (decide (_ = ∅)) as [He|He]; [reflexivity | by destruct He].
Qed.

Lemma sortKeys_singleton (k : string) (v : json) :
  sortKeys (map_to_list ({[ k := v ]} : gmap string json)) = [(k, v)].
Proof. by rewrite map_to_list_singleton. Qed.

(** An entry outside the data model has no encoding: json.Marshal fails. *)
Lemma MarshalJSON_refuses (h : Heap) (e : LogEntry) :
  encodableEntry h e = false -> MarshalJSON h e = None.
Proof.
  unfold encodableEntry, MarshalJSON. rewrite customFieldsMember_spec.
  destruct (PrimFloat.is_finite (Duration e)); [|reflexivity]. simpl.
  intros Hv. rewrite Hv.
  destruct (decide (mapOf h (CustomFields e) = ∅)) as [He|He]; [|reflexivity].
  rewrite He, map_to_list_empty in Hv. discriminate.
Qed.

(** C8. For every LogEntry of the data model (a finite duration, custom
    values that are JSON values), MarshalJSON gives one JSON object whose
    members are, in this order, method, path, client_ip, user_agent,
    status_code, duration_ms and timestamp, each holding the entry's field,
    followed by custom_fields holding the map; custom_fields is left out
    exactly when the entry has no custom field (a nil map or a map with no
    key). *)
Theorem MarshalJSON_members (h : Heap) (e : LogEntry) :
  encodableEntry h e = true ->
  let m := mapOf h (CustomFields e) in
  exists j,
    MarshalJSON h e = Some j
    /\ (exists fs, j = JObj fs)
    /\ keysOf j = baseKeys ++ (if decide (m = ∅) then [] else ["custom_fields"])
    /\ member "method" j = Some (JStr (Method e))
    /\ member "path" j = Some (JStr (Path e))
    /\ member "client_ip" j = Some (JStr (ClientIP e))
    /\ member "user_agent" j = Some (JStr (UserAgent e))
    /\ member "status_code" j = Some (JInt (StatusCode e))
    /\ member "duration_ms" j = Some (JFloat (Duration e))
    /\ member "timestamp" j = Some (JStr (Timestamp e))
    /\ member "custom_fields" j =
         (if decide (m = ∅) then None else Some (JObj (sortKeys (map_to_list m)))).
Proof.
  intros Hen m. subst m. apply andb_true_iff in Hen as [Hd Hv].
  unfold MarshalJSON. rewrite Hd, customFieldsMember_spec. simpl. rewrite Hv.
  destruct (decide (mapOf h (CustomFields e) = ∅)); simpl;
    eexists; (split; [reflexivity|]); (split; [eexists; reflexivity|]);
    repeat split; reflexivity.
Qed.

Lemma MarshalJSON_members_witness :
  encodableEntry userHeap userEntry = true
  /\ exists j,
       MarshalJSON userHeap userEntry = Some j
       /\ member "status_code" j = Some (JInt 200)
       /\ member "duration_ms" j = Some (JFloat 0%float).
Proof.
  split; [reflexivity|].
  destruct (MarshalJSON_members userHeap userEntry eq_refl)
    as (j & Hj & _ & _ & _ & _ & _ & _ & Hs & Hd & _).
  exists j. split; [exact Hj|]. split; [exact Hs | exact Hd].
Defined.

(** The round trip of the specification: custom fields {"user_id":"12345"}
    and status 200. *)
Example MarshalJSON_user_id (h : Heap) (e : LogEntry) (m : loc) :
  PrimFloat.is_finite (Duration e) = true ->
  CustomFields e = Some m ->
  cmaps h !! m = Some {[ "user_id" := JStr "12345" ]} ->
  StatusCode e = 200 ->
  exists j, MarshalJSON h e = Some j
    /\ member "status_code" j = Some (JInt 200)
    /\ member "custom_fields" j = Some (JObj [("user_id", JStr "12345")]).
Proof.
  intros Hd Hc Hm Hs. unfold MarshalJSON. rewrite Hd, customFieldsMember_spec.
  rewrite Hc. simpl mapOf. rewrite Hm. simpl.
  destruct (decide (_ = ∅)) as [He|He].
  - exfalso. by apply (map_non_empty_singleton (M := gmap string) "user_id" (JStr "12345")).
  - rewrite sortKeys_singleton, map_to_list_singleton. simpl.
    eexists. split; [reflexivity|]. rewrite Hs. split; reflexivity.
Qed.

Example MarshalJSON_no_custom_fields (h : Heap) (e : LogEntry) :
  PrimFloat.is_finite (Duration e) = true ->
  CustomFields e = None ->
  exists j, MarshalJSON h e = Some j
    /\ member "custom_fields" j = None
    /\ keysOf j = baseKeys.
Proof.
  intros Hd Hc. unfold MarshalJSON. rewrite Hd, customFieldsMember_spec, Hc. simpl.
  destruct (decide (_ = ∅)) as [He|He]; [|by destruct He].
  eexists. split; [reflexivity|]. split; reflexivity.
Qed.

(** ** The configuration the middleware keeps *)

Section ConfigProperties.
Context {L : Type} `{Logger L}.
Variable formatTime : string -> Z -> string.

Lemma normalize_TimeFormat (cfg : option Config) :
  Config.TimeFormat (normalize cfg) <> "".
Proof.
  unfold normalize.
  set (c := match cfg with Some c => c | None => DefaultConfig end).
  destruct (String.eqb (Config.TimeFormat c) "") eqn:E;
    destruct (Config.BufferSize _ <=? 0); simpl; try discriminate;
    intros Habs; rewrite Habs in E; discriminate.
Qed.

Lemma normalize_some (c : Config) :
  normalize (Some c) =
    Config.mkConfig (Config.Enabled c) (Config.SkipPaths c) (Config.CustomFields c)
      (if String.eqb (Config.TimeFormat c) "" then DefaultTimeFormat else Config.TimeFormat c)
      (Config.Async c)
      (if Config.BufferSize c <=? 0 then 1000 else Config.BufferSize c).
Proof.
  unfold normalize.
  destruct (String.eqb (Config.TimeFormat c) ""); simpl;
    destruct (Config.BufferSize c <=? 0); destruct c; reflexivity.
Qed.

Lemma applyAdmin_TimeFormat (op : adminOp) (c : Config) :
  Config.TimeFormat c <> "" -> Config.TimeFormat (applyAdmin op c) <> "".
Proof. destruct op; simpl; [tauto | discriminate]. Qed.

(** C10. RequestLoggerWithConfig normalizes the configuration it is given: a
    nil pointer stands for the default configuration, an empty TimeFormat
    becomes the default time format, a BufferSize of zero or less becomes
    1000, and nothing else changes; so the configuration the returned
    middleware reads has a time format that is not empty and a positive
    buffer size, and the time format stays non-empty under every update and
    reset the admin handlers apply to the shared object. *)
Theorem RequestLoggerWithConfig_normalizes (cfg : option Config) :
  let kept := fst (RequestLoggerWithConfig formatTime cfg) in
  let given := default DefaultConfig cfg in
  (cfg = None -> kept = DefaultConfig)
  /\ Config.TimeFormat kept =
       (if decide (Config.TimeFormat given = "") then "2006-01-02T15:04:05.000Z07:00"
        else Config.TimeFormat given)
  /\ Config.BufferSize kept =
       (if decide (Config.BufferSize given <= 0) then 1000 else Config.BufferSize given)
  /\ Config.Enabled kept = Config.Enabled given
  /\ Config.SkipPaths kept = Config.SkipPaths given
  /\ Config.CustomFields kept = Config.CustomFields given
  /\ Config.Async kept = Config.Async given
  /\ Config.TimeFormat kept <> ""
  /\ 0 < Config.BufferSize kept
  /\ (forall ops : list adminOp, Config.TimeFormat (foldr applyAdmin kept ops) <> "").
Proof.
  intros kept given. subst kept given. simpl fst.
  assert (Hn : forall ops : list adminOp,
             Config.TimeFormat (foldr applyAdmin (normalize cfg) ops) <> "").
  { induction ops as [|op ops IH]; simpl.
    - apply normalize_TimeFormat.
    - by apply applyAdmin_TimeFormat. }
  split; [intros ->; reflexivity|].
  destruct cfg as [c|]; simpl default.
  - rewrite normalize_some in *. simpl.
    destruct (String.eqb_spec (Config.TimeFormat c) "") as [E|E];
      destruct (decide (Config.TimeFormat c = "")) as [E'|E']; try contradiction;
      destruct (Z.leb_spec (Config.BufferSize c) 0) as [B|B];
      destruct (decide (Config.BufferSize c <= 0)) as [B'|B']; try lia;
      repeat split; try reflexivity; try discriminate; try lia; try assumption.
  - repeat split; try discriminate; try lia. apply Hn.
Qed.

End ConfigProperties.

(** ** Which requests the middleware instruments *)

Section MiddlewareProperties.
Context {L : Type} `{Logger L}.
Variable formatTime : string -> Z -> string.

Lemma existsb_eqb_elem_of (path : string) (skip : list string) :
  existsb (String.eqb path) skip = true <-> path ∈ skip.
Proof.
  rewrite existsb_exists, list_elem_of_In. split.
  - intros [x [Hin Heq]]. apply String.eqb_eq in Heq. by subst.
  - intros Hin. exists path. split; [done | apply String.eqb_refl].
Qed.

Lemma skip_test (path : string) (skip : list string) :
  (0 <? length skip)%nat && existsb (String.eqb path) skip = bool_decide (path ∈ skip).
Proof.
  assert (Hg : (0 <? length skip)%nat && existsb (String.eqb path) skip
               = existsb (String.eqb path) skip) by (by destruct skip).
  rewrite Hg. clear Hg.
  case_bool_decide as Hin.
  - by apply existsb_eqb_elem_of.
  - destruct (existsb _ _) eqn:E; [|reflexivity].
    exfalso. apply Hin. by apply existsb_eqb_elem_of.
Qed.

Lemma handle_branch (next : World L -> World L) (w : World L) :
  isInstrumented (fst (handle formatTime next w)) =
    Config.Enabled (config w)
    && negb (bool_decide (reqPath (request w) ∈ Config.SkipPaths (config w))).
Proof.
  unfold handle. rewrite skip_test.
  destruct (Config.Enabled (config w)); simpl; [|reflexivity].
  destruct (bool_decide _); simpl; [reflexivity|].
  by destruct (instrument _ _ _ _ _).
Qed.

Lemma handle_skipped (next : World L -> World L) (w : World L) :
  isInstrumented (fst (handle formatTime next w)) = false ->
  snd (handle formatTime next w) = Ret (next w).
Proof.
  unfold handle.
  destruct (negb (Config.Enabled (config w))); [reflexivity|].
  destruct (_ && _); [reflexivity|].
  destruct (instrument _ _ _ _ _). simpl. discriminate.
Qed.

Lemma serve_disabled (reqs : list (Request * (World L -> World L))) (w : World L) :
  Config.Enabled (config w) = false ->
  Forall (fun rn => forall w', config (snd rn w') = config w') reqs ->
  fst (serve formatTime reqs w) = map (fun _ => DisabledSkip) reqs.
Proof.
  revert w. induction reqs as [|[r next] reqs IH]; intros w Hoff Hkeep; [reflexivity|].
  inversion Hkeep as [|? ? Hnext Hrest]; subst. simpl in Hnext.
  simpl. unfold handle. simpl. rewrite Hoff. simpl.
  specialize (IH (next (setStatus 200 (setKeys ∅ (setRequest r w))))).
  destruct (serve formatTime reqs _) as [bs out] eqn:E. simpl in *.
  f_equal. apply IH; [|assumption]. by rewrite Hnext.
Qed.

Lemma fresh_entry (h : Heap) : entries h !! fresh (dom (entries h)) = None.
Proof. apply not_elem_of_dom, is_fresh. Qed.

Lemma fresh_map (h : Heap) : cmaps h !! fresh (dom (cmaps h)) = None.
Proof. apply not_elem_of_dom, is_fresh. Qed.

(** The entry an instrumented request builds: a new object holding the facts
    of the request as the chain left them, with a new map holding a copy of
    the template when there is one, and the context key pointing at it. *)
Lemma instrument_entry (customFields : option loc) (timeFormat : string)
    (next : World L -> World L) (w : World L) :
  let after := next (chainInput w) in
  let w1 := fst (instrument formatTime customFields timeFormat next w) in
  let l := snd (instrument formatTime customFields timeFormat next w) in
  let e := deref (heap w1) l in
  entries (heap after) !! l = None
  /\ keys w1 !! logEntryKey = Some (CEntry (Some l))
  /\ Method e = reqMethod (request after)
  /\ Path e = reqPath (request after)
  /\ ClientIP e = reqClientIP (request after)
  /\ UserAgent e = reqUserAgent (request after)
  /\ StatusCode e = status after
  /\ Timestamp e = formatTime timeFormat (now after)
  /\ mapOf (heap w1) (CustomFields e) = mapOf (heap after) customFields
  /\ match customFields with
     | None => CustomFields e = None
     | Some _ => exists m, CustomFields e = Some m /\ cmaps (heap after) !! m = None
     end.
Proof.
  unfold instrument, chainInput.
  set (w0 := match reqBody (request w) with
             | Some _ => setRequest (setBody (Some (default [] (reqBody (request w)))) (request w)) w
             | None => w
             end).
  assert (Hw0 : w0 = match reqBody (request w) with
                     | Some b => mkWorld (heap w) (setBody (Some b) (request w)) (keys w)
                                   (status w) (config w) (now w) (logger w) (tasks w)
                     | None => w
                     end) by (subst w0; by destruct (reqBody (request w))).
  rewrite <- Hw0. clear Hw0. generalize (next w0). intros after.
  destruct (0 <? length (default [] (reqBody (request w))))%nat;
    destruct customFields as [t|]; simpl; unfold deref, allocEntry, allocMap; simpl;
    rewrite ?lookup_insert_eq; simpl; rewrite ?lookup_insert_eq; simpl;
    repeat split; try apply fresh_entry; try reflexivity;
    eexists; (split; [reflexivity | apply fresh_map]).
Qed.

Lemma handle_instrumented (next : World L -> World L) (w : World L) (l : loc) :
  fst (handle formatTime next w) = Instrumented l ->
  let after := next (chainInput w) in
  exists w1,
    snd (handle formatTime next w) = dispatch (Config.Async (config w)) l w1
    /\ entries (heap after) !! l = None
    /\ keys w1 !! logEntryKey = Some (CEntry (Some l))
    /\ Method (deref (heap w1) l) = reqMethod (request after)
    /\ Path (deref (heap w1) l) = reqPath (request after)
    /\ StatusCode (deref (heap w1) l) = status after.
Proof.
  unfold handle.
  destruct (negb (Config.Enabled (config w))); [discriminate|].
  destruct (_ && _); [discriminate|].
  pose proof (instrument_entry (Config.CustomFields (config w)) (Config.TimeFormat (config w))
                next w) as Hi.
  destruct (instrument _ _ _ _ _) as [w1 l1]. simpl in *. intros [= ->].
  exists w1. destruct Hi as (? & ? & ? & ? & ? & ? & ? & _). by repeat split.
Qed.

(** C7. The middleware builds an entry for a request exactly when the
    snapshot has the enabled flag set and the request path equals no entry of
    the skip list; the entry is then a new object with the method, path and
    status of the request, put in the context and dispatched. Otherwise the
    middleware does nothing but run the rest of the chain. A disabled
    configuration, left alone by the handlers, yields no entry however many
    requests are served. *)
Theorem handle_instruments_iff (next : World L -> World L) (w : World L) :
  (isInstrumented (fst (handle formatTime next w)) = true <->
     Config.Enabled (config w) = true
     /\ reqPath (request w) ∉ Config.SkipPaths (config w))
  /\ (isInstrumented (fst (handle formatTime next w)) = false ->
        snd (handle formatTime next w) = Ret (next w))
  /\ (forall l, fst (handle formatTime next w) = Instrumented l ->
        exists w1,
          snd (handle formatTime next w) = dispatch (Config.Async (config w)) l w1
          /\ entries (heap (next (chainInput w))) !! l = None
          /\ keys w1 !! logEntryKey = Some (CEntry (Some l))
          /\ Method (deref (heap w1) l) = reqMethod (request (next (chainInput w)))
          /\ Path (deref (heap w1) l) = reqPath (request (next (chainInput w)))
          /\ StatusCode (deref (heap w1) l) = status (next (chainInput w)))
  /\ (forall reqs : list (Request * (World L -> World L)),
        Config.Enabled (config w) = false ->
        Forall (fun rn => forall w', config (snd rn w') = config w') reqs ->
        Forall (fun b => isInstrumented b = false) (fst (serve formatTime reqs w))).
Proof.
  split; [|split; [|split]].
  - rewrite handle_branch, andb_true_iff, negb_true_iff, bool_decide_eq_false. tauto.
  - apply handle_skipped.
  - intros l Hl. by apply handle_instrumented.
  - intros reqs Hoff Hkeep. rewrite (serve_disabled reqs w Hoff Hkeep).
    apply Forall_forall. intros b Hb.
    apply list_elem_of_In, in_map_iff in Hb as [? [<- _]]. reflexivity.
Qed.

End MiddlewareProperties.

(** ** The sinks *)

Section SinkProperties.
Context {D : Type} `{Destination D}.

Lemma New_nat (d : D) (async : bool) (n : nat) :
  Sink.New d async (Z.of_nat n) =
    Ret (mkSink d (Some (mkChan [] n false)) false (if async then AtSelect else NotStarted) []).
Proof.
  unfold Sink.New.
  destruct (Z.ltb_spec (Z.of_nat n) 0) as [Hn|Hn]; [lia|].
  rewrite Nat2Z.id. by destruct async.
Qed.

Lemma New_wf (d : D) (async : bool) (n : Z) (s : Sink D) :
  Sink.New d async n = Ret s -> wf s /\ closed s = false /\ dest s = d.
Proof.
  unfold Sink.New. destruct (n <? 0); [discriminate|].
  intros [= <-]. split; [|by destruct async].
  exists (mkChan [] (Z.to_nat n) false).
  destruct async; wf_finish.
Qed.

Lemma Write_wf (h : Heap) (s s' : Sink D) (e : ptr) (err : error) :
  wf s -> Sink.Write h s e = Ret (s', err) -> wf s'.
Proof.
  intros (ch & Hch & Hcl & Hpk & Hlen). unfold Sink.Write. rewrite Hch.
  destruct (closed s) eqn:Ec; [intros [= <- <-]; by exists ch|].
  destruct (chClosed ch) eqn:Ecc; [discriminate|].
  destruct (drain s) eqn:Ed;
    try (destruct (Nat.ltb_spec (length (buffer ch)) (capacity ch));
         [ intros [= <- <-]; eexists; split; [reflexivity|]; simpl; rewrite Ed;
           rewrite ?length_app; wf_finish
         | destruct e; [|discriminate]; intros [= <- <-]; exists ch; simpl; rewrite Ed;
           wf_finish ]).
  intros [= <- <-]. exists ch. wf_finish.
Qed.

Lemma persistLogged_frame (diag : string) (h : Heap) (e : ptr) (s s' : Sink D) :
  Sink.persistLogged diag h e s = Some s' ->
  bufferCh s' = bufferCh s /\ closed s' = closed s /\ drain s' = drain s.
Proof.
  unfold Sink.persistLogged.
  destruct (persist h e (dest s)) as [[d [err|]]|]; intros [= <-]; done.
Qed.

Lemma drainStep_wf (h : Heap) (s s' : Sink D) :
  wf s -> Sink.drainStep h s = Some s' -> wf s'.
Proof.
  intros (ch & Hch & Hcl & Hpk & Hlen). unfold Sink.drainStep. rewrite Hch.
  destruct (drain s) eqn:Ed; try discriminate.
  - destruct (buffer ch) as [|e rest] eqn:Eb.
    + intros [= <-]. exists ch. destruct (chClosed ch) eqn:Ecc; wf_finish.
    + intros [= <-]. eexists. split; [reflexivity|]. wf_finish.
  - destruct (chClosed ch) eqn:Ecc; [|discriminate].
    intros [= <-]. exists ch. wf_finish.
  - destruct (Sink.persistLogged _ h e s) as [s1|] eqn:Ep; intros [= <-].
    + apply persistLogged_frame in Ep as (Hb & Hc & _).
      exists ch. simpl. rewrite Hb, Hc. wf_finish.
    + exists ch. wf_finish.
  - destruct (buffer ch) as [|e rest] eqn:Eb.
    + intros [= <-]. exists ch. destruct (chClosed ch) eqn:Ecc; wf_finish.
    + intros [= <-]. eexists. split; [reflexivity|]. wf_finish.
  - destruct (Sink.persistLogged _ h e s) as [s1|] eqn:Ep; intros [= <-].
    + apply persistLogged_frame in Ep as (Hb & Hc & _).
      exists ch. simpl. rewrite Hb, Hc. wf_finish.
    + exists ch. wf_finish.
Qed.

Lemma drainStep_closed (h : Heap) (s s' : Sink D) :
  Sink.drainStep h s = Some s' -> closed s' = closed s.
Proof.
  unfold Sink.drainStep.
  destruct (drain s) eqn:Ed; destruct (bufferCh s) as [ch|] eqn:Ech; try discriminate;
    try (destruct (buffer ch); intros [= <-]; reflexivity);
    try (destruct (chClosed ch); [intros [= <-]; reflexivity | discriminate]);
    (destruct (Sink.persistLogged _ h e s) as [s1|] eqn:Ep; intros [= <-]; simpl;
     [by apply persistLogged_frame in Ep as (_ & -> & _) | reflexivity]).
Qed.

Lemma wgWait_wf (h : Heap) (fuel : nat) :
  forall s s' : Sink D,
    wf s -> Sink.wgWait fuel h s = Ret s' -> wf s' /\ closed s' = closed s.
Proof.
  induction fuel as [|fuel IH]; intros s s' Hwf; simpl.
  - destruct (Sink.wgZero (drain s)); [by intros [= <-] | discriminate].
  - destruct (Sink.wgZero (drain s)); [by intros [= <-]|].
    destruct (Sink.drainStep h s) as [s1|] eqn:Es; [|discriminate].
    pose proof (drainStep_wf h s s1 Hwf Es) as Hwf1.
    rewrite <- (drainStep_closed h s s1 Es).
    destruct (drain s1) eqn:Ed1; try discriminate; by apply IH.
Qed.

Lemma Close_wf (h : Heap) (fuel : nat) (s s' : Sink D) (err : error) :
  wf s -> Sink.Close fuel h s = Ret (s', err) -> wf s' /\ closed s' = true.
Proof.
  intros Hwf. pose proof Hwf as (ch & Hch & Hcl & Hpk & Hlen). unfold Sink.Close.
  destruct (closed s) eqn:Ec; [by intros [= <- <-]|].
  simpl. rewrite Hch.
  destruct (chClosed ch) eqn:Ecc; [discriminate|].
  destruct (Sink.wgWait fuel h _) as [s2| |] eqn:Ew; try discriminate.
  destruct (release (dest s2)) as [d e]. intros [= <- <-].
  apply wgWait_wf in Ew as [(ch2 & Hch2 & Hcl2 & Hpk2 & Hlen2) Hc2].
  - simpl in Hc2. split; [|exact Hc2]. exists ch2. wf_finish.
  - eexists. split; [reflexivity|]. wf_finish.
Qed.

Lemma tryReceive_wf (s s1 : Sink D) (e : ptr) :
  wf s -> Sink.tryReceive s = Some (e, s1) -> wf s1.
Proof.
  intros (ch & Hch & Hcl & Hpk & Hlen). unfold Sink.tryReceive. rewrite Hch.
  destruct (buffer ch) as [|e' rest] eqn:Eb.
  - destruct (chClosed ch); [|discriminate]. intros [= <- <-]. exists ch. wf_finish.
  - intros [= <- <-]. eexists. split; [reflexivity|]. wf_finish.
Qed.

Lemma flushBuffer_wf (h : Heap) (fuel : nat) :
  forall s s' : Sink D, wf s -> Sink.flushBuffer fuel h s = Ret s' -> wf s'.
Proof.
  induction fuel as [|fuel IH]; intros s s' Hwf; simpl;
    destruct (Sink.tryReceive s) as [[e s1]|] eqn:Er; try discriminate;
    try (by intros [= <-]).
  pose proof (tryReceive_wf s s1 e Hwf Er) as (ch & Hch & Hcl & Hpk & Hlen).
  destruct (Sink.persistLogged _ h e s1) as [s2|] eqn:Ep; [|discriminate].
  apply IH. apply persistLogged_frame in Ep as (Hb & Hc & Hd).
  exists ch. rewrite Hb, Hc, Hd. wf_finish.
Qed.

Lemma Flush_wf (h : Heap) (fuel : nat) (s s' : Sink D) :
  wf s -> Sink.Flush fuel h s = Ret s' -> wf s'.
Proof.
  intros Hwf. unfold Sink.Flush. destruct (bufferCh s); [by apply flushBuffer_wf|].
  by intros [= <-].
Qed.

(** With a buffer of at least one slot, the send goes through exactly when a
    slot is free: a parked drain task means an empty buffer. *)
Lemma hasRoom_buffered (s : Sink D) (ch : Chan) :
  wf s -> bufferCh s = Some ch -> (0 < capacity ch)%nat ->
  hasRoom s = (length (buffer ch) <? capacity ch)%nat.
Proof.
  intros (ch' & Hch & _ & Hpk & _) Hch2 Hcap. rewrite Hch in Hch2. injection Hch2 as ->.
  unfold hasRoom. rewrite Hch. destruct (drain s) eqn:Ed; try reflexivity.
  rewrite (Hpk eq_refl). simpl. symmetry. by apply Nat.ltb_lt.
Qed.

(** C3. On a logger that has its channel (every logger its constructor
    built), Write of an entry has exactly three outcomes. Closed: the error
    "logger is closed", and the logger is as it was. Open and the send can go
    through: nil, the entry is staged last, nothing is printed. Open and the
    send cannot go through: nil, the entry is staged nowhere, and one line is
    printed. The destination is not touched in any of them. *)
Theorem Write_three_outcomes (h : Heap) (s : Sink D) (l : loc) :
  wf s ->
  exists s' err, Sink.Write h s (Some l) = Ret (s', err) /\
    if closed s then
      err = Some "logger is closed" /\ s' = s
    else if hasRoom s then
      err = None /\ staged s' = (staged s ++ [Some l])%list /\ stderr s' = stderr s
      /\ dest s' = dest s /\ closed s' = false
    else
      err = None /\ staged s' = staged s /\ dest s' = dest s /\ closed s' = false
      /\ stderr s' = (stderr s ++ ["log buffer full, dropping entry: "
                                    +:+ Method (deref h l) +:+ " " +:+ Path (deref h l)])%list.
Proof.
  intros (ch & Hch & Hcl & Hpk & Hlen).
  unfold Sink.Write, hasRoom, staged, buffered. rewrite Hch.
  destruct (closed s) eqn:Ec; [by eauto|].
  destruct (chClosed ch) eqn:Ecc; [by specialize (Hcl eq_refl)|].
  destruct (drain s) eqn:Ed;
    try (destruct (Nat.ltb_spec (length (buffer ch)) (capacity ch));
         eexists _, _; (split; [reflexivity|]); simpl; rewrite ?Ed, ?Hch; simpl;
         repeat split; try reflexivity; try assumption; by rewrite ?app_assoc).
  pose proof (Hpk eq_refl) as Hb.
  eexists _, _. split; [reflexivity|]. simpl. rewrite Hch, Hb. by repeat split.
Qed.

Lemma Write_unstarted (h : Heap) (d : D) (buf : list ptr) (cap : nat) (errs : list string)
    (l : loc) :
  Sink.Write h (mkSink d (Some (mkChan buf cap false)) false NotStarted errs) (Some l) =
    Ret (if (length buf <? cap)%nat
         then mkSink d (Some (mkChan (buf ++ [Some l]) cap false)) false NotStarted errs
         else mkSink d (Some (mkChan buf cap false)) false NotStarted (errs ++ [droppedLine h l]),
         None).
Proof. unfold Sink.Write. simpl. by destruct (length buf <? cap)%nat. Qed.

Lemma writeAll_unstarted (h : Heap) (d : D) (cap : nat) (es : list loc) :
  forall (buf : list ptr) (errs : list string),
    (length buf <= cap)%nat ->
    exists errs',
      writeAll h (mkSink d (Some (mkChan buf cap false)) false NotStarted errs) (map Some es) =
        Ret (mkSink d (Some (mkChan (take cap (buf ++ map Some es)) cap false)) false NotStarted errs').
Proof.
  induction es as [|l es IH]; intros buf errs Hlen.
  - exists errs. simpl. rewrite app_nil_r, take_ge by lia. reflexivity.
  - cbn [map writeAll]. rewrite Write_unstarted.
    destruct (Nat.ltb_spec (length buf) cap) as [Hlt|Hge].
    + destruct (IH (buf ++ [Some l]) errs) as [errs' ->]; [rewrite length_app; simpl; lia|].
      exists errs'. by rewrite <- app_assoc.
    + destruct (IH buf (errs ++ [droppedLine h l]) Hlen) as [errs' ->].
      exists errs'. by rewrite !take_app_le by lia.
Qed.

(** C1, as the code has it. A logger built with async = false still gets its
    channel, so its Write takes the channel branch: the entry is put in the
    buffer (or dropped, when the buffer has no slot), nil is returned, and the
    destination is left as it was. Nothing is written inline. *)
Theorem sync_Write_only_stages (d : D) (n : nat) (h : Heap) (l : loc) :
  exists s s',
    Sink.New d false (Z.of_nat n) = Ret s
    /\ Sink.Write h s (Some l) = Ret (s', None)
    /\ dest s' = d
    /\ drain s' = NotStarted
    /\ staged s' = (if (0 <? n)%nat then [Some l] else []).
Proof.
  eexists _, _. rewrite New_nat, Write_unstarted. split; [reflexivity|]. simpl.
  split; [reflexivity|]. destruct n; simpl; by repeat split.
Qed.

(** C2, as the code has it. On a logger built with async = false, the
    entries Write accepted stay in the buffer: Close finds no drain goroutine
    to wait for, releases the handle and returns, with the destination
    holding none of them. *)
Theorem sync_Close_drops_staged (d : D) (n : nat) (h : Heap) (es : list loc) (fuel : nat) :
  exists s s1 s2,
    Sink.New d false (Z.of_nat n) = Ret s
    /\ writeAll h s (map Some es) = Ret s1
    /\ staged s1 = take n (map Some es)
    /\ dest s1 = d
    /\ Sink.Close fuel h s1 = Ret (s2, snd (release d))
    /\ dest s2 = fst (release d)
    /\ staged s2 = take n (map Some es)
    /\ closed s2 = true.
Proof.
  rewrite New_nat.
  destruct (writeAll_unstarted h d n es [] []) as [errs' Hw]; [simpl; lia|].
  simpl in Hw.
  exists (mkSink d (Some (mkChan [] n false)) false NotStarted []),
         (mkSink d (Some (mkChan (take n (map Some es)) n false)) false NotStarted errs'),
         (mkSink (fst (release d)) (Some (mkChan (take n (map Some es)) n true)) true
            NotStarted errs').
  split; [reflexivity|]. split; [exact Hw|].
  unfold Sink.Close, staged, buffered. simpl.
  assert (Hwait : forall s0 : Sink D, drain s0 = NotStarted -> Sink.wgWait fuel h s0 = Ret s0).
  { intros s0 Hs0. destruct fuel; simpl; by rewrite Hs0. }
  rewrite Hwait by reflexivity. simpl.
  destruct (release d) as [d' e'] eqn:Er. simpl. repeat split; reflexivity.
Qed.

Lemma drainStep_joining (h : Heap) (s : Sink D) :
  joining s ->
  exists s', Sink.drainStep h s = Some s' /\ (drain s' = Crashed \/ joining s').
Proof.
  intros (ch & Hch & Hcc & Hwg & Hcr). unfold Sink.drainStep. rewrite Hch.
  destruct (drain s) eqn:Ed; try discriminate; try congruence.
  - destruct (buffer ch) as [|e rest].
    + rewrite Hcc. eexists. split; [reflexivity|]. right. exists ch. wf_finish.
    + eexists. split; [reflexivity|]. right. eexists. split; [reflexivity|]. wf_finish.
  - rewrite Hcc. eexists. split; [reflexivity|]. right. exists ch. wf_finish.
  - destruct (Sink.persistLogged _ h e s) as [s1|] eqn:Ep;
      (eexists; split; [reflexivity|]); [right | by left].
    apply persistLogged_frame in Ep as (Hb & _ & _).
    exists ch. simpl. rewrite Hb. wf_finish.
  - destruct (buffer ch) as [|e rest].
    + rewrite Hcc. eexists. split; [reflexivity|]. right. exists ch. wf_finish.
    + eexists. split; [reflexivity|]. right. eexists. split; [reflexivity|]. wf_finish.
  - destruct (Sink.persistLogged _ h e s) as [s1|] eqn:Ep;
      (eexists; split; [reflexivity|]); [right | by left].
    apply persistLogged_frame in Ep as (Hb & _ & _).
    exists ch. simpl. rewrite Hb. wf_finish.
Qed.

Lemma wgWait_joining (h : Heap) (fuel : nat) :
  forall s : Sink D, joining s -> returned (Sink.wgWait fuel h s) = None.
Proof.
  induction fuel as [|fuel IH]; intros s Hj.
  - destruct Hj as (ch & _ & _ & Hwg & _). simpl. by rewrite Hwg.
  - pose proof Hj as (ch & _ & _ & Hwg & _). simpl. rewrite Hwg.
    destruct (drainStep_joining h s Hj) as (s' & -> & [Hc|Hj']).
    + by rewrite Hc.
    + pose proof Hj' as (_ & _ & _ & _ & Hcr).
      specialize (IH s' Hj'). by destruct (drain s').
Qed.

Lemma Close_running_never_returns (h : Heap) (s : Sink D) (fuel : nat) :
  wf s -> closed s = false -> running s ->
  returned (Sink.Close fuel h s) = None.
Proof.
  intros (ch & Hch & Hcl & _ & _) Hopen Hrun.
  unfold Sink.Close. rewrite Hopen. simpl. rewrite Hch.
  destruct (chClosed ch) eqn:Ecc; [reflexivity|].
  match goal with |- context [Sink.wgWait fuel h ?s1] =>
    assert (Hj : joining s1) end.
  { eexists. split; [reflexivity|]. simpl. unfold running in Hrun.
    destruct (drain s); try contradiction; wf_finish. }
  pose proof (wgWait_joining h fuel _ Hj) as Hw.
  destruct (Sink.wgWait fuel h _); try reflexivity. discriminate.
Qed.

(** Every logger a history leads to from its constructor is well formed. *)
Lemma play_wf (h : Heap) (evs : list event) :
  forall s s' : Sink D, wf s -> play h evs s = Ret s' -> wf s'.
Proof.
  induction evs as [|[e|] evs IH]; intros s s' Hwf; simpl.
  - by intros [= <-].
  - destruct (Sink.Write h s e) as [[s1 err]| |] eqn:Ew; try discriminate.
    apply IH. by apply (Write_wf h s s1 e err).
  - destruct (Sink.drainStep h s) as [s1|] eqn:Es; [|by apply IH].
    pose proof (drainStep_wf h s s1 Hwf Es) as Hwf1.
    destruct (drain s1); try discriminate; by apply IH.
Qed.

Lemma Write_running (h : Heap) (s s' : Sink D) (e : ptr) (err : error) :
  closed s = false -> running s -> Sink.Write h s e = Ret (s', err) ->
  closed s' = false /\ running s'.
Proof.
  intros Hopen Hrun. unfold Sink.Write, running in *. rewrite Hopen.
  destruct (bufferCh s) as [ch|].
  - destruct (chClosed ch); [discriminate|].
    destruct (drain s) eqn:Ed; try contradiction.
    + destruct (length (buffer ch) <? capacity ch)%nat; [|destruct e; [|discriminate]];
        intros [= <- <-]; simpl; by rewrite Ed.
    + by intros [= <- <-].
    + destruct (length (buffer ch) <? capacity ch)%nat; [|destruct e; [|discriminate]];
        intros [= <- <-]; simpl; by rewrite Ed.
  - destruct (persist h e (dest s)) as [[d er]|]; [|discriminate].
    by intros [= <- <-].
Qed.

Lemma drainStep_running (h : Heap) (s s' : Sink D) :
  wf s -> closed s = false -> running s -> Sink.drainStep h s = Some s' ->
  running s' \/ drain s' = Crashed.
Proof.
  intros (ch & Hch & Hcl & _ & _) Hopen Hrun.
  assert (Hcc : chClosed ch = false).
  { destruct (chClosed ch); [|reflexivity]. specialize (Hcl eq_refl). congruence. }
  unfold Sink.drainStep, running in *. rewrite Hch, Hcc.
  destruct (drain s) eqn:Ed; try contradiction; try discriminate.
  - destruct (buffer ch); intros [= <-]; by left.
  - destruct (Sink.persistLogged _ h e s) as [s2|]; intros [= <-]; [by left | by right].
Qed.

Lemma play_running (h : Heap) (evs : list event) :
  forall s s' : Sink D,
    wf s -> closed s = false -> running s ->
    play h evs s = Ret s' ->
    wf s' /\ closed s' = false /\ running s'.
Proof.
  induction evs as [|[e|] evs IH]; intros s s' Hwf Hopen Hrun; simpl.
  - by intros [= <-].
  - destruct (Sink.Write h s e) as [[s1 err]| |] eqn:Ew; try discriminate.
    destruct (Write_running h s s1 e err Hopen Hrun Ew) as [Hopen1 Hrun1].
    apply IH; [by apply (Write_wf h s s1 e err) | done | done].
  - destruct (Sink.drainStep h s) as [s1|] eqn:Es; [|by apply IH].
    destruct (drainStep_running h s s1 Hwf Hopen Hrun Es) as [Hrun1 | Hcr].
    + pose proof (drainStep_wf h s s1 Hwf Es) as Hwf1.
      pose proof (drainStep_closed h s s1 Es) as Hc1. rewrite Hopen in Hc1.
      unfold running in Hrun1. destruct (drain s1) eqn:Ed1; try contradiction;
        apply IH; try done; unfold running; by rewrite Ed1.
    + by rewrite Hcr.
Qed.

(** On a logger built with async = true, Close does not return, whatever
    was written and drained before: once the channel is closed and emptied
    the drain goroutine enters flushBuffer, whose select finds the closed
    channel ready every time and never takes its default, so wg.Wait() waits
    for ever (or the process dies, when persisting the nil entry it then
    receives panics). *)
Theorem async_Close_never_returns (d : D) (n : nat) (h : Heap) (evs : list event)
    (s : Sink D) (fuel : nat) :
  (exists s0, Sink.New d true (Z.of_nat n) = Ret s0 /\ play h evs s0 = Ret s) ->
  returned (Sink.Close fuel h s) = None.
Proof.
  intros (s0 & Hnew & Hplay).
  destruct (New_wf d true (Z.of_nat n) s0 Hnew) as (Hwf & Hopen & _).
  assert (Hrun : running s0) by (rewrite New_nat in Hnew; by injection Hnew as <-).
  destruct (play_running h evs s0 s Hwf Hopen Hrun Hplay) as (Hwf' & Hopen' & Hrun').
  by apply Close_running_never_returns.
Qed.

End SinkProperties.

Lemma asyncTwo_wf : wf asyncTwo.
Proof.
  exists (mkChan [] 2 false). unfold asyncTwo. simpl.
  repeat split; try discriminate. lia.
Qed.


Lemma asyncTwoFull_wf : wf asyncTwoFull.
Proof.
  exists (mkChan [Some 1%nat; Some 2%nat] 2 false). unfold asyncTwoFull. simpl.
  repeat split; try discriminate. lia.
Qed.

Lemma async_Close_never_returns_witness :
  returned (Sink.Close 64 twoEntries asyncTwoFull) = None.
Proof.
  apply (async_Close_never_returns emptyFile 2 twoEntries
           [WriteEv (Some 1%nat); WriteEv (Some 2%nat)] asyncTwoFull 64).
  eexists. split; reflexivity.
Defined.

(** ** The drain task of a FileLogger *)

Lemma writeEntry_healthy (h : Heap) (e : ptr) (f : File) :
  healthy f ->
  exists err,
    writeEntry h e f =
      Some (mkFile (lines f ++ option_list (marshalEntry h e)) true None None, err).
Proof.
  intros Hf. pose proof Hf as (Ho & Hfa & Hw). unfold writeEntry.
  destruct (marshalEntry h e) as [data|]; simpl.
  - rewrite Hw, Ho, Hfa. simpl. by eexists.
  - eexists. rewrite app_nil_r. do 2 f_equal. destruct f; simpl in *. by subst.
Qed.

Lemma drainStep_Holding_healthy (h : Heap) (f : File) (c : option Chan) (cl : bool)
    (e : ptr) (errs : list string) :
  healthy f ->
  exists errs',
    Sink.drainStep h (mkSink f c cl (Holding e) errs) =
      Some (mkSink (mkFile (lines f ++ option_list (marshalEntry h e)) true None None)
              c cl AtSelect errs').
Proof.
  intros Hf. unfold Sink.drainStep, Sink.persistLogged. simpl.
  destruct (writeEntry_healthy h e f Hf) as [[err|] ->]; destruct c; by eexists.
Qed.

Lemma drainStep_AtSelect_cons (h : Heap) (f : File) (e : ptr) (buf : list ptr) (cap : nat)
    (cc cl : bool) (errs : list string) :
  Sink.drainStep h (mkSink f (Some (mkChan (e :: buf) cap cc)) cl AtSelect errs) =
    Some (mkSink f (Some (mkChan buf cap cc)) cl (Holding e) errs).
Proof. reflexivity. Qed.

Lemma drainSteps_S (n : nat) (h : Heap) (s : FileLogger) :
  drainSteps (S n) h s =
    match Sink.drainStep h s with Some s' => drainSteps n h s' | None => s end.
Proof. reflexivity. Qed.

Lemma omap_cons_option_list (h : Heap) (e : ptr) (buf : list ptr) :
  omap (marshalEntry h) (e :: buf) = option_list (marshalEntry h e) ++ omap (marshalEntry h) buf.
Proof. simpl. by destruct (marshalEntry h e). Qed.

Lemma drainSteps_closed_AtSelect (h : Heap) (cap : nat) (cl : bool) (buf : list ptr) :
  forall (f : File) (errs : list string), healthy f ->
    exists errs',
      drainSteps (2 * length buf + 1) h (mkSink f (Some (mkChan buf cap true)) cl AtSelect errs) =
        mkSink (mkFile (lines f ++ omap (marshalEntry h) buf) true None None)
          (Some (mkChan [] cap true)) cl Flushing errs'.
Proof.
  induction buf as [|e buf IH]; intros f errs Hf.
  - exists errs. simpl. rewrite app_nil_r. destruct Hf as (Ho & Hfa & Hw).
    destruct f; simpl in *. by subst.
  - replace (2 * length (e :: buf) + 1)%nat with (S (S (2 * length buf + 1))) by (simpl; lia).
    rewrite drainSteps_S, drainStep_AtSelect_cons, drainSteps_S.
    destruct (drainStep_Holding_healthy h f (Some (mkChan buf cap true)) cl e errs Hf)
      as [errs1 ->].
    destruct (IH (mkFile (lines f ++ option_list (marshalEntry h e)) true None None) errs1)
      as [errs' ->]; [done|].
    exists errs'. by rewrite omap_cons_option_list, app_assoc.
Qed.

(** What Close gets right on an async FileLogger whose file takes the
    writes: once the channel is closed, the drain task writes every staged
    entry to the file, once, in the order of their staging, before it enters
    flushBuffer. (An entry json.Marshal refuses is dropped with a line on
    stderr.) *)
Theorem async_drain_persists_staged_once (h : Heap) (s : FileLogger) :
  wf s -> running s -> healthy (dest s) ->
  exists k,
    lines (dest (drainSteps k h (closing s))) =
      lines (dest s) ++ omap (marshalEntry h) (staged s)
    /\ staged (drainSteps k h (closing s)) = []
    /\ drain (drainSteps k h (closing s)) = Flushing.
Proof.
  intros (ch & Hch & _ & Hpk & _) Hrun Hf.
  unfold closing, staged, buffered. rewrite Hch.
  destruct s as [f c cl pc errs]. simpl in *. subst c.
  unfold running in Hrun. simpl in Hrun.
  unfold Sink.setChan, Sink.setClosed. simpl.
  destruct pc; try contradiction.
  - exists (2 * length (buffer ch) + 1)%nat.
    destruct (drainSteps_closed_AtSelect h (capacity ch) true (buffer ch) f errs Hf) as [errs' ->].
    by repeat split.
  - exists 1%nat. rewrite (Hpk eq_refl). simpl. rewrite app_nil_r. by repeat split.
  - exists (S (2 * length (buffer ch) + 1)).
    rewrite drainSteps_S.
    destruct (drainStep_Holding_healthy h f (Some (mkChan (buffer ch) (capacity ch) true))
                true e errs Hf) as [errs1 ->].
    destruct (drainSteps_closed_AtSelect h (capacity ch) true (buffer ch)
                (mkFile (lines f ++ option_list (marshalEntry h e)) true None None) errs1)
      as [errs' ->]; [done|].
    simpl. rewrite <- app_assoc. by destruct (marshalEntry h e).
Qed.

Lemma async_drain_persists_staged_once_witness :
  exists k,
    lines (dest (drainSteps k twoEntries (closing asyncTwoFull))) =
      lines (dest asyncTwoFull) ++ omap (marshalEntry twoEntries) (staged asyncTwoFull)
    /\ staged (drainSteps k twoEntries (closing asyncTwoFull)) = []
    /\ drain (drainSteps k twoEntries (closing asyncTwoFull)) = Flushing.
Proof.
  apply (async_drain_persists_staged_once twoEntries asyncTwoFull asyncTwoFull_wf I).
  by repeat split.
Defined.

(** The three outcomes on a FileLogger with room for two. *)
Lemma Write_three_outcomes_witness :
  wf asyncTwo /\
  exists s' err, Sink.Write twoEntries asyncTwo (Some 1%nat) = Ret (s', err) /\
    if closed asyncTwo then err = Some "logger is closed" /\ s' = asyncTwo
    else if hasRoom asyncTwo then
      err = None /\ staged s' = staged asyncTwo ++ [Some 1%nat] /\ stderr s' = stderr asyncTwo
      /\ dest s' = dest asyncTwo /\ closed s' = false
    else
      err = None /\ staged s' = staged asyncTwo /\ dest s' = dest asyncTwo /\ closed s' = false
      /\ stderr s' = stderr asyncTwo ++ ["log buffer full, dropping entry: "
                                    +:+ Method (deref twoEntries 1%nat) +:+ " "
                                    +:+ Path (deref twoEntries 1%nat)].
Proof.
  split; [exact asyncTwo_wf|].
  exact (Write_three_outcomes twoEntries asyncTwo 1%nat asyncTwo_wf).
Defined.

(** Room for two, three entries written with no drain step in between: two
    are staged, one is dropped with one line printed, all three calls return
    nil; after Close has marked the logger closed a Write gets the error. *)
Example Write_scenario_capacity_two :
  writeAll twoEntries asyncTwo [Some 1%nat; Some 2%nat; Some 1%nat] =
    Ret (mkSink emptyFile (Some (mkChan [Some 1%nat; Some 2%nat] 2 false)) false AtSelect
           ["log buffer full, dropping entry: GET /a"])
  /\ (exists s, Sink.Flush 2 twoEntries asyncTwoFull = Ret s
        /\ lines (dest s) = [recordA; recordB]
        /\ staged s = [])
  /\ Sink.Write twoEntries (Sink.setClosed true asyncTwo) (Some 1%nat) =
       Ret (Sink.setClosed true asyncTwo, Some "logger is closed").
Proof. split; [reflexivity|]. split; [eexists; repeat split; reflexivity | reflexivity]. Qed.

(** A synchronous FileLogger on a disk that refuses every write: writeEntry
    would fail, and Write returns nil with the entry in the buffer. *)
Example sync_Write_hides_failure :
  (exists f, writeEntry twoEntries (Some 1%nat) fullDisk
             = Some (f, Some "failed to write log: no space left on device"))
  /\ exists s, NewFileLogger fullDisk false 2 = Ret s
       /\ Sink.Write twoEntries s (Some 1%nat) =
            Ret (mkSink fullDisk (Some (mkChan [Some 1%nat] 2 false)) false NotStarted [], None).
Proof. split; eexists; [reflexivity | split; reflexivity]. Qed.

(** Two entries staged in a synchronous FileLogger, then Close: it returns
    nil, the file is closed and empty, the two entries are still in the
    buffer. *)
Example sync_Close_scenario :
  exists s s1, NewFileLogger emptyFile false 2 = Ret s
    /\ writeAll twoEntries s [Some 1%nat; Some 2%nat] = Ret s1
    /\ Sink.Close 0 twoEntries s1 =
         Ret (mkSink (mkFile [] false None None)
                (Some (mkChan [Some 1%nat; Some 2%nat] 2 true)) true NotStarted [], None).
Proof. eexists _, _. repeat split; reflexivity. Qed.

(** The same on an async FileLogger: the drain task writes the two records,
    in order, and then null after null for as long as it is run. *)
Example async_Close_scenario :
  exists s1, writeAll twoEntries asyncTwo [Some 1%nat; Some 2%nat] = Ret s1
    /\ Sink.Close 40 twoEntries s1 = OutOfFuel
    /\ lines (dest (drainSteps 12 twoEntries
                      (Sink.setChan (mkChan [Some 1%nat; Some 2%nat] 2 true)
                         (Sink.setClosed true s1)))) =
         [recordA; recordB; JNull; JNull; JNull].
Proof. eexists. repeat split; vm_compute; reflexivity. Qed.

(** The skip list holds /health. A request for /health is skipped, one for
    /heal, a part of that entry, is instrumented; with the flag off nothing
    is. *)
Example handle_skip_is_exact :
  fst (handle stamp (fun w => w)
         (mkWorld (mkHeap ∅ ∅) (mkRequest "GET" "/health" "10.0.0.1" "curl" None) ∅ 200
            helloConfig 0 asyncTwo [])) = PathSkip
  /\ isInstrumented
       (fst (handle stamp (fun w => w)
               (mkWorld (mkHeap ∅ ∅) (mkRequest "GET" "/heal" "10.0.0.1" "curl" None) ∅ 200
                  helloConfig 0 asyncTwo []))) = true
  /\ fst (handle stamp (fun w => w)
            (mkWorld (mkHeap ∅ ∅) helloRequest ∅ 200
               (Config.mkConfig false [] None DefaultTimeFormat false 1000) 0 asyncTwo []))
     = DisabledSkip.
Proof. repeat split; vm_compute; reflexivity. Qed.

(** ** Custom fields added by a handler *)

Section RequestFields.
Context {L : Type} `{Logger L}.
Variable formatTime : string -> Z -> string.

Lemma SetLogField_no_entry (key : string) (value : json) (w : World L) :
  keys w !! logEntryKey = None ->
  GetLogEntry w = None /\ SetLogField key value w = w.
Proof.
  intros Hk. unfold SetLogField, GetLogEntry. by rewrite Hk.
Qed.

(** C4, as the code has it. The entry is built and put in the context only
    after the chain has run, and it is dispatched in the same breath. While
    the chain of a request runs the context holds no entry, so GetLogEntry
    gives nil and SetLogField does nothing: the middleware behaves exactly as
    if the handler had not called it, and the field reaches no record. *)
Theorem handler_SetLogField_is_lost (key : string) (value : json) (w : World L) :
  keys w !! logEntryKey = None ->
  GetLogEntry w = None
  /\ handle formatTime (SetLogField key value) w = handle formatTime (fun w' => w') w.
Proof.
  intros Hk. split; [by apply SetLogField_no_entry|].
  assert (Hid : forall w' : World L, keys w' = keys w -> SetLogField key value w' = w').
  { intros w' Hw'. apply SetLogField_no_entry. by rewrite Hw'. }
  unfold handle, instrument.
  repeat match goal with
         | |- context [SetLogField key value ?x] =>
             rewrite (Hid x) by (by destruct (reqBody (request w)))
         end.
  reflexivity.
Qed.

End RequestFields.

Lemma handler_SetLogField_is_lost_witness :
  keys helloWorld !! logEntryKey = None
  /\ GetLogEntry helloWorld = None
  /\ handle stamp tagUser helloWorld = handle stamp (fun w' => w') helloWorld.
Proof.
  split; [reflexivity|].
  exact (handler_SetLogField_is_lost stamp "user_id" (JStr "12345") helloWorld eq_refl).
Defined.

(** The request for /hello whose handler calls SetLogField("user_id",
    "12345"): the record the drain task writes has no custom_fields. *)
Example tagged_request_record :
  exists l w, handle stamp tagUser helloWorld = (Instrumented l, Ret w)
    /\ lines (dest (drainSteps 3 (heap w) (logger w))) = [helloRecord]
    /\ member "custom_fields" helloRecord = None.
Proof. eexists _, _. repeat split; vm_compute; reflexivity. Qed.

(** The same request with asynchronous dispatch: the goroutine copies the
    entry and writes the copy, and the record is the same. *)
Example tagged_request_record_async :
  exists l w w', handle stamp tagUser helloWorldAsync = (Instrumented l, Ret w)
    /\ tasks w = [l]
    /\ runTask 0 w = Ret w'
    /\ lines (dest (drainSteps 3 (heap w') (logger w'))) = [helloRecord].
Proof. eexists _, _, _. repeat split; vm_compute; reflexivity. Qed.

(** SetLogField has an entry to work on only once the middleware has
    returned, that is, once the entry is with the logger. The entry in the
    channel is the object the context points to, so whether a field added then
    reaches the record depends on who is first, the caller or the drain
    task. *)
Example late_SetLogField_races :
  exists l w, handle stamp (fun w' => w') helloWorld = (Instrumented l, Ret w)
    /\ GetLogEntry w = Some l
    /\ lines (dest (drainSteps 3 (heap (tagUser w)) (logger (tagUser w)))) = [taggedRecord]
    /\ lines (dest (drainSteps 3 (heap w) (logger w))) = [helloRecord].
Proof. eexists _, _. repeat split; vm_compute; reflexivity. Qed.

(** ** The store: LIKE *)

Lemma like_percent_nil (p : list ascii) : like ("%"%char :: p) [] = like p [].
Proof. simpl. apply orb_false_r. Qed.

Lemma like_percent_cons (p : list ascii) (x : ascii) (s : list ascii) :
  like ("%"%char :: p) (x :: s) = like p (x :: s) || like ("%"%char :: p) s.
Proof. reflexivity. Qed.

Lemma like_percent (p s : list ascii) :
  like ("%"%char :: p) s = true <-> exists a b, s = a ++ b /\ like p b = true.
Proof.
  induction s as [|x s IH].
  - rewrite like_percent_nil. split.
    + intros Hl. by exists [], [].
    + intros (a & b & Hs & Hl). symmetry in Hs. apply app_eq_nil in Hs as [-> ->]. exact Hl.
  - rewrite like_percent_cons, orb_true_iff, IH. split.
    + intros [Hl | (a & b & -> & Hl)].
      * by exists [], (x :: s).
      * by exists (x :: a), b.
    + intros (a & b & Hs & Hl). destruct a as [|y a]; simpl in Hs.
      * left. by subst b.
      * right. injection Hs as -> ->. by exists a, b.
Qed.

Lemma like_only_percent (s : list ascii) : like ["%"%char] s = true.
Proof. apply like_percent. exists s, []. by rewrite app_nil_r. Qed.

Lemma like_plain_cons (c : ascii) (p s : list ascii) :
  plain c = true ->
  like (c :: p) s = match s with x :: s' => Ascii.eqb x c && like p s' | [] => false end.
Proof.
  unfold plain. rewrite !andb_true_iff, !negb_true_iff. intros [[H1 H2] H3].
  cbn [like]. by rewrite H1, H2, H3.
Qed.

Lemma like_plain_prefix (q p s : list ascii) :
  forallb plain q = true ->
  like (q ++ p) s = true <-> exists b, s = q ++ b /\ like p b = true.
Proof.
  revert s. induction q as [|c q IH]; intros s Hq.
  - simpl. split; [intros Hl; by exists s | by intros (b & -> & Hl)].
  - simpl in Hq. apply andb_true_iff in Hq as [Hc Hq].
    rewrite <- app_comm_cons, like_plain_cons by exact Hc.
    destruct s as [|x s]; [split; [discriminate | by intros (b & Hb & _)]|].
    rewrite andb_true_iff, (IH s Hq). split.
    + intros [Hx (b & -> & Hl)]. apply Ascii.eqb_eq in Hx as ->. by exists b.
    + intros (b & Hs & Hl). injection Hs as -> ->.
      split; [apply Ascii.eqb_refl | by exists b].
Qed.

Lemma list_ascii_of_string_app (a b : string) :
  list_ascii_of_string (a +:+ b) = list_ascii_of_string a ++ list_ascii_of_string b.
Proof. induction a as [|c a IH]; simpl; [reflexivity | by rewrite IH]. Qed.

(** Where the claim about the path filter holds: a filter with no [%], [_]
    or backslash in it selects the paths it occurs in. *)
Lemma LIKE_plain_contains (p text : string) :
  forallb plain (list_ascii_of_string p) = true ->
  LIKE ("%" +:+ p +:+ "%") text = true <->
  contains (list_ascii_of_string p) (list_ascii_of_string text).
Proof.
  intros Hp. unfold LIKE, contains.
  rewrite !list_ascii_of_string_app. cbn [list_ascii_of_string app].
  rewrite like_percent. split.
  - intros (a & b & -> & Hl). apply like_plain_prefix in Hl as (c & -> & _); [|exact Hp].
    by exists a, c.
  - intros (a & b & ->). exists a, (list_ascii_of_string p ++ b). split; [reflexivity|].
    apply like_plain_prefix; [exact Hp|]. exists b. split; [reflexivity | apply like_only_percent].
Qed.

Lemma like_underscore (p s : list ascii) :
  like ("_"%char :: p) s = match s with _ :: s' => like p s' | [] => false end.
Proof. reflexivity. Qed.

Lemma like_percent_underscore (s : list ascii) :
  like ["%"; "_"; "%"]%char s = true <-> s <> [].
Proof.
  rewrite like_percent. split.
  - intros (a & b & -> & Hl). rewrite like_underscore in Hl.
    destruct b; [discriminate|]. intros Habs. apply app_eq_nil in Habs as [_ Habs].
    discriminate.
  - intros Hs. destruct s as [|x s]; [done|]. exists [], (x :: s).
    split; [done|]. rewrite like_underscore. apply like_only_percent.
Qed.

(** *** EscapeLike, the escape QueryLogs does not apply *)

Lemma append_cons (x : ascii) (a b : string) : String x a +:+ b = String x (a +:+ b).
Proof. reflexivity. Qed.

Lemma append_assoc' (a b c : string) : (a +:+ b) +:+ c = a +:+ (b +:+ c).
Proof.
  induction a as [|x a IH]; [reflexivity|]. by rewrite !append_cons, IH.
Qed.

Lemma ReplaceAll1_cons (c x : ascii) (by_ s : string) :
  ReplaceAll1 c by_ (String x s) =
    if Ascii.eqb x c then by_ +:+ ReplaceAll1 c by_ s else String x (ReplaceAll1 c by_ s).
Proof. reflexivity. Qed.

Lemma ReplaceAll1_app (c : ascii) (by_ a b : string) :
  ReplaceAll1 c by_ (a +:+ b) = ReplaceAll1 c by_ a +:+ ReplaceAll1 c by_ b.
Proof.
  induction a as [|x a IH]; [reflexivity|].
  rewrite append_cons, !ReplaceAll1_cons, IH.
  destruct (Ascii.eqb x c); [by rewrite append_assoc' | reflexivity].
Qed.

Lemma EscapeLike_cons (x : ascii) (s : string) :
  EscapeLike (String x s) = escapeChar x +:+ EscapeLike s.
Proof.
  unfold EscapeLike, escapeChar.
  change (String x s) with (String x EmptyString +:+ s).
  rewrite !ReplaceAll1_app. f_equal.
  destruct (Ascii.eqb_spec x "\") as [->|H1]; [reflexivity|].
  destruct (Ascii.eqb_spec x "%") as [->|H2]; [reflexivity|].
  destruct (Ascii.eqb_spec x "_") as [->|H3]; [reflexivity|].
  simpl.
  destruct (Ascii.eqb_spec x "\") as [?|_]; [contradiction|]. simpl.
  destruct (Ascii.eqb_spec x "%") as [?|_]; [contradiction|]. simpl.
  destruct (Ascii.eqb_spec x "_") as [?|_]; [contradiction|]. reflexivity.
Qed.

Lemma like_escapeChar (x : ascii) (p s : list ascii) :
  like (list_ascii_of_string (escapeChar x) ++ p) s =
    match s with y :: s' => Ascii.eqb y x && like p s' | [] => false end.
Proof.
  unfold escapeChar.
  destruct (Ascii.eqb_spec x "\") as [->|H1]; [reflexivity|].
  destruct (Ascii.eqb_spec x "%") as [->|H2]; [reflexivity|].
  destruct (Ascii.eqb_spec x "_") as [->|H3]; [reflexivity|].
  simpl app. apply like_plain_cons. unfold plain.
  apply Ascii.eqb_neq in H1, H2, H3. by rewrite H1, H2, H3.
Qed.

Lemma like_escaped_prefix (q : string) (p : list ascii) :
  forall s : list ascii,
    like (list_ascii_of_string (EscapeLike q) ++ p) s = true <->
    exists b, s = list_ascii_of_string q ++ b /\ like p b = true.
Proof.
  induction q as [|x q IH]; intros s.
  - simpl. split; [intros Hl; by exists s | by intros (b & -> & Hl)].
  - rewrite EscapeLike_cons, list_ascii_of_string_app, <- app_assoc, like_escapeChar.
    destruct s as [|y s]; [split; [discriminate | by intros (b & Hb & _)]|].
    rewrite andb_true_iff, IH. simpl. split.
    + intros [Hy (b & -> & Hl)]. apply Ascii.eqb_eq in Hy as ->. by exists b.
    + intros (b & Hs & Hl). injection Hs as -> ->.
      split; [apply Ascii.eqb_refl | by exists b].
Qed.

(** With EscapeLike applied to the filter, the pattern would select the
    paths the filter occurs in, whatever characters the filter has. *)
Theorem EscapeLike_makes_filter_literal (p text : string) :
  LIKE ("%" +:+ EscapeLike p +:+ "%") text = true <->
  contains (list_ascii_of_string p) (list_ascii_of_string text).
Proof.
  unfold LIKE, contains.
  rewrite !list_ascii_of_string_app. cbn [list_ascii_of_string app].
  rewrite like_percent. split.
  - intros (a & b & -> & Hl). apply like_escaped_prefix in Hl as (c & -> & _).
    by exists a, c.
  - intros (a & b & ->). exists a, (list_ascii_of_string p ++ b). split; [reflexivity|].
    apply like_escaped_prefix. exists b. split; [reflexivity | apply like_only_percent].
Qed.

(** ** The store: queries *)

Lemma insertDesc_perm (r : DB.DBLogEntry) (l : list DB.DBLogEntry) :
  insertDesc r l ≡ₚ r :: l.
Proof.
  induction l as [|r' l IH]; simpl; [reflexivity|].
  destruct (DB.CreatedAt r' <? DB.CreatedAt r); [reflexivity|].
  rewrite IH. apply Permutation_swap.
Qed.

Lemma orderByCreatedDesc_perm (l : list DB.DBLogEntry) : orderByCreatedDesc l ≡ₚ l.
Proof.
  induction l as [|r l IH]; simpl; [reflexivity|].
  rewrite insertDesc_perm. by rewrite IH.
Qed.

Lemma setCreatedAt_same (l : list DB.DBLogEntry) :
  map (fun r => setCreatedAt (convertToLocalTime (DB.CreatedAt r)) r) l = l.
Proof.
  induction l as [|r l IH]; simpl; [reflexivity|]. rewrite IH. by destruct r.
Qed.

Section QueryProperties.
Variable parseTime : string -> option Z.

Lemma scans_found (st : DB.Store) (where_ : DB.DBLogEntry -> bool) :
  forallb scans (DB.rows st) = true ->
  forallb scans (orderByCreatedDesc (filter (fun r => where_ r = true) (DB.rows st))) = true.
Proof.
  rewrite !forallb_forall. intros Hall r Hr. apply Hall.
  apply list_elem_of_In in Hr. rewrite orderByCreatedDesc_perm in Hr.
  apply list_elem_of_filter in Hr as [_ Hr]. by apply list_elem_of_In.
Qed.

(** A query for everything: no offset, a limit no smaller than the table,
    on a table with no NULL in custom_fields. *)
Lemma QueryLogs_whole (st : DB.Store) (limit : Z) (conditions : gmap string json)
    (where_ : DB.DBLogEntry -> bool) :
  DB.unavailable st = None ->
  forallb scans (DB.rows st) = true ->
  compileAll parseTime (queryConds conditions) = Some where_ ->
  Z.of_nat (length (DB.rows st)) <= limit ->
  QueryLogs parseTime st 0 limit conditions =
    (orderByCreatedDesc (filter (fun r => where_ r = true) (DB.rows st)), None).
Proof.
  intros Hup Hsc Hc Hlim. unfold QueryLogs. rewrite Hup, Hc.
  destruct (Z.ltb_spec limit 0) as [?|_]; [lia|]. simpl.
  rewrite drop_0, take_ge.
  - by rewrite (scans_found st where_ Hsc), setCreatedAt_same.
  - rewrite (Permutation_length (orderByCreatedDesc_perm _)).
    pose proof (length_filter (fun r => where_ r = true) (DB.rows st)). lia.
Qed.

Lemma queryConds_path (p : string) :
  p <> "" -> queryConds {[ "path" := JStr p ]} = [PathLike ("%" +:+ p +:+ "%")].
Proof.
  intros Hp. unfold queryConds.
  rewrite !lookup_singleton_ne by discriminate. rewrite lookup_singleton_eq. simpl.
  destruct (String.eqb_spec p "") as [E|_]; [contradiction | reflexivity].
Qed.

(** C6, as the code has it. The path filter is spliced between two [%] and
    handed to LIKE as it is, so QueryLogs (on a store that answers, whose
    rows all have a custom_fields value) returns the rows whose path matches
    that pattern: a [%], [_] or backslash in the filter keeps its meaning to
    LIKE. *)
Theorem QueryLogs_path_is_a_pattern (st : DB.Store) (limit : Z) (p : string) :
  DB.unavailable st = None ->
  forallb scans (DB.rows st) = true ->
  p <> "" ->
  Z.of_nat (length (DB.rows st)) <= limit ->
  exists found,
    QueryLogs parseTime st 0 limit {[ "path" := JStr p ]} = (found, None)
    /\ forall r, r ∈ found <-> r ∈ DB.rows st /\ LIKE ("%" +:+ p +:+ "%") (DB.Path r) = true.
Proof.
  intros Hup Hsc Hp Hlim. eexists. split.
  - apply QueryLogs_whole; [exact Hup | exact Hsc | | exact Hlim].
    rewrite (queryConds_path p Hp). reflexivity.
  - intros r. rewrite orderByCreatedDesc_perm, list_elem_of_filter.
    rewrite andb_true_r. tauto.
Qed.

Lemma countConds_delete (conditions : gmap string json) :
  countConds (delete "path" (delete "status_code" conditions)) = countConds conditions.
Proof.
  unfold countConds. by rewrite !lookup_delete_ne by discriminate.
Qed.

(** Where the claim about the count holds: with no path filter and no status
    filter in force, CountLogs builds the conditions QueryLogs builds, and
    counts the rows a query for everything returns. *)
Lemma CountLogs_agrees (st : DB.Store) (limit : Z) (conditions : gmap string json) :
  forallb scans (DB.rows st) = true ->
  conditions !! "path" = None ->
  conditions !! "status_code" = None ->
  Z.of_nat (length (DB.rows st)) <= limit ->
  queryConds conditions = countConds conditions
  /\ (snd (CountLogs parseTime st conditions) = None ->
      snd (QueryLogs parseTime st 0 limit conditions) = None
      /\ fst (CountLogs parseTime st conditions) =
           Z.of_nat (length (fst (QueryLogs parseTime st 0 limit conditions)))).
Proof.
  intros Hsc Hp Hs Hlim.
  assert (Hq : queryConds conditions = countConds conditions).
  { unfold queryConds, countConds. by rewrite Hp, Hs. }
  split; [exact Hq|].
  unfold CountLogs.
  destruct (DB.unavailable st) as [err|] eqn:Hup; [discriminate|].
  destruct (compileAll parseTime (countConds conditions)) as [where_|] eqn:Hc; [|discriminate].
  intros _. rewrite (QueryLogs_whole st limit conditions where_ Hup Hsc) by (by rewrite ?Hq).
  simpl. split; [reflexivity|].
  by rewrite (Permutation_length (orderByCreatedDesc_perm _)).
Qed.

Lemma filter_all (l : list DB.DBLogEntry) :
  filter (fun _ : DB.DBLogEntry => true = true) l = l.
Proof.
  induction l as [|r l IH]; [reflexivity|]. rewrite filter_cons_True by reflexivity.
  by rewrite IH.
Qed.

Lemma queryConds_status (n : Z) :
  n <> 0 -> queryConds {[ "status_code" := JInt n ]} = [StatusCodeEq (JInt n)].
Proof.
  intros Hn. unfold queryConds.
  rewrite !lookup_singleton_ne by discriminate. rewrite lookup_singleton_eq. simpl.
  destruct (Z.eqb_spec n 0) as [E|_]; [contradiction | reflexivity].
Qed.

(** What QueryLogs does with a status filter: the rows of that status. *)
Lemma QueryLogs_status (st : DB.Store) (limit n : Z) :
  DB.unavailable st = None ->
  forallb scans (DB.rows st) = true ->
  n <> 0 ->
  Z.of_nat (length (DB.rows st)) <= limit ->
  exists found,
    QueryLogs parseTime st 0 limit {[ "status_code" := JInt n ]} = (found, None)
    /\ forall r, r ∈ found <-> r ∈ DB.rows st /\ DB.StatusCode r = n.
Proof.
  intros Hup Hsc Hn Hlim. eexists. split.
  - apply QueryLogs_whole; [exact Hup | exact Hsc | | exact Hlim].
    rewrite (queryConds_status n Hn). reflexivity.
  - intros r. rewrite orderByCreatedDesc_perm, list_elem_of_filter.
    rewrite andb_true_r, Z.eqb_eq. tauto.
Qed.

(** C5, as the code has it. CountLogs never looks at the path filter or at
    the status filter: taking both out of the conditions changes nothing, and
    with a status filter alone it counts the whole table. *)
Theorem CountLogs_ignores_path_and_status (st : DB.Store) (conditions : gmap string json) :
  CountLogs parseTime st conditions =
    CountLogs parseTime st (delete "path" (delete "status_code" conditions))
  /\ (forall n : Z,
        DB.unavailable st = None ->
        CountLogs parseTime st {[ "status_code" := JInt n ]} =
          (Z.of_nat (length (DB.rows st)), None)).
Proof.
  split.
  - unfold CountLogs. by rewrite countConds_delete.
  - intros n Hup. unfold CountLogs, countConds. rewrite Hup.
    rewrite !lookup_singleton_ne by discriminate. simpl. by rewrite filter_all.
Qed.

End QueryProperties.

(** The filter status_code = 404 on the two rows: the query returns the one
    row that has it, the count says two; and so does the admin handler, which
    answers with total 2 and one log. *)
Example CountLogs_status_mismatch :
  QueryLogs noTimes twoRows 0 100 {[ "status_code" := JInt 404 ]}
    = ([rowAged 2 "/a_b" 404 1], None)
  /\ CountLogs noTimes twoRows {[ "status_code" := JInt 404 ]} = (2, None)
  /\ GetLogs noTimes twoRows 1 20 "" "" (Some 404) "" "" = inl (2, [rowAged 2 "/a_b" 404 1]).
Proof. repeat split; vm_compute; reflexivity. Qed.

(** The same for a path filter. *)
Example CountLogs_path_mismatch :
  QueryLogs noTimes twoRows 0 100 {[ "path" := JStr "a_b" ]} = ([rowAged 2 "/a_b" 404 1], None)
  /\ CountLogs noTimes twoRows {[ "path" := JStr "a_b" ]} = (2, None).
Proof. repeat split; vm_compute; reflexivity. Qed.

Lemma QueryLogs_path_is_a_pattern_witness :
  exists found,
    QueryLogs noTimes twoRows 0 100 {[ "path" := JStr "_" ]} = (found, None)
    /\ forall r, r ∈ found <-> r ∈ DB.rows twoRows /\ LIKE ("%" +:+ "_" +:+ "%") (DB.Path r) = true.
Proof.
  apply (QueryLogs_path_is_a_pattern noTimes twoRows 100 "_").
  - reflexivity.
  - reflexivity.
  - discriminate.
  - simpl. lia.
Defined.

(** The filter "_" on the two rows: both come back, the one on /ab too,
    which has no underscore in its path. So does every path that is not
    empty; and the filter "%" matches every path. *)
Example QueryLogs_underscore :
  QueryLogs noTimes twoRows 0 100 {[ "path" := JStr "_" ]}
    = ([rowAged 2 "/a_b" 404 1; rowAged 1 "/ab" 200 2], None)
  /\ ~ contains (list_ascii_of_string "_") (list_ascii_of_string "/ab")
  /\ (forall text, text <> "" -> LIKE ("%" +:+ "_" +:+ "%") text = true)
  /\ (forall text, LIKE ("%" +:+ "%" +:+ "%") text = true).
Proof.
  split; [vm_compute; reflexivity|]. split; [|split].
  - intros (a & b & Hs). simpl in Hs.
    destruct a as [|x1 [|x2 [|x3 [|x4 a]]]]; simpl in Hs; try discriminate;
      destruct b; discriminate.
  - intros text Ht.
    change (like ["%"; "_"; "%"]%char (list_ascii_of_string text) = true).
    apply like_percent_underscore. destruct text; [contradiction | discriminate].
  - intros text.
    change (like ["%"; "%"; "%"]%char (list_ascii_of_string text) = true).
    apply like_percent.
    exists [], (list_ascii_of_string text). split; [reflexivity|].
    apply like_percent. exists (list_ascii_of_string text), []. split; [by rewrite app_nil_r|].
    apply like_only_percent.
Qed.

(** ** The store: clean-up *)

(** C9. On a store that answers, DeleteOldLogs(days) removes exactly the
    rows created more than [days] days before the destination's current
    time, keeps the others as they are, and returns how many it removed. *)
Theorem DeleteOldLogs_removes_older (st : DB.Store) (days : Z) :
  DB.unavailable st = None ->
  let older := fun r => days * microsPerDay < DB.serverNow st - DB.CreatedAt r in
  DeleteOldLogs st days =
    (DB.setRows (filter (fun r => ~ older r) (DB.rows st)) st,
     (Z.of_nat (length (filter older (DB.rows st))), None)).
Proof.
  intros Hup older. unfold DeleteOldLogs. rewrite Hup.
  assert (Hcut : forall q, (q = DateSubNow days \/ q = NowMinusInterval days) ->
                 cutoffTime st q = DB.serverNow st - days * microsPerDay).
  { by intros q [-> | ->]. }
  rewrite Hcut by (destruct (isMySQL st); auto).
  assert (Hkeep : filter (fun r => (DB.CreatedAt r <? DB.serverNow st - days * microsPerDay) = false)
                    (DB.rows st) = filter (fun r => ~ older r) (DB.rows st)).
  { apply list_filter_iff. intros r. unfold older. rewrite Z.ltb_ge. lia. }
  rewrite Hkeep. f_equal. f_equal.
  pose proof (Permutation_length (filter_app_complement older (DB.rows st))) as Hlen.
  rewrite length_app in Hlen. lia.
Qed.

(** Rows aged 10, 8, 6 and 1 days, and DeleteOldLogs(7): the two rows aged
    10 and 8 days go, the two aged 6 and 1 days stay, and 2 is returned. *)
Lemma DeleteOldLogs_removes_older_witness :
  DB.unavailable fourRows = None
  /\ DeleteOldLogs fourRows 7 =
       (storeOf [rowAged 3 "/c" 200 6; rowAged 4 "/d" 200 1], (2, None)).
Proof.
  split; [reflexivity|].
  rewrite (DeleteOldLogs_removes_older fourRows 7 eq_refl).
  vm_compute. reflexivity.
Defined.

(** The boundary: a row created exactly [days] days ago stays. *)
Example DeleteOldLogs_boundary :
  DeleteOldLogs (storeOf [rowAged 1 "/a" 200 7]) 7 = (storeOf [rowAged 1 "/a" 200 7], (0, None)).
Proof. vm_compute. reflexivity. Qed.

(** * Further properties of the code

    What the sources show beyond the statements of the specification. *)

(** ** The sinks: Close, Flush and nil entries *)

Section MoreSinkProperties.
Context {D : Type} `{Destination D}.

Lemma wgWait_closed (h : Heap) (fuel : nat) :
  forall s s' : Sink D, Sink.wgWait fuel h s = Ret s' -> closed s' = closed s.
Proof.
  induction fuel as [|fuel IH]; intros s s'; simpl.
  - destruct (Sink.wgZero (drain s)); [by intros [= <-] | discriminate].
  - destruct (Sink.wgZero (drain s)); [by intros [= <-]|].
    destruct (Sink.drainStep h s) as [s1|] eqn:Es; [|discriminate].
    rewrite <- (drainStep_closed h s s1 Es).
    destruct (drain s1); try discriminate; by apply IH.
Qed.

Lemma Close_closed (h : Heap) (fuel : nat) (s s' : Sink D) (err : error) :
  Sink.Close fuel h s = Ret (s', err) -> closed s' = true.
Proof.
  unfold Sink.Close. destruct (closed s) eqn:Ec; [by intros [= <- <-]|].
  simpl. destruct (bufferCh s) as [ch|].
  - destruct (chClosed ch); [discriminate|].
    destruct (Sink.wgWait fuel h _) as [s2| |] eqn:Ew; try discriminate.
    apply wgWait_closed in Ew. simpl in Ew.
    destruct (release (dest s2)) as [d e]. by intros [= <- <-].
  - destruct (release _) as [d e]. by intros [= <- <-].
Qed.

(** Once Close has returned, the logger is closed for good: every later
    Write returns the error "logger is closed" and leaves the logger as it
    is, and every later Close returns nil and does nothing. *)
Theorem Close_seals (h : Heap) (fuel : nat) (s s' : Sink D) (err : error) :
  Sink.Close fuel h s = Ret (s', err) ->
  closed s' = true
  /\ (forall e, Sink.Write h s' e = Ret (s', Some "logger is closed"))
  /\ (forall fuel', Sink.Close fuel' h s' = Ret (s', None)).
Proof.
  intros Hc. apply Close_closed in Hc. split; [exact Hc|].
  split; intros; [unfold Sink.Write | unfold Sink.Close]; by rewrite Hc.
Qed.

Lemma drainStep_sealed (h : Heap) (s s' : Sink D) :
  sealed s -> Sink.drainStep h s = Some s' -> sealed s'.
Proof.
  intros (ch & Hch & Hcc). unfold Sink.drainStep, sealed. rewrite Hch.
  destruct (drain s) eqn:Ed; try discriminate;
    try (destruct (buffer ch); intros [= <-]; simpl; by eauto);
    try (rewrite Hcc; intros [= <-]; simpl; by eauto);
    (destruct (Sink.persistLogged _ h e s) as [s1|] eqn:Ep; intros [= <-]; simpl;
     [apply persistLogged_frame in Ep as (-> & _ & _) |]; by eauto).
Qed.

Lemma wgWait_sealed (h : Heap) (fuel : nat) :
  forall s s' : Sink D, sealed s -> Sink.wgWait fuel h s = Ret s' -> sealed s'.
Proof.
  induction fuel as [|fuel IH]; intros s s' Hs; simpl.
  - destruct (Sink.wgZero (drain s)); [by intros [= <-] | discriminate].
  - destruct (Sink.wgZero (drain s)); [by intros [= <-]|].
    destruct (Sink.drainStep h s) as [s1|] eqn:Es; [|discriminate].
    pose proof (drainStep_sealed h s s1 Hs Es).
    destruct (drain s1); try discriminate; by apply IH.
Qed.

Lemma flushBuffer_sealed (h : Heap) (fuel : nat) :
  forall s : Sink D, sealed s -> returned (Sink.flushBuffer fuel h s) = None.
Proof.
  induction fuel as [|fuel IH]; intros s (ch & Hch & Hcc); simpl;
    unfold Sink.tryReceive; rewrite Hch, Hcc.
  - by destruct (buffer ch).
  - destruct (buffer ch) as [|e rest].
    + destruct (Sink.persistLogged _ h None s) as [s1|] eqn:Ep; [|reflexivity].
      apply IH. apply persistLogged_frame in Ep as (Hb & _ & _).
      exists ch. by rewrite Hb.
    + destruct (Sink.persistLogged _ h e _) as [s1|] eqn:Ep; [|reflexivity].
      apply IH. apply persistLogged_frame in Ep as (Hb & _ & _).
      eexists. rewrite Hb. simpl. split; reflexivity.
Qed.

(** Flush on a logger that Close has closed does not return: the select of
    flushBuffer finds the closed channel ready every time, receives nil after
    nil and never takes its default (a DBLogger panics on the first nil). *)
Theorem Flush_after_Close_never_returns (h : Heap) (s s' : Sink D) (err : error)
    (fuel fuel' : nat) :
  wf s -> closed s = false ->
  Sink.Close fuel h s = Ret (s', err) ->
  returned (Sink.Flush fuel' h s') = None.
Proof.
  intros (ch & Hch & _) Hopen. unfold Sink.Close. rewrite Hopen. simpl. rewrite Hch.
  destruct (chClosed ch); [discriminate|].
  destruct (Sink.wgWait fuel h _) as [s2| |] eqn:Ew; try discriminate.
  apply wgWait_sealed in Ew; [|eexists; split; reflexivity].
  destruct (release (dest s2)) as [d e]. intros [= <- <-].
  destruct Ew as (ch2 & Hch2 & Hcc2).
  unfold Sink.Flush. simpl. rewrite Hch2.
  apply flushBuffer_sealed. exists ch2. by split.
Qed.

(** Write(nil) on an open logger: when the send can go through, the nil
    pointer is staged like any entry and nil is returned; when it cannot, the
    diagnostic reads entry.Method and Write panics. *)
Theorem Write_nil (h : Heap) (s : Sink D) :
  wf s -> closed s = false ->
  match Sink.Write h s None with
  | Ret (s', err) =>
      hasRoom s = true /\ err = None /\ staged s' = staged s ++ [None]
      /\ dest s' = dest s /\ stderr s' = stderr s
  | Panics => hasRoom s = false
  | OutOfFuel => False
  end.
Proof.
  intros (ch & Hch & Hcl & Hpk & Hlen) Hopen.
  assert (Hcc : chClosed ch = false).
  { destruct (chClosed ch); [|reflexivity]. specialize (Hcl eq_refl). congruence. }
  unfold Sink.Write, hasRoom, staged, buffered. rewrite Hopen, Hch, Hcc.
  destruct (drain s) eqn:Ed;
    try (destruct (length (buffer ch) <? capacity ch)%nat; simpl; rewrite ?Ed, ?Hch; simpl;
         repeat split; by rewrite ?app_assoc).
  simpl. rewrite Hch, (Hpk eq_refl). by repeat split.
Qed.


Lemma persistLogged_healthy (diag : string) (h : Heap) (e : ptr) (f : File) (c : option Chan)
    (cl : bool) (pc : drain_pc) (errs : list string) :
  healthy f ->
  exists errs',
    Sink.persistLogged diag h e (mkSink f c cl pc errs) =
      Some (mkSink (mkFile (lines f ++ option_list (marshalEntry h e)) true None None)
              c cl pc errs').
Proof.
  intros Hf. unfold Sink.persistLogged. simpl.
  destruct (writeEntry_healthy h e f Hf) as [[err|] ->]; by eexists.
Qed.

Lemma flushBuffer_healthy (h : Heap) (cap : nat) (cl : bool) (pc : drain_pc) (buf : list ptr) :
  forall (f : File) (errs : list string) (fuel : nat),
    healthy f -> (length buf <= fuel)%nat ->
    exists errs',
      Sink.flushBuffer fuel h (mkSink f (Some (mkChan buf cap false)) cl pc errs) =
        Ret (mkSink (mkFile (lines f ++ omap (marshalEntry h) buf) true None None)
               (Some (mkChan [] cap false)) cl pc errs').
Proof.
  induction buf as [|e buf IH]; intros f errs fuel Hf Hfuel.
  - exists errs. destruct fuel; simpl; rewrite app_nil_r;
      destruct Hf as (Ho & Hfa & Hw); destruct f; simpl in *; by subst.
  - destruct fuel as [|fuel]; [simpl in Hfuel; lia|].
    cbn [Sink.flushBuffer Sink.tryReceive bufferCh buffer capacity chClosed].
    unfold Sink.setChan. cbn [dest closed drain stderr].
    destruct (persistLogged_healthy "failed to flush log: " h e f
                (Some (mkChan buf cap false)) cl pc errs Hf) as [errs1 ->].
    destruct (IH (mkFile (lines f ++ option_list (marshalEntry h e)) true None None) errs1 fuel)
      as [errs' ->]; [done | simpl in Hfuel; lia |].
    exists errs'. by rewrite omap_cons_option_list, app_assoc.
Qed.

(** Flush on a FileLogger whose channel is open and whose file takes the
    writes: it returns, having written every buffered entry json.Marshal
    encodes to the file, in order, and the buffer is empty. This is the one
    way the entries staged in a logger built with async = false reach the
    file. *)
Theorem Flush_writes_buffer (h : Heap) (s : FileLogger) (ch : Chan) (fuel : nat) :
  bufferCh s = Some ch -> chClosed ch = false -> healthy (dest s) ->
  (length (buffer ch) <= fuel)%nat ->
  exists s',
    Sink.Flush fuel h s = Ret s'
    /\ lines (dest s') = lines (dest s) ++ omap (marshalEntry h) (buffer ch)
    /\ buffered s' = []
    /\ closed s' = closed s /\ drain s' = drain s.
Proof.
  intros Hch Hcc Hf Hfuel. unfold Sink.Flush. rewrite Hch.
  destruct s as [f c cl pc errs]. simpl in *. subst c.
  destruct ch as [buf cap cc]. simpl in *. subst cc.
  destruct (flushBuffer_healthy h cap cl pc buf f errs fuel Hf Hfuel) as [errs' ->].
  eexists. split; [reflexivity|]. by repeat split.
Qed.

Lemma Write_staged (h : Heap) (s s' : Sink D) (e : ptr) (err : error) :
  wf s -> closed s = false -> Sink.Write h s e = Ret (s', err) ->
  dest s' = dest s
  /\ exists acc, acc `sublist_of` [e] /\ staged s' = staged s ++ acc.
Proof.
  intros (ch & Hch & Hcl & Hpk & Hlen) Hopen.
  unfold Sink.Write, staged, buffered. rewrite Hopen, Hch.
  destruct (chClosed ch); [discriminate|].
  destruct (drain s) eqn:Ed;
    try (destruct (length (buffer ch) <? capacity ch)%nat;
         [ intros [= <- <-]; split; [reflexivity|]; exists [e]; split; [reflexivity|];
           simpl; rewrite Ed; simpl; by rewrite ?app_assoc
         | destruct e; [|discriminate]; intros [= <- <-]; split; [reflexivity|];
           exists []; split; [apply sublist_nil_l|];
           simpl; rewrite Ed, Hch; simpl; by rewrite ?app_nil_r ]).
  intros [= <- <-]. split; [reflexivity|].
  exists [e]. split; [reflexivity|]. simpl. by rewrite Hch, (Hpk eq_refl).
Qed.

End MoreSinkProperties.

Lemma Write_journal (h : Heap) (s s' : FileLogger) (e : ptr) (err : error) :
  wf s -> closed s = false -> Sink.Write h s e = Ret (s', err) ->
  dest s' = dest s
  /\ exists acc, acc `sublist_of` [e] /\ journal h s' = journal h s ++ omap (marshalEntry h) acc.
Proof.
  intros Hwf Hopen Hw.
  destruct (Write_staged h s s' e err Hwf Hopen Hw) as (Hd & acc & Hsub & Hst).
  split; [exact Hd|]. exists acc. split; [exact Hsub|].
  unfold journal. by rewrite Hd, Hst, omap_app, app_assoc.
Qed.

Lemma drainStep_journal (h : Heap) (s s' : FileLogger) :
  wf s -> closed s = false -> running s -> healthy (dest s) ->
  Sink.drainStep h s = Some s' ->
  healthy (dest s') /\ journal h s' = journal h s.
Proof.
  intros (ch & Hch & Hcl & Hpk & Hlen) Hopen Hrun Hf.
  assert (Hcc : chClosed ch = false).
  { destruct (chClosed ch); [|reflexivity]. specialize (Hcl eq_refl). congruence. }
  destruct s as [f c cl pc errs]. simpl in *. subst c.
  unfold Sink.drainStep, running, journal, staged, buffered in *. simpl in *. rewrite Hcc.
  destruct pc; try contradiction; try discriminate.
  - destruct (buffer ch) as [|e rest] eqn:Eb; intros [= <-]; simpl; rewrite ?Eb; by split.
  - match goal with |- context [Sink.persistLogged ?diag _ _ _] =>
      destruct (persistLogged_healthy diag h e f (Some ch) cl (Holding e) errs Hf)
        as [errs' ->] end.
    intros [= <-]. simpl. split; [done|].
    rewrite <- app_assoc. f_equal. by destruct (marshalEntry h e).
Qed.

Lemma play_journal (h : Heap) (evs : list event) :
  forall s s' : FileLogger,
    wf s -> closed s = false -> running s -> healthy (dest s) ->
    play h evs s = Ret s' ->
    exists acc, acc `sublist_of` writes evs
      /\ journal h s' = journal h s ++ omap (marshalEntry h) acc.
Proof.
  induction evs as [|[e|] evs IH]; intros s s' Hwf Hopen Hrun Hf; simpl.
  - intros [= <-]. exists []. split; [reflexivity|]. by rewrite app_nil_r.
  - destruct (Sink.Write h s e) as [[s1 err]| |] eqn:Ew; try discriminate.
    destruct (Write_running h s s1 e err Hopen Hrun Ew) as [Hopen1 Hrun1].
    destruct (Write_journal h s s1 e err Hwf Hopen Ew) as (Hd & acc1 & Hsub1 & Hj1).
    intros Hp. destruct (IH s1 s' (Write_wf h s s1 e err Hwf Ew) Hopen1 Hrun1) as (acc2 & Hsub2 & Hj2);
      [by rewrite Hd | exact Hp |].
    exists (acc1 ++ acc2). split.
    + change (e :: writes evs) with ([e] ++ writes evs). by apply sublist_app.
    + by rewrite Hj2, Hj1, omap_app, app_assoc.
  - destruct (Sink.drainStep h s) as [s1|] eqn:Es; [|by apply IH].
    destruct (drainStep_journal h s s1 Hwf Hopen Hrun Hf Es) as [Hf1 Hj1].
    destruct (drainStep_running h s s1 Hwf Hopen Hrun Es) as [Hrun1 | Hcr]; [|by rewrite Hcr].
    pose proof (drainStep_wf h s s1 Hwf Es) as Hwf1.
    pose proof (drainStep_closed h s s1 Es) as Hc1. rewrite Hopen in Hc1.
    intros Hp. assert (Hp' : play h evs s1 = Ret s').
    { unfold running in Hrun1. by destruct (drain s1). }
    destruct (IH s1 s' Hwf1 Hc1 Hrun1 Hf1 Hp') as (acc & Hsub & Hj).
    exists acc. split; [exact Hsub|]. by rewrite Hj, Hj1.
Qed.

(** While an async FileLogger runs on a file that takes the writes, nothing
    is duplicated, reordered or made up: after any history of Writes and
    drain steps, the lines of the file followed by the lines of the entries
    still staged are the lines of a subsequence of the entries written, in
    the order they were written. *)
Theorem async_FileLogger_keeps_order (h : Heap) (f : File) (n : nat) (evs : list event)
    (s0 s : FileLogger) :
  healthy f ->
  NewFileLogger f true (Z.of_nat n) = Ret s0 ->
  play h evs s0 = Ret s ->
  exists acc,
    acc `sublist_of` writes evs
    /\ lines (dest s) ++ omap (marshalEntry h) (staged s) = lines f ++ omap (marshalEntry h) acc.
Proof.
  intros Hf Hnew Hplay. unfold NewFileLogger in Hnew.
  destruct (New_wf f true (Z.of_nat n) s0 Hnew) as (Hwf & Hopen & Hd).
  assert (Hs0 : s0 = mkSink f (Some (mkChan [] n false)) false AtSelect []).
  { rewrite New_nat in Hnew. by injection Hnew as <-. }
  assert (Hrun : running s0) by (by rewrite Hs0).
  destruct (play_journal h evs s0 s Hwf Hopen Hrun) as (acc & Hsub & Hj);
    [by rewrite Hd | exact Hplay |].
  exists acc. split; [exact Hsub|]. unfold journal in Hj. rewrite Hj, Hs0. simpl.
  by rewrite app_nil_r.
Qed.

Lemma syncTwoFull_wf : wf syncTwoFull.
Proof.
  exists (mkChan [Some 1%nat; Some 2%nat] 2 false). unfold syncTwoFull. simpl.
  repeat split; try discriminate. lia.
Qed.

Lemma emptyFile_healthy : healthy emptyFile.
Proof. by repeat split. Qed.

(** Close on the synchronous logger with two entries staged, and what comes
    after it. *)
Lemma Close_seals_witness :
  exists s',
    Sink.Close 0 twoEntries syncTwoFull = Ret (s', None)
    /\ closed s' = true
    /\ (forall e, Sink.Write twoEntries s' e = Ret (s', Some "logger is closed"))
    /\ (forall fuel', Sink.Close fuel' twoEntries s' = Ret (s', None)).
Proof.
  eexists. split; [reflexivity|].
  exact (Close_seals twoEntries 0 syncTwoFull _ None eq_refl).
Defined.

Lemma Flush_after_Close_never_returns_witness :
  exists s',
    Sink.Close 0 twoEntries syncTwoFull = Ret (s', None)
    /\ returned (Sink.Flush 100 twoEntries s') = None.
Proof.
  eexists. split; [reflexivity|].
  exact (Flush_after_Close_never_returns twoEntries syncTwoFull _ None 0 100
           syncTwoFull_wf eq_refl eq_refl).
Defined.

(** Both slots taken: Write(nil) panics. *)
Lemma Write_nil_witness :
  Sink.Write twoEntries asyncTwoFull None = Panics /\ hasRoom asyncTwoFull = false.
Proof.
  split; [reflexivity|].
  exact (Write_nil twoEntries asyncTwoFull asyncTwoFull_wf eq_refl).
Defined.

(** Flush on the synchronous logger with two entries staged writes the two
    records. *)
Lemma Flush_writes_buffer_witness :
  exists s',
    Sink.Flush 2 twoEntries syncTwoFull = Ret s'
    /\ lines (dest s') = lines (dest syncTwoFull) ++ [recordA; recordB]
    /\ buffered s' = []
    /\ closed s' = closed syncTwoFull /\ drain s' = drain syncTwoFull.
Proof.
  exact (Flush_writes_buffer twoEntries syncTwoFull (mkChan [Some 1%nat; Some 2%nat] 2 false) 2
           eq_refl eq_refl emptyFile_healthy (le_n 2)).
Defined.

Lemma async_FileLogger_keeps_order_witness :
  exists s,
    play twoEntries [WriteEv (Some 1%nat); DrainEv; WriteEv (Some 2%nat); WriteEv (Some 2%nat);
                     WriteEv (Some 1%nat); DrainEv] asyncTwo = Ret s
    /\ exists acc,
         acc `sublist_of` [Some 1%nat; Some 2%nat; Some 2%nat; Some 1%nat]
         /\ lines (dest s) ++ omap (marshalEntry twoEntries) (staged s) =
              lines emptyFile ++ omap (marshalEntry twoEntries) acc.
Proof.
  eexists. split; [reflexivity|].
  exact (async_FileLogger_keeps_order twoEntries emptyFile 2
           [WriteEv (Some 1%nat); DrainEv; WriteEv (Some 2%nat); WriteEv (Some 2%nat);
            WriteEv (Some 1%nat); DrainEv] asyncTwo _ emptyFile_healthy eq_refl eq_refl).
Defined.

(** ** The middleware: custom fields, the request body, a closed logger *)

Section MoreMiddlewareProperties.
Context {L : Type} `{Logger L}.
Variable formatTime : string -> Z -> string.

Lemma SetLogField_maps (key : string) (value : json) (w : World L) (l : loc) (m : loc) :
  keys w !! logEntryKey = Some (CEntry (Some l)) ->
  CustomFields (deref (heap w) l) <> Some m ->
  is_Some (cmaps (heap w) !! m) ->
  cmaps (heap (SetLogField key value w)) !! m = cmaps (heap w) !! m.
Proof.
  intros Hk Hm [x Hx]. unfold SetLogField, GetLogEntry. rewrite Hk.
  destruct (CustomFields (deref (heap w) l)) as [m0|] eqn:Ec; simpl.
  - rewrite lookup_insert_ne; [reflexivity | congruence].
  - rewrite lookup_insert_ne; [reflexivity|]. intros <-. by rewrite fresh_map in Hx.
Qed.

(** SetLogField on a context that holds an entry: the entry's custom fields
    become the old ones with the key set to the value (a map is made when
    the entry had none), the other fields of the entry stay, and no other
    entry and no other map changes. *)
Theorem SetLogField_adds_field (key : string) (value : json) (w : World L) (l : loc) :
  keys w !! logEntryKey = Some (CEntry (Some l)) ->
  let w' := SetLogField key value w in
  let e := deref (heap w) l in
  let e' := deref (heap w') l in
  GetLogEntry w' = Some l
  /\ mapOf (heap w') (CustomFields e') = <[ key := value ]> (mapOf (heap w) (CustomFields e))
  /\ setCustomFields None e' = setCustomFields None e
  /\ (forall l', l' <> l -> entries (heap w') !! l' = entries (heap w) !! l')
  /\ (forall m, CustomFields e <> Some m -> is_Some (cmaps (heap w) !! m) ->
        cmaps (heap w') !! m = cmaps (heap w) !! m).
Proof.
  intros Hk. unfold SetLogField, GetLogEntry. rewrite Hk.
  destruct (CustomFields (deref (heap w) l)) as [m|] eqn:Ec; simpl.
  - rewrite Hk. split; [reflexivity|]. unfold deref. simpl. fold (deref (heap w) l).
    rewrite Ec. simpl. rewrite lookup_insert_eq. simpl.
    split; [reflexivity|]. split; [reflexivity|]. split; [reflexivity|].
    intros m' Hm' _. rewrite lookup_insert_ne; [reflexivity | congruence].
  - rewrite Hk. split; [reflexivity|]. unfold deref. simpl. rewrite lookup_insert_eq. simpl.
    rewrite lookup_insert_eq. simpl. split; [reflexivity|]. split; [|split].
    + fold (deref (heap w) l). by destruct (deref (heap w) l).
    + intros l' Hl'. by rewrite lookup_insert_ne.
    + intros m' _ [x Hx]. rewrite lookup_insert_ne; [reflexivity|].
      intros <-. by rewrite fresh_map in Hx.
Qed.

(** What instrument leaves of the world the chain returned. *)
Lemma instrument_world (customFields : option loc) (timeFormat : string)
    (next : World L -> World L) (w : World L) :
  let after := next (chainInput w) in
  let w1 := fst (instrument formatTime customFields timeFormat next w) in
  let bodyBytes := default [] (reqBody (request w)) in
  request w1 = (if (0 <? length bodyBytes)%nat
                then setBody (Some bodyBytes) (request after) else request after)
  /\ logger w1 = logger after
  /\ config w1 = config after
  /\ tasks w1 = tasks after
  /\ status w1 = status after
  /\ (forall m, is_Some (cmaps (heap after) !! m) -> cmaps (heap w1) !! m = cmaps (heap after) !! m)
  /\ (forall l, is_Some (entries (heap after) !! l) ->
        entries (heap w1) !! l = entries (heap after) !! l).
Proof.
  unfold instrument, chainInput.
  set (w0 := match reqBody (request w) with
             | Some _ => setRequest (setBody (Some (default [] (reqBody (request w)))) (request w)) w
             | None => w
             end).
  assert (Hw0 : w0 = match reqBody (request w) with
                     | Some b => mkWorld (heap w) (setBody (Some b) (request w)) (keys w)
                                   (status w) (config w) (now w) (logger w) (tasks w)
                     | None => w
                     end) by (subst w0; by destruct (reqBody (request w))).
  rewrite <- Hw0. clear Hw0. generalize (next w0). intros after.
  destruct (0 <? length (default [] (reqBody (request w))))%nat;
    destruct customFields as [t|]; simpl; unfold allocEntry, allocMap; simpl;
    (do 5 (split; [reflexivity|]); split;
     [ intros m [x Hx] | intros l [x Hx] ];
     try reflexivity;
     rewrite lookup_insert_ne; try reflexivity; intros <-;
     first [ by rewrite fresh_map in Hx | by rewrite fresh_entry in Hx ]).
Qed.



(** The template of custom fields is copied into the entry, not shared with
    it: the entry of an instrumented request gets a map of its own with the
    keys and values the template has when the chain returns, and a
    SetLogField on that entry leaves the template as it is. *)
Theorem handle_copies_template (next : World L -> World L) (w : World L) (l t : loc) :
  Config.CustomFields (config w) = Some t ->
  fst (handle formatTime next w) = Instrumented l ->
  let after := next (chainInput w) in
  is_Some (cmaps (heap after) !! t) ->
  exists w1 m,
    snd (handle formatTime next w) = dispatch (Config.Async (config w)) l w1
    /\ CustomFields (deref (heap w1) l) = Some m
    /\ m <> t
    /\ mapOf (heap w1) (Some m) = mapOf (heap after) (Some t)
    /\ (forall key value,
          cmaps (heap (SetLogField key value w1)) !! t = cmaps (heap after) !! t).
Proof.
  intros Ht. unfold handle.
  destruct (negb (Config.Enabled (config w))); [discriminate|].
  destruct (_ && _); [discriminate|].
  pose proof (instrument_entry formatTime (Config.CustomFields (config w))
                (Config.TimeFormat (config w)) next w) as Hi.
  pose proof (instrument_world (Config.CustomFields (config w))
                (Config.TimeFormat (config w)) next w) as Hw.
  destruct (instrument _ _ _ _ _) as [w1 l1]. simpl in *. intros [= ->] Hsome.
  destruct Hi as (_ & Hkey & _ & _ & _ & _ & _ & _ & Hmap & Hc).
  destruct Hw as (_ & _ & _ & _ & _ & Hcm & _).
  rewrite Ht in Hc, Hmap. destruct Hc as (m & Hm & Hfresh).
  exists w1, m. split; [reflexivity|]. split; [exact Hm|].
  assert (Hne : m <> t).
  { intros ->. destruct Hsome as [x Hx]. by rewrite Hfresh in Hx. }
  split; [exact Hne|]. split; [by rewrite Hm in Hmap|].
  intros key value.
  rewrite (SetLogField_maps key value w1 l t Hkey);
    [by apply Hcm | rewrite Hm; congruence | by rewrite Hcm].
Qed.

(** The request body survives the middleware: the chain is given the whole
    body to read, and when the chain returns a body that was not empty is
    put back in full, whatever the chain read of it. *)
Theorem handle_restores_body (next : World L -> World L) (w : World L) (l : loc)
    (b : list ascii) :
  reqBody (request w) = Some b ->
  fst (handle formatTime next w) = Instrumented l ->
  let after := next (chainInput w) in
  reqBody (request (chainInput w)) = Some b
  /\ exists w1,
       snd (handle formatTime next w) = dispatch (Config.Async (config w)) l w1
       /\ request w1 = (if decide (b = []) then request after
                        else setBody (Some b) (request after)).
Proof.
  intros Hb. unfold handle.
  destruct (negb (Config.Enabled (config w))); [discriminate|].
  destruct (_ && _); [discriminate|].
  pose proof (instrument_world (Config.CustomFields (config w))
                (Config.TimeFormat (config w)) next w) as Hw.
  destruct (instrument _ _ _ _ _) as [w1 l1]. simpl in *. intros [= ->].
  split; [unfold chainInput; by rewrite Hb|].
  exists w1. split; [reflexivity|].
  destruct Hw as (Hr & _). rewrite Hr, Hb. simpl.
  destruct b; by destruct (decide _).
Qed.

End MoreMiddlewareProperties.

Section ClosedLogger.
Context {D : Type} `{Destination D}.
Variable formatTime : string -> Z -> string.

(** The middleware drops the error of Write: with synchronous dispatch on a
    logger that is closed, the request is served as the chain served it, and
    the logger is left as it was; nothing is recorded and nobody is told. *)
Theorem handle_on_closed_logger (next : World (Sink D) -> World (Sink D))
    (w : World (Sink D)) (l : loc) :
  Config.Async (config w) = false ->
  closed (logger (next (chainInput w))) = true ->
  fst (handle formatTime next w) = Instrumented l ->
  exists w1,
    snd (handle formatTime next w) = Ret w1
    /\ logger w1 = logger (next (chainInput w))
    /\ status w1 = status (next (chainInput w)).
Proof.
  intros Ha Hcl. unfold handle.
  destruct (negb (Config.Enabled (config w))); [discriminate|].
  destruct (_ && _); [discriminate|].
  pose proof (instrument_world formatTime (Config.CustomFields (config w))
                (Config.TimeFormat (config w)) next w) as Hw.
  destruct (instrument _ _ _ _ _) as [w1 l1]. simpl in *. intros [= ->].
  destruct Hw as (_ & Hlg & _ & _ & Hst & _).
  unfold dispatch. rewrite Ha. simpl. rewrite Hlg. unfold Sink.Write. rewrite Hcl.
  eexists. split; [reflexivity|]. by split.
Qed.

End ClosedLogger.


Lemma SetLogField_adds_field_witness :
  GetLogEntry (SetLogField "role" (JStr "admin") attachedWorld) = Some 1%nat
  /\ mapOf (heap (SetLogField "role" (JStr "admin") attachedWorld)) (Some 1%nat)
     = <[ "role" := JStr "admin" ]> {[ "user_id" := JStr "12345" ]}.
Proof.
  destruct (SetLogField_adds_field "role" (JStr "admin") attachedWorld 1%nat eq_refl)
    as (Hg & Hm & _).
  split; [exact Hg | exact Hm].
Defined.

Lemma handle_copies_template_witness :
  exists w1 m,
    snd (handle stamp readBody templateWorld) = dispatch false 0%nat w1
    /\ CustomFields (deref (heap w1) 0%nat) = Some m
    /\ m <> 7%nat
    /\ mapOf (heap w1) (Some m) = {[ "service" := JStr "api" ]}.
Proof.
  destruct (handle_copies_template stamp readBody templateWorld 0%nat 7%nat eq_refl eq_refl
              (ex_intro _ _ eq_refl)) as (w1 & m & Hs & Hc & Hne & Hm & _).
  exists w1, m. repeat split; assumption.
Defined.

Lemma handle_restores_body_witness :
  reqBody (request (readBody (chainInput templateWorld))) = Some []
  /\ exists w1,
       snd (handle stamp readBody templateWorld) = dispatch false 0%nat w1
       /\ reqBody (request w1) = Some ["h"; "i"]%char.
Proof.
  split; [reflexivity|].
  destruct (handle_restores_body stamp readBody templateWorld 0%nat ["h"; "i"]%char eq_refl eq_refl)
    as (_ & w1 & Hs & Hr).
  exists w1. split; [exact Hs|]. by rewrite Hr.
Defined.

Lemma handle_on_closed_logger_witness :
  exists w1,
    snd (handle stamp readBody templateWorld) = Ret w1
    /\ logger w1 = logger templateWorld
    /\ status w1 = 200.
Proof.
  exact (handle_on_closed_logger stamp readBody templateWorld 0%nat eq_refl eq_refl eq_refl).
Defined.

(** ** The text helpers: joinStrings, splitComma, ParseSkipPaths *)

(** joinStrings is strings.Join: the strings in order with the separator
    between each two, nothing before the first and nothing after the last;
    the empty string for no strings. *)
Theorem joinStrings_is_Join (strs : list string) (sep : string) :
  joinStrings strs sep = String.concat sep strs.
Proof.
  destruct strs as [|first rest]; [reflexivity|]. unfold joinStrings.
  revert first. induction rest as [|s rest IH]; intros first; [reflexivity|].
  cbn [fold_left]. rewrite IH.
  change (String.concat sep (first :: s :: rest))
    with (first +:+ sep +:+ String.concat sep (s :: rest)).
  destruct rest as [|s' rest]; [reflexivity|].
  change (String.concat sep (s :: s' :: rest))
    with (s +:+ sep +:+ String.concat sep (s' :: rest)).
  change (String.concat sep ((first +:+ sep +:+ s) :: s' :: rest))
    with ((first +:+ sep +:+ s) +:+ sep +:+ String.concat sep (s' :: rest)).
  by rewrite !append_assoc'.
Qed.

Lemma append_empty_r (s : string) : s +:+ "" = s.
Proof. induction s as [|c s IH]; [reflexivity|]. by rewrite append_cons, IH. Qed.

Lemma splitCommaFrom_piece (s : string) :
  forall piece : string,
    splitCommaFrom piece s =
      match splitComma s with x :: xs => (piece +:+ x) :: xs | [] => [] end.
Proof.
  unfold splitComma. induction s as [|c s IH]; intros piece.
  - simpl. by rewrite append_empty_r.
  - cbn [splitCommaFrom]. destruct (Ascii.eqb c ","); [by rewrite append_empty_r|].
    rewrite (IH (piece +:+ String c "")), (IH ("" +:+ String c "")).
    destruct (splitCommaFrom "" s) as [|x xs]; [reflexivity|].
    by rewrite append_assoc'.
Qed.

Lemma splitComma_cons (c : ascii) (s : string) :
  splitComma (String c s) =
    if Ascii.eqb c "," then "" :: splitComma s
    else match splitComma s with x :: xs => String c x :: xs | [] => [] end.
Proof.
  unfold splitComma at 1. cbn [splitCommaFrom].
  destruct (Ascii.eqb c ","); [reflexivity|]. by rewrite splitCommaFrom_piece.
Qed.

Lemma splitComma_nonempty (s : string) : splitComma s <> [].
Proof.
  induction s as [|c s IH]; [discriminate|]. rewrite splitComma_cons.
  destruct (Ascii.eqb c ","); [discriminate|]. by destruct (splitComma s).
Qed.

Lemma concat_cons_char (sep : string) (c : ascii) (x : string) (xs : list string) :
  String.concat sep (String c x :: xs) = String c (String.concat sep (x :: xs)).
Proof. by destruct xs. Qed.

Lemma JoinSkipPaths_splitComma (s : string) : JoinSkipPaths (splitComma s) = s.
Proof.
  unfold JoinSkipPaths. induction s as [|c s IH]; [reflexivity|].
  rewrite splitComma_cons. pose proof (splitComma_nonempty s) as Hne.
  destruct (Ascii.eqb_spec c ",") as [->|Hc].
  - destruct (splitComma s) as [|x xs]; [contradiction|].
    change (String.concat "," ("" :: x :: xs)) with ("" +:+ "," +:+ String.concat "," (x :: xs)).
    by rewrite IH.
  - destruct (splitComma s) as [|x xs]; [contradiction|].
    by rewrite concat_cons_char, IH.
Qed.

Lemma hasComma_cons (c : ascii) (s : string) :
  hasComma (String c s) = Ascii.eqb "," c || hasComma s.
Proof. reflexivity. Qed.

Lemma splitComma_pieces (s : string) : Forall (fun p => hasComma p = false) (splitComma s).
Proof.
  induction s as [|c s IH]; [by repeat constructor|].
  rewrite splitComma_cons. destruct (Ascii.eqb c ",") eqn:Ec; [by constructor|].
  destruct (splitComma s) as [|x xs]; [constructor|].
  inversion IH as [|? ? Hx Hxs]; subst. constructor; [|exact Hxs].
  rewrite hasComma_cons, Hx, Ascii.eqb_sym, Ec. reflexivity.
Qed.

Lemma splitComma_app_comma (p s : string) :
  hasComma p = false -> splitComma (p +:+ String "," s) = p :: splitComma s.
Proof.
  induction p as [|c p IH]; intros Hp; [reflexivity|].
  rewrite hasComma_cons in Hp. apply orb_false_iff in Hp as [Hc Hp].
  rewrite append_cons, splitComma_cons, Ascii.eqb_sym, Hc, (IH Hp). reflexivity.
Qed.

Lemma splitComma_plain (p : string) : hasComma p = false -> splitComma p = [p].
Proof.
  induction p as [|c p IH]; intros Hp; [reflexivity|].
  rewrite hasComma_cons in Hp. apply orb_false_iff in Hp as [Hc Hp].
  rewrite splitComma_cons, Ascii.eqb_sym, Hc, (IH Hp). reflexivity.
Qed.

Lemma splitComma_JoinSkipPaths (ps : list string) :
  ps <> [] -> Forall (fun p => hasComma p = false) ps ->
  splitComma (JoinSkipPaths ps) = ps.
Proof.
  unfold JoinSkipPaths. induction ps as [|p ps IH]; [done|]. intros _ Hall.
  inversion Hall as [|? ? Hp Hps]; subst.
  destruct ps as [|q ps]; [by apply splitComma_plain|].
  change (String.concat "," (p :: q :: ps)) with (p +:+ "," +:+ String.concat "," (q :: ps)).
  change ("," +:+ String.concat "," (q :: ps)) with (String "," (String.concat "," (q :: ps))).
  rewrite (splitComma_app_comma p _ Hp), IH; done.
Qed.

Lemma trimFront_strip (b : bool) (l : list ascii) :
  trimFront b l = match stripSpace b l with Some l' => trimFront b l' | None => l end.
Proof.
  destruct l as [|c1 l1]; [reflexivity|]. cbn [trimFront stripSpace].
  destruct (isSpace1 c1); [reflexivity|].
  destruct l1 as [|c2 l2]; [reflexivity|].
  destruct (if b then isSpace2 c2 c1 else isSpace2 c1 c2); [reflexivity|].
  destruct l2 as [|c3 l3]; [reflexivity|].
  by destruct (if b then isSpace3 c3 c2 c1 else isSpace3 c1 c2 c3).
Qed.

Lemma stripSpace_shorter (b : bool) (l l' : list ascii) :
  stripSpace b l = Some l' -> exists k, l = k ++ l' /\ k <> [].
Proof.
  destruct l as [|c1 [|c2 [|c3 l3]]]; simpl; try discriminate;
    repeat match goal with |- context [if ?c then _ else _] => destruct c end;
    intros [= <-];
    first [ by exists [c1] | by exists [c1; c2] | by exists [c1; c2; c3] ].
Qed.

Lemma trimFront_spec (b : bool) (n : nat) :
  forall l : list ascii, (length l <= n)%nat ->
    stripSpace b (trimFront b l) = None /\ exists k, l = k ++ trimFront b l.
Proof.
  induction n as [|n IH]; intros l Hn.
  - destruct l; [|simpl in Hn; lia]. split; [reflexivity | by exists []].
  - rewrite trimFront_strip. destruct (stripSpace b l) as [l'|] eqn:Es.
    + destruct (stripSpace_shorter b l l' Es) as (k & -> & Hk).
      destruct (IH l') as [Hs (k' & Hk')].
      { rewrite length_app in Hn. destruct k; [done|]. simpl in Hn. lia. }
      split; [exact Hs|]. exists (k ++ k'). by rewrite <- app_assoc, <- Hk'.
    + split; [exact Es | by exists []].
Qed.

Lemma stripSpace_app (l l' k : list ascii) :
  stripSpace false l = Some l' -> stripSpace false (l ++ k) = Some (l' ++ k).
Proof.
  destruct l as [|c1 [|c2 [|c3 l3]]]; simpl; try discriminate;
    repeat match goal with |- context [if ?c then _ else _] => destruct c end;
    try discriminate; by intros [= <-].
Qed.

Lemma TrimSpace_bytes (s : string) :
  let t := list_ascii_of_string (TrimSpace s) in
  stripSpace false t = None
  /\ stripSpace true (rev t) = None
  /\ exists a b, list_ascii_of_string s = a ++ t ++ b.
Proof.
  unfold TrimSpace. rewrite list_ascii_of_string_of_list_ascii.
  set (l := list_ascii_of_string s).
  destruct (trimFront_spec false (length l) l (le_n _)) as [Hf (a & Ha)].
  set (front := trimFront false l) in *.
  destruct (trimFront_spec true (length (rev front)) (rev front) (le_n _)) as [Hb (k & Hk)].
  set (back := trimFront true (rev front)) in *.
  assert (Hfront : front = rev back ++ rev k).
  { rewrite <- rev_app_distr, <- Hk. by rewrite rev_involutive. }
  split; [|split].
  - destruct (stripSpace false (rev back)) as [l'|] eqn:Es; [|reflexivity].
    apply (stripSpace_app _ _ (rev k)) in Es. rewrite <- Hfront in Es. congruence.
  - by rewrite rev_involutive.
  - exists a, (rev k). by rewrite <- Hfront.
Qed.

Lemma TrimSpace_fixed (p : string) :
  stripSpace false (list_ascii_of_string p) = None ->
  stripSpace true (rev (list_ascii_of_string p)) = None ->
  TrimSpace p = p.
Proof.
  intros Hf Hb. unfold TrimSpace.
  rewrite (trimFront_strip false), Hf, (trimFront_strip true), Hb, rev_involutive.
  apply string_of_list_ascii_of_string.
Qed.

Lemma TrimSpace_idempotent (s : string) : TrimSpace (TrimSpace s) = TrimSpace s.
Proof.
  destruct (TrimSpace_bytes s) as (Hf & Hb & _). by apply TrimSpace_fixed.
Qed.

Lemma hasComma_TrimSpace (s : string) : hasComma s = false -> hasComma (TrimSpace s) = false.
Proof.
  destruct (TrimSpace_bytes s) as (_ & _ & a & b & Hs). unfold hasComma.
  rewrite Hs, !existsb_app. intros Hc.
  apply orb_false_iff in Hc as [_ Hc]. by apply orb_false_iff in Hc as [Hc _].
Qed.

Lemma ParseSkipPaths_fold (l : list string) :
  forall acc : list string,
    fold_left (fun result p =>
                 let p := TrimSpace p in
                 if negb (String.eqb p "") then result ++ [p] else result) l acc =
      acc ++ filter (fun p => p <> "") (map TrimSpace l).
Proof.
  induction l as [|x l IH]; intros acc; [by rewrite app_nil_r|].
  cbn [fold_left map]. rewrite IH.
  destruct (String.eqb_spec (TrimSpace x) "") as [E|E]; simpl.
  - by rewrite filter_cons_False by (intros Hn; by apply Hn).
  - rewrite filter_cons_True by done. by rewrite <- app_assoc.
Qed.

Lemma ParseSkipPaths_pieces (paths : string) :
  ParseSkipPaths paths = filter (fun p => p <> "") (map TrimSpace (splitComma paths)).
Proof.
  unfold ParseSkipPaths. rewrite ParseSkipPaths_fold. simpl.
  destruct (String.eqb_spec paths "") as [->|_]; reflexivity.
Qed.

Lemma ParseSkipPaths_cleanPath (paths : string) : Forall cleanPath (ParseSkipPaths paths).
Proof.
  rewrite ParseSkipPaths_pieces. apply Forall_forall. intros p Hp.
  apply list_elem_of_filter in Hp as [Hne Hp].
  apply list_elem_of_fmap in Hp as (x & -> & Hx).
  pose proof (splitComma_pieces paths) as Hall.
  rewrite Forall_forall in Hall. specialize (Hall x Hx).
  repeat split; [exact Hne | by apply hasComma_TrimSpace | apply TrimSpace_idempotent].
Qed.

Lemma cleanPath_kept (ps : list string) :
  Forall cleanPath ps -> filter (fun p => p <> "") (map TrimSpace ps) = ps.
Proof.
  induction 1 as [|q qs (Hne & _ & Ht) _ IH]; [reflexivity|].
  cbn [map]. rewrite Ht, filter_cons_True by done. by rewrite IH.
Qed.

(** The skip list survives its text form when its paths are clean: for
    paths that are not empty, hold no comma and have no white space around
    them, ParseSkipPaths gives back the list JoinSkipPaths was given. This
    is the trip the skip_paths of an UpdateConfig request make on their way
    into the configuration the middleware reads. *)
Theorem ParseSkipPaths_JoinSkipPaths (ps : list string) :
  Forall cleanPath ps -> ParseSkipPaths (JoinSkipPaths ps) = ps.
Proof.
  intros Hall. destruct ps as [|p ps]; [reflexivity|].
  rewrite ParseSkipPaths_pieces, splitComma_JoinSkipPaths; [|done|].
  - by apply cleanPath_kept.
  - eapply Forall_impl; [exact Hall|]. by intros q (_ & Hq & _).
Qed.

(** Whatever the text, every path ParseSkipPaths returns is clean (not
    empty, no comma, no white space around it), so joining its result and
    parsing again changes nothing; and splitComma loses nothing, joining its
    pieces with commas gives the text back. *)
Theorem ParseSkipPaths_clean (paths : string) :
  Forall cleanPath (ParseSkipPaths paths)
  /\ ParseSkipPaths (JoinSkipPaths (ParseSkipPaths paths)) = ParseSkipPaths paths
  /\ JoinSkipPaths (splitComma paths) = paths.
Proof.
  pose proof (ParseSkipPaths_cleanPath paths) as Hclean.
  split; [exact Hclean|]. split; [|apply JoinSkipPaths_splitComma].
  destruct (ParseSkipPaths paths) as [|p ps] eqn:Hp; [reflexivity|].
  rewrite ParseSkipPaths_pieces, splitComma_JoinSkipPaths; [|done|].
  - by apply cleanPath_kept.
  - eapply Forall_impl; [exact Hclean|]. by intros q (_ & Hq & _).
Qed.

Lemma ParseSkipPaths_JoinSkipPaths_witness :
  Forall cleanPath ["/health"; "/a b"; "/metrics"]
  /\ ParseSkipPaths (JoinSkipPaths ["/health"; "/a b"; "/metrics"])
     = ["/health"; "/a b"; "/metrics"].
Proof.
  assert (Hc : Forall cleanPath ["/health"; "/a b"; "/metrics"]).
  { repeat constructor; discriminate. }
  split; [exact Hc|]. exact (ParseSkipPaths_JoinSkipPaths _ Hc).
Defined.

(** A path with a comma comes back as two paths, white space around a path
    is gone, an empty path is dropped. *)
Example ParseSkipPaths_comma :
  ParseSkipPaths (JoinSkipPaths ["/a,b"; " /c "; ""]) = ["/a"; "b"; "/c"].
Proof. vm_compute. reflexivity. Qed.

(** ** The store and its handlers: pages, details, clean-up *)

Lemma insertDesc_sorted (r : DB.DBLogEntry) (l : list DB.DBLogEntry) :
  StronglySorted newerFirst l -> StronglySorted newerFirst (insertDesc r l).
Proof.
  induction l as [|r' l IH]; intros Hs; simpl.
  - repeat constructor.
  - inversion Hs as [|? ? Hl Hall]; subst.
    destruct (Z.ltb_spec (DB.CreatedAt r') (DB.CreatedAt r)) as [Hlt|Hge].
    + constructor; [exact Hs|]. constructor; [unfold newerFirst; lia|].
      eapply List.Forall_impl; [|exact Hall]. unfold newerFirst. intros; lia.
    + constructor; [by apply IH|].
      apply Forall_forall. intros x Hx. rewrite insertDesc_perm in Hx.
      apply elem_of_cons in Hx as [->|Hx]; [exact Hge|].
      rewrite Forall_forall in Hall. by apply Hall.
Qed.

Lemma orderByCreatedDesc_sorted (l : list DB.DBLogEntry) :
  StronglySorted newerFirst (orderByCreatedDesc l).
Proof.
  induction l as [|r l IH]; simpl; [constructor|]. by apply insertDesc_sorted.
Qed.

Lemma StronglySorted_drop {A} (R : A -> A -> Prop) (n : nat) (l : list A) :
  StronglySorted R l -> StronglySorted R (drop n l).
Proof.
  revert l. induction n as [|n IH]; intros l Hs; [by rewrite drop_0|].
  destruct l as [|x l]; [constructor|]. simpl. apply IH. by inversion Hs.
Qed.

Lemma StronglySorted_take {A} (R : A -> A -> Prop) (n : nat) (l : list A) :
  StronglySorted R l -> StronglySorted R (take n l).
Proof.
  revert l. induction n as [|n IH]; intros l Hs; [constructor|].
  destruct l as [|x l]; [constructor|]. simpl. inversion Hs as [|? ? Hl Hall]; subst.
  constructor; [by apply IH|].
  apply Forall_forall. intros y Hy. rewrite Forall_forall in Hall. apply Hall.
  by eapply subseteq_take.
Qed.

Section MoreQueryProperties.
Variable parseTime : string -> option Z.

Lemma QueryLogs_page (st : DB.Store) (offset limit : Z) (conditions : gmap string json)
    (found : list DB.DBLogEntry) :
  QueryLogs parseTime st offset limit conditions = (found, None) ->
  exists where_,
    compileAll parseTime (queryConds conditions) = Some where_
    /\ found = take (Z.to_nat limit)
                 (drop (Z.to_nat offset)
                    (orderByCreatedDesc (filter (fun r => where_ r = true) (DB.rows st))))
    /\ 0 <= limit /\ DB.unavailable st = None /\ forallb scans found = true.
Proof.
  unfold QueryLogs. destruct (DB.unavailable st); [discriminate|].
  destruct (compileAll parseTime (queryConds conditions)) as [where_|]; [|discriminate].
  destruct (Z.ltb_spec limit 0); [discriminate|].
  destruct (offset <? 0); [discriminate|].
  cbv zeta. destruct (forallb scans _) eqn:Hsc; [|discriminate].
  rewrite setCreatedAt_same. intros [= <-]. exists where_. by repeat split.
Qed.

(** A QueryLogs that returns no error returns at most [limit] rows, all of
    them rows of the table, the newest first. *)
Theorem QueryLogs_newest_first (st : DB.Store) (offset limit : Z)
    (conditions : gmap string json) (found : list DB.DBLogEntry) :
  QueryLogs parseTime st offset limit conditions = (found, None) ->
  Z.of_nat (length found) <= limit
  /\ StronglySorted newerFirst found
  /\ (forall r, r ∈ found -> r ∈ DB.rows st).
Proof.
  intros Hq. apply QueryLogs_page in Hq as (where_ & _ & -> & Hlim & _ & _).
  split; [|split].
  - rewrite length_take. lia.
  - apply StronglySorted_take, StronglySorted_drop, orderByCreatedDesc_sorted.
  - intros r Hr. apply subseteq_take, subseteq_drop in Hr.
    rewrite orderByCreatedDesc_perm in Hr. by apply list_elem_of_filter in Hr as [_ Hr].
Qed.

Lemma find_by_ID (l : list DB.DBLogEntry) (r : DB.DBLogEntry) :
  NoDup (map DB.ID l) -> r ∈ l -> List.find (fun x => DB.ID x =? DB.ID r) l = Some r.
Proof.
  induction l as [|x l IH]; intros Hnd Hr; [by apply elem_of_nil in Hr|].
  cbn [map] in Hnd. apply NoDup_cons in Hnd as [Hx Hnd]. cbn [List.find].
  apply elem_of_cons in Hr as [->|Hr]; [by rewrite Z.eqb_refl|].
  destruct (Z.eqb_spec (DB.ID x) (DB.ID r)) as [E|_]; [|by apply IH].
  exfalso. apply Hx. rewrite E. apply list_elem_of_fmap. by exists r.
Qed.

Lemma find_ID_Some (l : list DB.DBLogEntry) (id : Z) (r : DB.DBLogEntry) :
  List.find (fun x => DB.ID x =? id) l = Some r -> r ∈ l /\ DB.ID r = id.
Proof.
  intros Hf. apply find_some in Hf as [Hin Hid].
  split; [by apply list_elem_of_In | by apply Z.eqb_eq].
Qed.

Lemma find_ID_None (l : list DB.DBLogEntry) (id : Z) :
  List.find (fun x => DB.ID x =? id) l = None <-> (forall r, r ∈ l -> DB.ID r <> id).
Proof.
  split.
  - intros Hf r Hr. apply list_elem_of_In in Hr.
    pose proof (find_none _ _ Hf r Hr) as Hn. by apply Z.eqb_neq.
  - intros Hall. destruct (List.find _ l) as [r|] eqn:Hf; [|reflexivity].
    apply find_ID_Some in Hf as [Hr Hid]. by destruct (Hall r Hr).
Qed.

Lemma setCreatedAt_id (r : DB.DBLogEntry) :
  setCreatedAt (convertToLocalTime (DB.CreatedAt r)) r = r.
Proof. by destruct r. Qed.

(** GetLogDetail on a store that answers, where ids are unique and no
    custom_fields is NULL: it answers 200 with a row exactly when that row
    is the row of the id, and 404 exactly when no row has the id. *)
Theorem GetLogDetail_finds_row (st : DB.Store) (id : Z) :
  DB.unavailable st = None ->
  NoDup (map DB.ID (DB.rows st)) ->
  forallb scans (DB.rows st) = true ->
  (forall r, GetLogDetail st (Some id) = Success r <-> r ∈ DB.rows st /\ DB.ID r = id)
  /\ (GetLogDetail st (Some id) = Failure 404 "日志不存在"
      <-> forall r, r ∈ DB.rows st -> DB.ID r <> id).
Proof.
  intros Hup Hnd Hsc. unfold GetLogDetail, GetLogByID. rewrite Hup.
  destruct (List.find _ (DB.rows st)) as [r0|] eqn:Hf.
  - pose proof (find_ID_Some _ _ _ Hf) as [Hr0 Hid0].
    assert (Hs0 : scans r0 = true).
    { rewrite forallb_forall in Hsc. apply Hsc. by apply list_elem_of_In. }
    rewrite Hs0, setCreatedAt_id. split.
    + intros r. split.
      * by intros [= <-].
      * intros [Hr Hid]. f_equal.
        pose proof (find_by_ID _ r Hnd Hr) as Hf'. rewrite Hid in Hf'. congruence.
    + split; [discriminate|]. intros Hall. by destruct (Hall r0 Hr0).
  - split.
    + intros r. split; [discriminate|]. intros [Hr Hid].
      rewrite find_ID_None in Hf. by destruct (Hf r Hr).
    + split; [|reflexivity]. intros _. by apply find_ID_None.
Qed.

(** The list and the detail agree: every row QueryLogs returns is what
    GetLogByID returns for its id, and what GetLogDetail answers with. *)
Theorem QueryLogs_rows_have_details (st : DB.Store) (offset limit : Z)
    (conditions : gmap string json) (found : list DB.DBLogEntry) :
  NoDup (map DB.ID (DB.rows st)) ->
  QueryLogs parseTime st offset limit conditions = (found, None) ->
  forall r, r ∈ found ->
    GetLogByID st (DB.ID r) = (Some r, None) /\ GetLogDetail st (Some (DB.ID r)) = Success r.
Proof.
  intros Hnd Hq r Hr.
  apply QueryLogs_page in Hq as (where_ & _ & Hfound & _ & Hup & Hsc).
  assert (Hrow : r ∈ DB.rows st).
  { rewrite Hfound in Hr. apply subseteq_take, subseteq_drop in Hr.
    rewrite orderByCreatedDesc_perm in Hr. by apply list_elem_of_filter in Hr as [_ Hr]. }
  assert (Hs : scans r = true).
  { rewrite forallb_forall in Hsc. apply Hsc. by apply list_elem_of_In. }
  unfold GetLogDetail, GetLogByID.
  by rewrite Hup, (find_by_ID _ r Hnd Hrow), Hs, setCreatedAt_id.
Qed.

(** The GetLogs handler: the path parameter it reads never reaches the
    conditions, so its answer is the same for every path; and an answer with
    logs has at most 100 of them (at most page_size when that is between 1
    and 100), rows of the table, newest first, with a total that is no more
    than the rows of the table. *)
Theorem GetLogs_answer (st : DB.Store) (page pageSize : Z) (method path : string)
    (statusCode : option Z) (startTime endTime : string) :
  (forall path',
     GetLogs parseTime st page pageSize method path statusCode startTime endTime =
     GetLogs parseTime st page pageSize method path' statusCode startTime endTime)
  /\ (forall total logs,
        GetLogs parseTime st page pageSize method path statusCode startTime endTime =
          inl (total, logs) ->
        (length logs <= 100)%nat
        /\ (1 <= pageSize <= 100 -> Z.of_nat (length logs) <= pageSize)
        /\ StronglySorted newerFirst logs
        /\ (forall r, r ∈ logs -> r ∈ DB.rows st)
        /\ 0 <= total <= Z.of_nat (length (DB.rows st))).
Proof.
  split; [reflexivity|]. intros total logs. unfold GetLogs.
  destruct (CountLogs parseTime st _) as [count [err|]] eqn:Hc; [discriminate|].
  destruct (QueryLogs parseTime st _ _ _) as [found [err|]] eqn:Hq; [discriminate|].
  intros [= <- <-].
  assert (Hcount : 0 <= count <= Z.of_nat (length (DB.rows st))).
  { unfold CountLogs in Hc. destruct (DB.unavailable st); [discriminate|].
    destruct (compileAll parseTime _) as [where_|]; [|discriminate].
    injection Hc as <-. pose proof (length_filter (fun r => where_ r = true) (DB.rows st)). lia. }
  apply QueryLogs_page in Hq as (where_ & _ & Hfound & Hlim & _ & _).
  assert (Hlen : Z.of_nat (length found) <=
                 (if (pageSize <? 1) || (100 <? pageSize) then 20 else pageSize)).
  { rewrite Hfound, length_take. lia. }
  assert (Hsorted : StronglySorted newerFirst found).
  { rewrite Hfound. apply StronglySorted_take, StronglySorted_drop, orderByCreatedDesc_sorted. }
  assert (Hrows : forall r, r ∈ found -> r ∈ DB.rows st).
  { intros r Hr. rewrite Hfound in Hr. apply subseteq_take, subseteq_drop in Hr.
    rewrite orderByCreatedDesc_perm in Hr. by apply list_elem_of_filter in Hr as [_ Hr]. }
  clear Hfound Hlim.
  split; [|split; [|split; [|split]]]; try assumption.
  - destruct ((pageSize <? 1) || (100 <? pageSize)) eqn:E; [lia|].
    apply orb_false_iff in E as [_ E]. apply Z.ltb_ge in E. lia.
  - intros [H1 H2].
    destruct ((pageSize <? 1) || (100 <? pageSize)) eqn:E; [|exact Hlen].
    apply orb_true_iff in E as [E|E]; apply Z.ltb_lt in E; lia.
Qed.

End MoreQueryProperties.

(** The DeleteLogs handler never removes a row created within the last
    day, whatever the days parameter says: a parameter that is missing, not
    a number or below 1 stands for 7. *)
Theorem DeleteLogs_keeps_last_day (st : DB.Store) (days : option Z) (r : DB.DBLogEntry) :
  r ∈ DB.rows st ->
  DB.serverNow st - DB.CreatedAt r <= microsPerDay ->
  r ∈ DB.rows (fst (DeleteLogs st days))
  /\ (forall d, days = Some d -> d < 1 -> DeleteLogs st days = DeleteLogs st (Some 7))
  /\ DeleteLogs st None = DeleteLogs st (Some 7).
Proof.
  intros Hr Hage. split; [|split; [|reflexivity]].
  - unfold DeleteLogs.
    set (d := match days with Some d => if d <? 1 then 7 else d | None => 7 end).
    assert (Hd : 1 <= d).
    { subst d. destruct days as [d|]; [|lia]. destruct (Z.ltb_spec d 1); lia. }
    unfold DeleteOldLogs. destruct (DB.unavailable st); [exact Hr|].
    simpl. apply list_elem_of_filter. split; [|exact Hr].
    apply Z.ltb_ge. assert (Hpos : 0 < microsPerDay) by reflexivity.
    destruct (isMySQL st); unfold cutoffTime; nia.
  - intros d -> Hd. unfold DeleteLogs. by destruct (Z.ltb_spec d 1); [|lia].
Qed.



(** The logger the admin server builds is asynchronous and its staging
    buffer has as many slots as max_open_conns of the configuration file
    says, 25 when the file says nothing or 0; a negative max_open_conns makes
    the constructor panic. *)
Theorem NewLogger_buffer (parsed : Database.DatabaseConfig) (opened : DB.Store) :
  let n := Database.MaxOpenConns parsed in
  NewLogger parsed opened =
    if n <? 0 then Panics
    else Ret (mkSink opened
                (Some (mkChan [] (if n =? 0 then 25%nat else Z.to_nat n) false))
                false AtSelect []).
Proof.
  intros n. unfold NewLogger, loadDefaults, NewDBLogger, Sink.New. cbn [Database.MaxOpenConns].
  fold n. destruct (Z.eqb_spec n 0) as [->|Hn]; [reflexivity|].
  by destruct (n <? 0).
Qed.

Lemma twoRows_ids : NoDup (map DB.ID (DB.rows twoRows)).
Proof. by apply (bool_decide_unpack _). Qed.

Lemma QueryLogs_newest_first_witness :
  QueryLogs noTimes twoRows 0 1 ∅ = ([rowAged 2 "/a_b" 404 1], None)
  /\ Z.of_nat (length [rowAged 2 "/a_b" 404 1]) <= 1
  /\ StronglySorted newerFirst [rowAged 2 "/a_b" 404 1]
  /\ (forall r, r ∈ [rowAged 2 "/a_b" 404 1] -> r ∈ DB.rows twoRows).
Proof.
  split; [reflexivity|].
  exact (QueryLogs_newest_first noTimes twoRows 0 1 ∅ [rowAged 2 "/a_b" 404 1] eq_refl).
Defined.

Lemma GetLogDetail_finds_row_witness :
  (forall r, GetLogDetail twoRows (Some 2) = Success r <-> r ∈ DB.rows twoRows /\ DB.ID r = 2)
  /\ (GetLogDetail twoRows (Some 2) = Failure 404 "日志不存在"
      <-> forall r, r ∈ DB.rows twoRows -> DB.ID r <> 2).
Proof.
  exact (GetLogDetail_finds_row twoRows 2 eq_refl twoRows_ids eq_refl).
Defined.

Lemma QueryLogs_rows_have_details_witness :
  QueryLogs noTimes twoRows 0 10 {[ "status_code" := JInt 404 ]} = ([rowAged 2 "/a_b" 404 1], None)
  /\ forall r, r ∈ [rowAged 2 "/a_b" 404 1] ->
       GetLogByID twoRows (DB.ID r) = (Some r, None)
       /\ GetLogDetail twoRows (Some (DB.ID r)) = Success r.
Proof.
  split; [reflexivity|].
  exact (QueryLogs_rows_have_details noTimes twoRows 0 10 {[ "status_code" := JInt 404 ]}
           [rowAged 2 "/a_b" 404 1] twoRows_ids eq_refl).
Defined.

(** DeleteLogs with days=0 on the rows aged 10, 8, 6 and 1 days: the row of
    yesterday stays. *)
Lemma DeleteLogs_keeps_last_day_witness :
  rowAged 4 "/d" 200 1 ∈ DB.rows (fst (DeleteLogs fourRows (Some 0)))
  /\ DeleteLogs fourRows (Some 0) = DeleteLogs fourRows (Some 7).
Proof.
  destruct (DeleteLogs_keeps_last_day fourRows (Some 0) (rowAged 4 "/d" 200 1))
    as (Hkept & Hdef & _).
  - apply list_elem_of_In. simpl. repeat (first [left; reflexivity | right]).
  - vm_compute. discriminate.
  - split; [exact Hkept|]. by apply (Hdef 0).
Defined.

(** GET /admin/logs?path=a_b on the two rows: both come back, the one on
    /ab too. *)
Example GetLogs_path_has_no_effect :
  GetLogs noTimes twoRows 1 20 "" "a_b" None "" ""
    = inl (2, [rowAged 2 "/a_b" 404 1; rowAged 1 "/ab" 200 2]).
Proof. vm_compute. reflexivity. Qed.

Lemma find_ID_app_new (l : list DB.DBLogEntry) (row : DB.DBLogEntry) (id : Z) :
  (forall r, r ∈ l -> DB.ID r <> DB.ID row) ->
  List.find (fun x => DB.ID x =? id) (l ++ [row]) =
    if id =? DB.ID row then Some row else List.find (fun x => DB.ID x =? id) l.
Proof.
  intros Hnew. induction l as [|x l IH].
  - simpl. rewrite Z.eqb_sym. by destruct (id =? DB.ID row).
  - cbn [app List.find]. destruct (Z.eqb_spec (DB.ID x) id) as [E|E].
    + destruct (Z.eqb_spec id (DB.ID row)) as [E'|_]; [|reflexivity].
      exfalso. apply (Hnew x); [by left | congruence].
    + apply IH. intros r Hr. apply Hnew. by right.
Qed.

(** Insert and look up: when insertEntry has inserted an entry into a table
    whose ids are in order, GetLogByID for the id the sequence stood at
    returns the new row, holding the fields of the entry, its custom fields
    as JSON and the clock reading as creation time; every other id is
    answered as before, and the ids are still in order. *)
Theorem insertEntry_then_GetLogByID (h : Heap) (l : loc) (st st' : DB.Store) :
  idsInOrder st ->
  insertEntry h (Some l) st = Some (st', None) ->
  let e := deref h l in
  exists row,
    GetLogByID st' (DB.nextID st) = (Some row, None)
    /\ DB.rows st' = DB.rows st ++ [row]
    /\ DB.Method row = Method e /\ DB.Path row = Path e /\ DB.ClientIP row = ClientIP e
    /\ DB.UserAgent row = UserAgent e /\ DB.StatusCode row = StatusCode e
    /\ DB.Duration row = Duration e /\ DB.Timestamp row = Timestamp e
    /\ DB.CustomFields row = marshalFields h (CustomFields e)
    /\ DB.CreatedAt row = DB.clock st
    /\ (forall id, id <> DB.nextID st -> GetLogByID st' id = GetLogByID st id)
    /\ idsInOrder st'.
Proof.
  intros [Hnd Hlt] Hins e. unfold insertEntry in Hins. fold e in Hins.
  destruct (DB.unavailable st) as [err|] eqn:Hup; [discriminate|].
  destruct (marshalFields h (CustomFields e)) as [data|] eqn:Hm; [|discriminate].
  injection Hins as <-.
  set (row := DB.mkRow (DB.nextID st) (Method e) (Path e) (ClientIP e) (UserAgent e)
                (StatusCode e) (Duration e) (Timestamp e) (Some data) (DB.clock st)).
  assert (Hnew : forall r, r ∈ DB.rows st -> DB.ID r <> DB.ID row).
  { intros r Hr. rewrite Forall_forall in Hlt. specialize (Hlt r Hr). simpl. lia. }
  assert (Hup' : forall rs n, DB.unavailable
            (DB.mkStore (DB.driver st) rs n (DB.dbOpen st) (DB.dbFault st) (DB.clock st)
               (DB.serverNow st)) = None) by (intros; exact Hup).
  exists row. unfold GetLogByID. rewrite Hup', Hup. cbn [DB.rows].
  split; [|split; [reflexivity|]].
  - rewrite (find_ID_app_new _ row _ Hnew). simpl. by rewrite Z.eqb_refl.
  - do 9 (split; [reflexivity|]). split.
    + intros id Hid. rewrite (find_ID_app_new _ row _ Hnew). simpl.
      by destruct (Z.eqb_spec id (DB.nextID st)).
    + split; cbn [DB.rows DB.nextID].
      * rewrite map_app. apply NoDup_app. split; [exact Hnd|]. split; [|apply NoDup_singleton].
        intros x Hx Hx'. apply list_elem_of_fmap in Hx as (r & -> & Hr). simpl in Hx'.
        apply list_elem_of_singleton in Hx'. by apply (Hnew r Hr).
      * apply Forall_app. split.
        -- eapply Forall_impl; [exact Hlt|]. simpl. intros; lia.
        -- constructor; [simpl; lia | constructor].
Qed.

Lemma NoDup_map_filter {A B} (f : A -> B) (P : A -> Prop) `{!forall x, Decision (P x)}
    (l : list A) :
  NoDup (map f l) -> NoDup (map f (filter P l)).
Proof.
  induction l as [|x l IH]; [done|]. cbn [map]. intros Hnd.
  apply NoDup_cons in Hnd as [Hx Hnd].
  destruct (decide (P x)) as [Hp|Hp].
  - rewrite (filter_cons_True P x l Hp). cbn [map]. apply NoDup_cons. split; [|by apply IH].
    intros Hin. apply Hx. apply list_elem_of_fmap in Hin as (y & -> & Hy).
    apply list_elem_of_filter in Hy as [_ Hy]. apply list_elem_of_fmap. by exists y.
  - rewrite (filter_cons_False P x l Hp). by apply IH.
Qed.

(** The ids of the table stay in order (unique, and below the sequence)
    under insertEntry, whether it inserts or fails, and under DeleteOldLogs. *)
Theorem store_ids_stay_in_order :
  (forall h p st st' err,
     idsInOrder st -> insertEntry h p st = Some (st', err) -> idsInOrder st')
  /\ (forall st days, idsInOrder st -> idsInOrder (fst (DeleteOldLogs st days))).
Proof.
  split.
  - intros h p st st' err [Hnd Hlt] Hins. unfold insertEntry in Hins.
    destruct p as [l|]; [|discriminate].
    destruct (DB.unavailable st); [by injection Hins as <- <-|].
    destruct (marshalFields h _); [|by injection Hins as <- <-].
    injection Hins as <- <-. split; cbn [DB.rows DB.nextID].
    + rewrite map_app. apply NoDup_app. split; [exact Hnd|]. split; [|apply NoDup_singleton].
      intros x Hx Hx'. apply list_elem_of_fmap in Hx as (r & -> & Hr). simpl in Hx'.
      apply list_elem_of_singleton in Hx'.
      rewrite Forall_forall in Hlt. specialize (Hlt r Hr). lia.
    + apply Forall_app. split.
      * eapply Forall_impl; [exact Hlt|]. simpl. intros; lia.
      * constructor; [simpl; lia | constructor].
  - intros st days [Hnd Hlt]. unfold DeleteOldLogs.
    destruct (DB.unavailable st); [by split|]. cbn [fst].
    split; cbn [DB.rows DB.nextID DB.setRows].
    + by apply NoDup_map_filter.
    + apply Forall_forall. intros r Hr. apply list_elem_of_filter in Hr as [_ Hr].
      rewrite Forall_forall in Hlt. by apply Hlt.
Qed.

Lemma twoRows_idsInOrder : idsInOrder twoRows.
Proof.
  split; [by apply (bool_decide_unpack _)|].
  repeat constructor.
Qed.

Lemma insertEntry_then_GetLogByID_witness :
  exists st' row,
    insertEntry userHeap (Some 1%nat) twoRows = Some (st', None)
    /\ GetLogByID st' 100 = (Some row, None)
    /\ DB.Path row = "/hello"
    /\ DB.CustomFields row = Some (JObj [("user_id", JStr "12345")]).
Proof.
  eexists.
  destruct (insertEntry_then_GetLogByID userHeap 1%nat twoRows _ twoRows_idsInOrder eq_refl)
    as (row & Hg & _ & _ & Hp & _ & _ & _ & _ & _ & Hc & _).
  exists row. split; [reflexivity|]. split; [exact Hg|]. split; [exact Hp | exact Hc].
Defined.

(** ** From Write to the file *)

(** The way to persist with a logger built with async = false: Write the
    entries, Flush, Close. On a file that takes the writes all three return,
    Close with nil, and the closed file holds the records of the entries
    that found a slot in the buffer (the first [bufferSize] of them), in
    order; nothing is left staged. *)
Theorem sync_Write_Flush_Close (h : Heap) (f : File) (n : nat) (es : list loc) (fuel : nat) :
  healthy f ->
  exists s s1 s2 s3,
    NewFileLogger f false (Z.of_nat n) = Ret s
    /\ writeAll h s (map Some es) = Ret s1
    /\ Sink.Flush (length es) h s1 = Ret s2
    /\ Sink.Close fuel h s2 = Ret (s3, None)
    /\ lines (dest s3) = lines f ++ omap (marshalEntry h) (take n (map Some es))
    /\ isOpen (dest s3) = false
    /\ staged s3 = [].
Proof.
  intros Hf. unfold NewFileLogger. rewrite New_nat.
  destruct (writeAll_unstarted h f n es [] []) as [errs1 Hw]; [simpl; lia|].
  simpl in Hw.
  destruct (flushBuffer_healthy h n false NotStarted (take n (map Some es)) f errs1 (length es) Hf)
    as [errs2 Hfl].
  { rewrite length_take, length_map. lia. }
  eexists _, _, _, _. split; [reflexivity|]. split; [exact Hw|].
  split; [unfold Sink.Flush; simpl; exact Hfl|].
  unfold Sink.Close. simpl.
  assert (Hwait : forall s0 : FileLogger, drain s0 = NotStarted -> Sink.wgWait fuel h s0 = Ret s0).
  { intros s0 Hs0. destruct fuel; simpl; by rewrite Hs0. }
  rewrite Hwait by reflexivity. simpl. by repeat split.
Qed.

Lemma MarshalJSON_base_members (h : Heap) (e : LogEntry) (j : json) :
  MarshalJSON h e = Some j ->
  member "method" j = Some (JStr (Method e))
  /\ member "path" j = Some (JStr (Path e))
  /\ member "client_ip" j = Some (JStr (ClientIP e))
  /\ member "user_agent" j = Some (JStr (UserAgent e))
  /\ member "status_code" j = Some (JInt (StatusCode e))
  /\ member "duration_ms" j = Some (JFloat (Duration e))
  /\ member "timestamp" j = Some (JStr (Timestamp e)).
Proof.
  unfold MarshalJSON. destruct (PrimFloat.is_finite (Duration e)); [|discriminate].
  destruct (customFieldsMember h e) as [custom|]; [|discriminate].
  intros [= <-]. by repeat split.
Qed.

Section EndToEnd.
Variable formatTime : string -> Z -> string.

(** From the request to the file. An instrumented request dispatched
    synchronously into an async FileLogger whose drain task is at its select
    with the buffer empty, on a file that takes the writes: the middleware
    returns with the entry staged, and two steps of the drain task later the
    file has one more line, the record of the entry, whose method, path,
    client_ip, user_agent, status_code and timestamp members hold what the
    request, the response status and the clock were when the chain
    returned. *)
Theorem request_reaches_file (next : World FileLogger -> World FileLogger)
    (w : World FileLogger) (l : loc) (f : File) (cap : nat) (errs : list string) :
  Config.Async (config w) = false ->
  fst (handle formatTime next w) = Instrumented l ->
  let after := next (chainInput w) in
  logger after = mkSink f (Some (mkChan [] cap false)) false AtSelect errs ->
  healthy f -> (0 < cap)%nat ->
  exists w1,
    snd (handle formatTime next w) = Ret w1
    /\ staged (logger w1) = [Some l]
    /\ lines (dest (drainSteps 2 (heap w1) (logger w1))) =
         lines f ++ option_list (marshalEntry (heap w1) (Some l))
    /\ forall j, marshalEntry (heap w1) (Some l) = Some j ->
         member "method" j = Some (JStr (reqMethod (request after)))
         /\ member "path" j = Some (JStr (reqPath (request after)))
         /\ member "client_ip" j = Some (JStr (reqClientIP (request after)))
         /\ member "user_agent" j = Some (JStr (reqUserAgent (request after)))
         /\ member "status_code" j = Some (JInt (status after))
         /\ member "timestamp" j =
              Some (JStr (formatTime (Config.TimeFormat (config w)) (now after))).
Proof.
  intros Ha Hb after Hlg Hf Hcap. unfold handle in *.
  destruct (negb (Config.Enabled (config w))); [discriminate|].
  destruct (_ && _); [discriminate|].
  pose proof (instrument_entry formatTime (Config.CustomFields (config w))
                (Config.TimeFormat (config w)) next w) as Hi.
  pose proof (instrument_world formatTime (Config.CustomFields (config w))
                (Config.TimeFormat (config w)) next w) as Hw.
  destruct (instrument _ _ _ _ _) as [w1 l1]. simpl in *. injection Hb as ->.
  destruct Hi as (_ & _ & Hm & Hp & Hip & Hua & Hsc & Hts & _).
  destruct Hw as (_ & Hlg1 & _).
  fold after in Hlg1, Hm, Hp, Hip, Hua, Hsc, Hts.
  unfold dispatch. rewrite Ha. simpl. rewrite Hlg1, Hlg.
  unfold Sink.Write. simpl.
  destruct (Nat.ltb_spec 0 cap) as [_|]; [|lia].
  eexists. split; [reflexivity|]. simpl. split; [reflexivity|]. split.
  - destruct (drainStep_Holding_healthy (heap w1) f (Some (mkChan [] cap false)) false
                (Some l) errs Hf) as [errs' Hstep].
    unfold Sink.setDrain, Sink.setChan. cbn [dest bufferCh closed drain stderr capacity].
    by rewrite Hstep.
  - intros j Hj. apply MarshalJSON_base_members in Hj as (H1 & H2 & H3 & H4 & H5 & _ & H7).
    rewrite H1, H2, H3, H4, H5, H7, Hm, Hp, Hip, Hua, Hsc, Hts. by repeat split.
Qed.

End EndToEnd.

(** A synchronous FileLogger with room for two, three entries written, then
    Flush and Close: the file holds the first two records and is closed. *)
Lemma sync_Write_Flush_Close_witness :
  exists s s1 s2 s3,
    NewFileLogger emptyFile false 2 = Ret s
    /\ writeAll twoEntries s [Some 1%nat; Some 2%nat; Some 1%nat] = Ret s1
    /\ Sink.Flush 3 twoEntries s1 = Ret s2
    /\ Sink.Close 0 twoEntries s2 = Ret (s3, None)
    /\ lines (dest s3) = [recordA; recordB]
    /\ isOpen (dest s3) = false
    /\ staged s3 = [].
Proof.
  exact (sync_Write_Flush_Close twoEntries emptyFile 2 [1%nat; 2%nat; 1%nat] 0
           emptyFile_healthy).
Defined.

(** The request for /hello, dispatched synchronously into an async
    FileLogger with room: after two steps of the drain task the file holds
    its record. *)
Lemma request_reaches_file_witness :
  exists w1,
    snd (handle stamp (fun w' => w') helloWorld) = Ret w1
    /\ staged (logger w1) = [Some 0%nat]
    /\ lines (dest (drainSteps 2 (heap w1) (logger w1))) = [helloRecord].
Proof.
  destruct (request_reaches_file stamp (fun w' => w') helloWorld 0%nat emptyFile 8 []
              eq_refl eq_refl eq_refl emptyFile_healthy (Nat.lt_0_succ 7))
    as (w1 & Hs & Hst & Hl & _).
  exists w1. split; [exact Hs|]. split; [exact Hst|].
  rewrite Hl. injection Hs as <-. reflexivity.
Defined.

Section EndToEndAsync.
Variable formatTime : string -> Z -> string.

(** The same with asynchronous dispatch, the default. The middleware
    returns without calling the logger, leaving a goroutine that holds the
    entry; when that goroutine runs it writes a copy of the entry, a new
    object, and two steps of the drain task later the file has one more
    line, the record of the copy, with the members of the request. *)
Theorem async_request_reaches_file (next : World FileLogger -> World FileLogger)
    (w : World FileLogger) (l : loc) (f : File) (cap : nat) (errs : list string) :
  Config.Async (config w) = true ->
  fst (handle formatTime next w) = Instrumented l ->
  let after := next (chainInput w) in
  logger after = mkSink f (Some (mkChan [] cap false)) false AtSelect errs ->
  healthy f -> (0 < cap)%nat ->
  exists w1 w2 c,
    snd (handle formatTime next w) = Ret w1
    /\ logger w1 = logger after
    /\ tasks w1 = tasks after ++ [l]
    /\ runTask (length (tasks after)) w1 = Ret w2
    /\ entries (heap w1) !! c = None
    /\ deref (heap w2) c = deref (heap w1) l
    /\ staged (logger w2) = [Some c]
    /\ tasks w2 = tasks after
    /\ lines (dest (drainSteps 2 (heap w2) (logger w2))) =
         lines f ++ option_list (marshalEntry (heap w2) (Some c))
    /\ forall j, marshalEntry (heap w2) (Some c) = Some j ->
         member "method" j = Some (JStr (reqMethod (request after)))
         /\ member "path" j = Some (JStr (reqPath (request after)))
         /\ member "client_ip" j = Some (JStr (reqClientIP (request after)))
         /\ member "user_agent" j = Some (JStr (reqUserAgent (request after)))
         /\ member "status_code" j = Some (JInt (status after))
         /\ member "timestamp" j =
              Some (JStr (formatTime (Config.TimeFormat (config w)) (now after))).
Proof.
  intros Ha Hb after Hlg Hf Hcap. unfold handle in *.
  destruct (negb (Config.Enabled (config w))); [discriminate|].
  destruct (_ && _); [discriminate|].
  pose proof (instrument_entry formatTime (Config.CustomFields (config w))
                (Config.TimeFormat (config w)) next w) as Hi.
  pose proof (instrument_world formatTime (Config.CustomFields (config w))
                (Config.TimeFormat (config w)) next w) as Hw.
  destruct (instrument _ _ _ _ _) as [w1 l1]. simpl in *. injection Hb as ->.
  destruct Hi as (_ & _ & Hm & Hp & Hip & Hua & Hsc & Hts & _).
  destruct Hw as (_ & Hlg1 & _ & Htk & _).
  fold after in Hlg1, Htk, Hm, Hp, Hip, Hua, Hsc, Hts.
  unfold dispatch. rewrite Ha.
  set (c := fresh (dom (entries (heap w1)))).
  set (h2 := mkHeap (<[c := deref (heap w1) l]> (entries (heap w1))) (cmaps (heap w1))).
  assert (Hd : deref h2 c = deref (heap w1) l).
  { unfold deref at 1. subst h2. cbn [entries]. by rewrite lookup_insert_eq. }
  exists (setTasks (tasks w1 ++ [l]) w1),
         (mkWorld h2 (request w1) (keys w1) (status w1) (config w1) (now w1)
            (mkSink f (Some (mkChan [Some c] cap false)) false AtSelect errs) (tasks w1)),
         c.
  split; [reflexivity|]. split; [exact Hlg1|]. split; [simpl; by rewrite Htk|].
  split.
  { unfold runTask. rewrite <- Htk. cbn [tasks setTasks].
    rewrite lookup_app_r, Nat.sub_diag by lia. cbn [lookup list_lookup].
    unfold allocEntry. fold c. fold h2. cbn [heap logger setTasks setHeap].
    rewrite delete_middle, app_nil_r, Hlg1, Hlg.
    unfold Write, sinkLogger, Sink.Write.
    cbn [closed bufferCh chClosed drain buffer capacity length].
    destruct (Nat.ltb_spec 0 cap) as [_|]; [|lia]. reflexivity. }
  split; [apply fresh_entry|]. cbn [heap logger tasks].
  split; [exact Hd|]. split; [reflexivity|]. split; [by rewrite Htk|].
  split.
  - destruct (drainStep_Holding_healthy h2 f (Some (mkChan [] cap false)) false (Some c) errs Hf)
      as [errs' Hstep].
    cbn [drainSteps]. rewrite drainStep_AtSelect_cons. cbn beta iota.
    unfold ptr in *. rewrite Hstep. reflexivity.
  - intros j Hj. cbn [marshalEntry] in Hj. rewrite Hd in Hj.
    apply MarshalJSON_base_members in Hj as (H1 & H2 & H3 & H4 & H5 & _ & H7).
    rewrite H1, H2, H3, H4, H5, H7, Hm, Hp, Hip, Hua, Hsc, Hts. by repeat split.
Qed.

End EndToEndAsync.

(** The request for /hello with asynchronous dispatch. *)
Lemma async_request_reaches_file_witness :
  exists w1 w2 c,
    snd (handle stamp (fun w' => w') helloWorldAsync) = Ret w1
    /\ logger w1 = logger helloWorldAsync
    /\ runTask 0 w1 = Ret w2
    /\ staged (logger w2) = [Some c]
    /\ lines (dest (drainSteps 2 (heap w2) (logger w2))) =
         option_list (marshalEntry (heap w2) (Some c)).
Proof.
  destruct (async_request_reaches_file stamp (fun w' => w') helloWorldAsync 0%nat emptyFile 8 []
              eq_refl eq_refl eq_refl emptyFile_healthy (Nat.lt_0_succ 7))
    as (w1 & w2 & c & Hs & Hlg & _ & Hr & _ & _ & Hst & _ & Hl & _).
  exists w1, w2, c. repeat split; assumption.
Defined.
